(** * wok: the page-collection and render-orchestration pipeline

    A shallow embedding of [Engine.make_tree] and [Engine.render_site]
    (wok/engine.py) together with the properties of the category forest,
    the tag index, the per-page template context and the growing render
    worklist.

    Python objects that the engine shares by reference are kept in an
    explicit store: the [subpages] list of a metadata mapping is addressed
    by the identity of that mapping, the tag index and [self.categories]
    are one object each, and the dictionaries and lists a template context
    is made of live in numbered cells.  The [render] and [write] methods
    of a page, the clock and the state of the world outside the engine are
    parameters.

    [read_options], [sanity_check], [load_hooks], [prepare_output],
    [load_pages] and the action part of [__init__] are embedded as well,
    the calls of the file system being parameters.  The render loop and
    [load_pages] come twice: without exceptions, for what a run that comes
    to its end has done, and with the exceptions of the pages, for the
    action.  The command line, the set-up of the logging and the preview
    server are left out. *)

From stdpp Require Import gmap strings list fin_maps sorting.

#[local] Set Warnings "-clear-no-such-hyp".

(** ** Data model *)

(** Modelled from the spec: the class [Page] of wok/page.py is not among
    the sources; the data model of the specification gives a page a source
    path and a metadata mapping with the keys [category], [slug], [tags],
    [published] and [subpages].

    A page's metadata mapping ([p.meta]).  [mid] is the identity of the
    mapping object: the flat collection, the category listing, the tag
    index and the forest all hold the same object.  The keys [slug],
    [category] and [tags] are only read by the engine; the key [subpages]
    is written by [make_tree] and is kept in the store, under [mid], an
    absent entry being the empty list a page starts with.  The key
    [published] is read by [load_pages] alone, which comes before the part
    embedded here. *)
Record Meta := mkMeta {
  mid : nat;
  slug : string;
  category : list string;
  tags : list string;
}.

(** Modelled from the spec: a page object of the missing class [Page],
    with its source path and its metadata mapping; its methods [render] and
    [write] are parameters of the render loop. *)
Record Page := mkPage {
  path : string;
  meta : Meta;
}.

#[global] Instance Meta_eq_dec : EqDecision Meta.
Proof. solve_decision. Defined.

#[global] Instance Page_eq_dec : EqDecision Page.
Proof. solve_decision. Defined.

(** Values of the site configuration (the parsed YAML of [config]). *)
Inductive ConfVal :=
| CStr (s : string)
| CSeq (l : list string).

(** Severities of the [logging] module. *)
Inductive Level := DEBUG | INFO | WARNING | ERROR | CRITICAL.

Definition LogRecord : Type := Level * string.

(** The engine object after [load_pages]. *)
Record Engine := mkEngine {
  options : gmap string ConfVal;
  all_pages : list Page;
  categories : gmap string (list Meta);
  subpages : gmap nat (list Meta);
  log : list LogRecord;
}.

(** [Engine.default_options]. *)
Definition default_options : gmap string ConfVal :=
  list_to_map
    [("content_dir", CStr "content");
     ("template_dir", CStr "templates");
     ("output_dir", CStr "output");
     ("media_dir", CStr "media");
     ("site_title", CStr "Some random Wok site");
     ("url_pattern", CStr "/{category}/{slug}{page}.{type}")]%string.

(** ** Sorting: [self.all_pages.sort(key=lambda p: len(p.meta['category']))] *)

(** [list.sort] is Python's built-in stable sort: elements with equal keys
    keep their relative order.  It is embedded as a stable insertion sort. *)
Section sort.
Context {A : Type} (key : A → nat).

Fixpoint insert_by (x : A) (l : list A) : list A :=
  match l with
  | [] => [x]
  | y :: l' =>
      if decide (key x ≤ key y) then x :: y :: l' else y :: insert_by x l'
  end.

Definition sort_by (l : list A) : list A := foldr insert_by [] l.
End sort.

(** The sort key: the length of the category path. *)
Definition depth (p : Page) : nat := length (category (meta p)).

Definition sort_pages (l : list Page) : list Page := sort_by depth l.

(** ** [make_tree] *)

(** The local state of [make_tree]: [self.categories], the local list
    [site_tree], the [subpages] lists of the metadata mappings, and the
    log. *)
Record TreeState := mkTreeState {
  t_categories : gmap string (list Meta);
  t_site_tree : list Meta;
  t_subpages : gmap nat (list Meta);
  t_log : list LogRecord;
}.

(** The variable [siblings] refers to a list object: the local [site_tree]
    or the [subpages] list of a parent. *)
Inductive SibRef :=
| Roots
| SubpagesOf (parent : nat).

Definition deref (st : TreeState) (r : SibRef) : list Meta :=
  match r with
  | Roots => t_site_tree st
  | SubpagesOf i => t_subpages st !!! i
  end.

(** [[subpage for subpage in siblings if subpage['slug'] == cat][0]];
    [None] stands for the [IndexError] of indexing an empty list. *)
Definition find_parent (siblings : list Meta) (cat : string) : option Meta :=
  head (filter (λ subpage, slug subpage = cat) siblings).

(** The inner loop [for cat in p.meta['category']]. *)
Fixpoint descend (st : TreeState) (siblings : SibRef) (cats : list string)
  : option SibRef :=
  match cats with
  | [] => Some siblings
  | cat :: cats' =>
      match find_parent (deref st siblings) cat with
      | None => None
      | Some parent => descend st (SubpagesOf (mid parent)) cats'
      end
  end.

(** [siblings.append(p.meta)]. *)
Definition append_to (st : TreeState) (r : SibRef) (m : Meta) : TreeState :=
  match r with
  | Roots =>
      mkTreeState (t_categories st) (t_site_tree st ++ [m]) (t_subpages st)
        (t_log st)
  | SubpagesOf i =>
      mkTreeState (t_categories st) (t_site_tree st)
        (<[i := (t_subpages st !!! i) ++ [m]]> (t_subpages st)) (t_log st)
  end.

(** The per-top-level-category listing: lines 210-215. *)
Definition list_category (st : TreeState) (p : Page) : TreeState :=
  match category (meta p) with
  | [] => st
  | top_cat :: _ =>
      mkTreeState
        (<[top_cat := default [] (t_categories st !! top_cat) ++ [meta p]]>
           (t_categories st))
        (t_site_tree st) (t_subpages st) (t_log st)
  end.

Definition quote : string := String (Ascii.ascii_of_nat 34) EmptyString.

Definition orphan_message (page_path : string) : string :=
  ("It looks like the page " +:+ quote +:+ page_path +:+ quote +:+
   " is an orphan! This will probably cause problems.")%string.

Definition log_error (st : TreeState) (msg : string) : TreeState :=
  mkTreeState (t_categories st) (t_site_tree st) (t_subpages st)
    (t_log st ++ [(ERROR, msg)]).

(** The [try] block and its [except IndexError] handler. *)
Definition place (st : TreeState) (p : Page) : TreeState :=
  match descend st Roots (category (meta p)) with
  | Some siblings => append_to st siblings (meta p)
  | None => log_error st (orphan_message (path p))
  end.

(** One iteration of the loop over the pages. *)
Definition tree_step (st : TreeState) (p : Page) : TreeState :=
  place (list_category st p) p.

Definition tree_init (e : Engine) : TreeState :=
  mkTreeState ∅ [] (subpages e) (log e).

(** The loop, over the sorted collection. *)
Definition tree_loop (e : Engine) : TreeState :=
  foldl tree_step (tree_init e) (sort_pages (all_pages e)).

(** [make_tree]: the sort is in place, so the engine keeps the sorted
    collection; [site_tree] is a local variable and is dropped. *)
Definition make_tree (e : Engine) : Engine :=
  let st := tree_loop e in
  mkEngine (options e) (sort_pages (all_pages e)) (t_categories st)
    (t_subpages st) (t_log st).

(** A metadata mapping is in the forest when it is a root or somebody's
    subpage. *)
Definition in_forest (st : TreeState) (m : Meta) : Prop :=
  m ∈ t_site_tree st ∨ ∃ i, m ∈ t_subpages st !!! i.

(** ** The store of a render run *)

(** References held by a template context: the tag index [tag_dict] and
    [self.categories] are single objects, the same for every page; a
    numbered cell is an object built for one context. *)
Inductive Ref :=
| RTagDict
| RCategories
| RCell (l : nat).

Inductive Val :=
| VConf (c : ConfVal)
| VTime (t : nat)
| VRef (r : Ref).

Inductive Obj :=
| ODict (d : gmap string Val)
| OPages (l : list Page).

(** The keys the merge of the site configuration skips: the tuple of
    lines 254-255. *)
Definition reserved : list string :=
  ["site_title"; "output_dir"; "content_dir"; "templates_dir"; "media_dir";
   "url_pattern"]%string.

(** What a page sees under a key of the site section. *)
Inductive SVal :=
| SConf (c : ConfVal)
| STime (t : nat)
| SIndex (ix : gmap string (list Meta))
| SPages (l : list Page)
| SOther.

(** The site section as a value: the five entries of the literal, under
    the configuration entries whose key is not in [reserved]. *)
Definition site_base (opts : gmap string ConfVal) (t : nat)
    (ix cats : gmap string (list Meta)) (pages : list Page)
  : gmap string SVal :=
  list_to_map
    [("title", SConf (default (CStr "Untitled") (opts !! "site_title")));
     ("datetime", STime t);
     ("tags", SIndex ix);
     ("pages", SPages pages);
     ("categories", SIndex cats)]%string.

Definition site_value (opts : gmap string ConfVal) (t : nat)
    (ix cats : gmap string (list Meta)) (pages : list Page)
  : gmap string SVal :=
  (SConf <$> filter (λ kv, kv.1 ∉ reserved) opts)
  ∪ site_base opts t ix cats pages.

Section render.
(** What is outside the engine: the state of the world (the file system,
    the clock, the insides of the page objects), the clock, and the
    [render] and [write] methods of a page.  A step that raises aborts
    the run and is not modelled here, [render_step_exn] has it; [render]
    returns the new pages, [None] and the empty list alike being the
    empty list. *)
Context {World : Type}.

Record Store := mkStore {
  world : World;
  s_tag_dict : gmap string (list Meta);
  s_categories : gmap string (list Meta);
  s_subpages : gmap nat (list Meta);
  cells : list Obj;
}.

Context (now : World → nat).
Context (render : Store → nat → Page → Store * list Page).
Context (write : Store → Page → Store).

Definition set_cells (s : Store) (c : list Obj) : Store :=
  mkStore (world s) (s_tag_dict s) (s_categories s) (s_subpages s) c.

(** A new object gets a cell no live object has. *)
Definition alloc (o : Obj) (s : Store) : nat * Store :=
  (length (cells s), set_cells s (cells s ++ [o])).

(** [d[k] = v] on the dictionary in cell [l]. *)
Definition dict_set (l : nat) (k : string) (v : Val) (s : Store) : Store :=
  match cells s !! l with
  | Some (ODict d) => set_cells s (<[l := ODict (<[k := v]> d)]> (cells s))
  | _ => s
  end.

(** The inner dictionary literal of lines 244-250. *)
Definition site_literal (opts : gmap string ConfVal) (t : nat) (lp : nat)
  : gmap string Val :=
  list_to_map
    [("title", VConf (default (CStr "Untitled") (opts !! "site_title")));
     ("datetime", VTime t);
     ("tags", VRef RTagDict);
     ("pages", VRef (RCell lp));
     ("categories", VRef RCategories)]%string.

(** Lines 253-257: [templ_vars['site'][k] = v] for the keys that are
    not reserved. *)
Definition merge_options (opts : gmap string ConfVal) (ls : nat) (s : Store)
  : Store :=
  map_fold (λ k v s, if decide (k ∈ reserved) then s
                     else dict_set ls k (VConf v) s) s opts.

(** Lines 259-260. *)
Definition bind_author (opts : gmap string ConfVal) (ls : nat) (s : Store)
  : Store :=
  match opts !! "author"%string with
  | Some a => dict_set ls "author" (VConf a) s
  | None => s
  end.

(** Lines 243-260: the context of one page.  [self.all_pages[:]] is a
    new list, the two dictionary literals are new dictionaries. *)
Definition make_templ_vars (opts : gmap string ConfVal) (pages : list Page)
    (s : Store) : nat * Store :=
  let '(lp, s1) := alloc (OPages pages) s in
  let '(ls, s2) :=
    alloc (ODict (site_literal opts (now (world s)) lp)) s1 in
  let '(lv, s3) := alloc (ODict {["site"%string := VRef (RCell ls)]}) s2 in
  (lv, bind_author opts ls (merge_options opts ls s3)).

(** The calls the loop makes, in order. *)
Inductive Call :=
| CallRender (p : Page) (templ_vars : nat) (s : Store) (new_pages : list Page)
| CallWrite (p : Page).

Record RState := mkRState {
  r_store : Store;
  r_pages : list Page;
  r_calls : list Call;
  r_log : list LogRecord;
}.

(** The body of the loop, lines 241-267. *)
Definition render_step (opts : gmap string ConfVal) (st : RState) (p : Page)
  : RState :=
  let '(lv, s1) := make_templ_vars opts (r_pages st) (r_store st) in
  let '(s2, new_pages) := render s1 lv p in
  let s3 := write s2 p in
  let calls := r_calls st ++ [CallRender p lv s1 new_pages; CallWrite p] in
  match new_pages with
  | [] => mkRState s3 (r_pages st) calls (r_log st)
  | _ :: _ =>
      mkRState s3 (r_pages st ++ new_pages) calls
        (r_log st ++ [(DEBUG, "found new_pages"%string)])
  end.

(** [for p in self.all_pages]: the list iterator keeps an index and
    reads the length of the list anew at every step, so that the pages
    appended by the body are visited.  [None] is a run that is not over
    when the fuel is. *)
Fixpoint render_loop (fuel : nat) (opts : gmap string ConfVal) (i : nat)
    (st : RState) : option RState :=
  match r_pages st !! i with
  | None => Some st
  | Some p =>
      match fuel with
      | 0 => None
      | S fuel' => render_loop fuel' opts (S i) (render_step opts st p)
      end
  end.

(** Lines 231-237. *)
Definition gather_tag_set (pages : list Page) : gset string :=
  foldl (λ tag_set p, tag_set ∪ list_to_set (tags (meta p))) ∅ pages.

Definition gather_tags (pages : list Page) : gmap string (list Meta) :=
  set_fold
    (λ tag tag_dict,
       <[tag := meta <$> filter (λ p, tag ∈ tags (meta p)) pages]> tag_dict)
    ∅ (gather_tag_set pages).

Definition render_init (w : World) (e : Engine) : RState :=
  mkRState
    (mkStore w (gather_tags (all_pages e)) (categories e) (subpages e) [])
    (all_pages e) [] (log e).

Definition render_site (fuel : nat) (w : World) (e : Engine)
  : option RState :=
  render_loop fuel (options e) 0 (render_init w e).

(** [make_tree] followed by [render_site], as in [__init__]. *)
Definition generate (fuel : nat) (w : World) (e : Engine) : option RState :=
  render_site fuel w (make_tree e).

(** *** What a context shows *)

(** A value of the site section, with the reference it holds followed. *)
Definition resolve (s : Store) (v : Val) : SVal :=
  match v with
  | VConf c => SConf c
  | VTime t => STime t
  | VRef RTagDict => SIndex (s_tag_dict s)
  | VRef RCategories => SIndex (s_categories s)
  | VRef (RCell l) =>
      match cells s !! l with
      | Some (OPages ps) => SPages ps
      | _ => SOther
      end
  end.

(** [templ_vars['site']] as the page sees it: the site section of the
    context in cell [lv], every value followed to the object it is. *)
Definition site_view (s : Store) (lv : nat) : option (gmap string SVal) :=
  match cells s !! lv with
  | Some (ODict tv) =>
      match tv !! "site"%string with
      | Some (VRef (RCell ls)) =>
          match cells s !! ls with
          | Some (ODict site) => Some (resolve s <$> site)
          | _ => None
          end
      | _ => None
      end
  | _ => None
  end.

(** The pages of the render calls, the pages of the write calls, and
    the pages the render calls returned. *)
Definition rendered (c : Call) : list Page :=
  match c with CallRender p _ _ _ => [p] | CallWrite _ => [] end.
Definition written (c : Call) : list Page :=
  match c with CallRender _ _ _ _ => [] | CallWrite p => [p] end.
Definition spawned (c : Call) : list Page :=
  match c with CallRender _ _ _ new_pages => new_pages | CallWrite _ => [] end.

(** The store the calls of a trace leave when they are made from the
    store [s0]: a render call is made in the store the trace has for it,
    a write call in the store the call before it left. *)
Definition run_calls (s0 : Store) (calls : list Call) : Store :=
  foldl (λ s c, match c with
                | CallRender p lv s1 _ => (render s1 lv p).1
                | CallWrite p => write s p
                end) s0 calls.

(** [q] is a page some render step of [p] can return. *)
Definition spawns (p q : Page) : Prop :=
  ∃ s lv, q ∈ (render s lv p).2.

(** [q] is a page a render step of [p] can return in a store that has
    the property [Q]. *)
Definition spawns_in (Q : Store → Prop) (p q : Page) : Prop :=
  ∃ s lv, Q s ∧ q ∈ (render s lv p).2.

(** The context seen by the page at position [j] of the worklist, when
    the collection the run started from is [init]: the site section is
    [site_value] over the store the render step is given, with the pages
    loaded and the pages the calls before it returned. *)
Definition item_done (opts : gmap string ConfVal) (init : list Page)
    (st : RState) (j : nat) : Prop :=
  ∃ p lv s,
    r_pages st !! j = Some p ∧
    r_calls st !! (2 * j) = Some (CallRender p lv s (render s lv p).2) ∧
    r_calls st !! (2 * j + 1) = Some (CallWrite p) ∧
    site_view s lv =
    Some (site_value opts (now (world s)) (s_tag_dict s) (s_categories s)
            (init ++ (take (2 * j) (r_calls st) ≫= spawned))).

(** The invariant of the loop when the iterator is at position [i]. *)
Definition run_inv (opts : gmap string ConfVal) (init : list Page) (i : nat)
    (st : RState) : Prop :=
  length (r_calls st) = 2 * i ∧
  i ≤ length (r_pages st) ∧
  r_pages st = init ++ (r_calls st ≫= spawned) ∧
  ∀ j, j < i → item_done opts init st j.

End render.

(** ** Definitions used to state the properties *)

(** A listing, or nothing when the listing is empty: a key of
    [self.categories] exists once a page has been listed under it. *)
Definition nonempty_opt {A} (l : list A) : option (list A) :=
  match l with
  | [] => None
  | _ :: _ => Some l
  end.

(** The pages whose category path starts with [k]. *)
Definition cat_listing (k : string) (pages : list Page) : list Meta :=
  meta <$> filter (λ p, head (category (meta p)) = Some k) pages.

(** The pages with an empty category path. *)
Definition root_listing (pages : list Page) : list Meta :=
  meta <$> filter (λ p, category (meta p) = []) pages.

(** The pages that carry the tag [t]. *)
Definition tag_listing (t : string) (pages : list Page) : list Meta :=
  meta <$> filter (λ p, t ∈ tags (meta p)) pages.

(** The configuration merged into a dictionary: what the assignments of
    lines 253-257 leave in it. *)
Definition merge_dict (opts : gmap string ConfVal) (d : gmap string Val)
  : gmap string Val :=
  map_fold (λ k v d, if decide (k ∈ reserved) then d else <[k := VConf v]> d)
    d opts.

(** One worklist is an expansion of another when an entry has been
    replaced by pages it spawns, in whatever order. *)
Definition expands {A} (R : A → A → Prop) (l' l : list A) : Prop :=
  ∃ x r cs, l ≡ₚ x :: r ∧ l' ≡ₚ r ++ cs ∧ Forall (λ c, R c x) cs.

(** The view of the context of call [n] of a run. *)
Definition view_at {World} (run : option (@RState World)) (n : nat)
  : option (gmap string SVal) :=
  st ← run;
  c ← r_calls st !! n;
  match c with
  | CallRender _ lv s _ => site_view s lv
  | CallWrite _ => None
  end.

(** [templ_vars['site']['tags'][t] = []], as a template or a renderer
    can do it: the tag index is reached through the context in cell
    [lv]. *)
Definition tag_index_add {World} (t : string) (s : @Store World) (lv : nat)
  : Store :=
  match cells s !! lv with
  | Some (ODict tv) =>
      match tv !! "site"%string with
      | Some (VRef (RCell ls)) =>
          match cells s !! ls with
          | Some (ODict site) =>
              match site !! "tags"%string with
              | Some (VRef RTagDict) =>
                  mkStore (world s) (<[t := []]> (s_tag_dict s))
                    (s_categories s) (s_subpages s) (cells s)
              | _ => s
              end
          | _ => s
          end
      | _ => s
      end
  | _ => s
  end.

(** A render step that returns no page and leaves the store alone, and
    one that adds a key to the tag index of the context it is given. *)
Definition render_quiet (s : @Store unit) (lv : nat) (p : Page)
  : Store * list Page := (s, []).

Definition render_poke (s : @Store unit) (lv : nat) (p : Page)
  : Store * list Page := (tag_index_add "injected" s lv, []).

(** A listing page whose render step returns its continuation. *)
Definition page2 : Page :=
  mkPage "content/index.md" (mkMeta 10 "index-2" [] ["z"])%string.

Definition render_paginate (s : @Store unit) (lv : nat) (p : Page)
  : Store * list Page :=
  (s, if decide (mid (meta p) = 0) then [page2] else []).

Definition write_quiet (s : @Store unit) (p : Page) : Store := s.

Definition clock (w : unit) : nat := 0.

(** Sites used as examples. *)
Definition scenario_pages (a b c d : string) (n0 n1 n2 n3 : nat)
    (t0 t1 t2 t3 : list string) (f0 f1 f2 f3 : string) : list Page :=
  [mkPage f0 (mkMeta n0 a [] t0);
   mkPage f1 (mkMeta n1 b [a] t1);
   mkPage f2 (mkMeta n2 c [a; b] t2);
   mkPage f3 (mkMeta n3 d [a; b; c] t3)].

Definition lost_page : Page :=
  mkPage "content/blog/missing/lost.md"
    (mkMeta 3 "lost" ["blog"; "missing"] ["x"])%string.

Definition post_page : Page :=
  mkPage "content/blog/post1.md" (mkMeta 2 "post1" ["blog"] [])%string.

Definition index_page : Page :=
  mkPage "content/index.md" (mkMeta 0 "index" [] [])%string.

Definition blog_page : Page :=
  mkPage "content/blog.md" (mkMeta 1 "blog" [] ["x"])%string.

Definition orphan_site : Engine :=
  mkEngine default_options [lost_page; post_page; index_page; blog_page]
    ∅ ∅ [].

(** The store a call was given, or [d] when it was given none. *)
Definition call_store {World} (d : @Store World) (c : option (@Call World))
  : Store :=
  match c with
  | Some (CallRender _ _ s _) => s
  | _ => d
  end.

(** A site of two pages, and three runs over it after [make_tree]: one
    whose pages leave the store alone, one whose pages write to the tag
    index they find in their context, and one whose first page returns a
    continuation. *)
Definition listing_site : Engine :=
  mkEngine default_options [blog_page; index_page] ∅ ∅ [].

Definition run_quiet : option RState :=
  generate clock render_quiet write_quiet 2 tt listing_site.

Definition run_poke : option RState :=
  generate clock render_poke write_quiet 2 tt listing_site.

Definition fin_paginate : RState :=
  default (render_init tt (make_tree listing_site))
    (render_site clock render_paginate write_quiet 3 tt
       (make_tree listing_site)).

(** ** Strings: [str.split] and [str.startswith] *)

(** [s.split(sep)] for a separator of one character: the pieces between
    the occurrences of [sep], the empty ones included, so that there is
    always one piece at least. *)
Fixpoint split_on (sep : Ascii.ascii) (s : string) : list string :=
  match s with
  | EmptyString => [EmptyString]
  | String c s' =>
      if decide (c = sep) then EmptyString :: split_on sep s'
      else
        match split_on sep s' with
        | [] => [String c EmptyString]
        | piece :: pieces => String c piece :: pieces
        end
  end.

(** [sep.join(pieces)]. *)
Fixpoint join_with (sep : Ascii.ascii) (pieces : list string) : string :=
  match pieces with
  | [] => EmptyString
  | [piece] => piece
  | piece :: pieces' => piece +:+ String sep (join_with sep pieces')
  end.

(** The number of occurrences of a character. *)
Fixpoint count_char (c : Ascii.ascii) (s : string) : nat :=
  match s with
  | EmptyString => 0
  | String c' s' => (if decide (c' = c) then 1 else 0) + count_char c s'
  end.

Definition dot : Ascii.ascii := Ascii.ascii_of_nat 46.
Definition comma : Ascii.ascii := Ascii.ascii_of_nat 44.

(** [f.startswith('.')]. *)
Definition hidden (f : string) : bool :=
  match f with
  | EmptyString => false
  | String c _ => bool_decide (c = dot)
  end.

(** [f.split('.')[-1]]. *)
Definition file_ext (f : string) : string :=
  default EmptyString (last (split_on dot f)).

(** ** [read_options] *)

(** The values of [self.options] once [read_options] is over: a value of
    the configuration, or the author objects put under [authors]. *)
Inductive OptVal (Author : Type) :=
| OConf (c : ConfVal)
| OAuthors (l : list Author).
Arguments OConf {Author} c.
Arguments OAuthors {Author} l.

Section read_options.
(** Modelled from the spec: [page.Author.parse] is not among the sources;
    it turns an author given as a string into a structured author
    identity, and is a parameter. *)
Context {Author : Type} (parse : string → Author).

(** [self.options.get('authors', self.options.get('author', None))]. *)
Definition authors_option (opts : gmap string (OptVal Author))
  : option (OptVal Author) :=
  match opts !! "authors"%string with
  | Some a => Some a
  | None => opts !! "author"%string
  end.

(** [read_options]; [config] is the mapping [yaml.load] gives for the
    file [config], [None] when there is no such file or nothing in it. *)
Definition read_options (config : option (gmap string ConfVal))
  : gmap string (OptVal Author) :=
  let options : gmap string (OptVal Author) := OConf <$> default_options in
  let options :=
    match config with
    | Some yaml_config => (OConf <$> yaml_config) ∪ options
    | None => options
    end in
  match authors_option options with
  | Some (OConf (CSeq authors)) =>
      <["authors"%string := OAuthors (parse <$> authors)]> options
  | Some (OConf (CStr authors)) =>
      <["authors"%string := OAuthors (parse <$> split_on comma authors)]>
        options
  | _ => options
  end.
End read_options.

(** ** [load_pages] *)

Section load_pages.
(** Modelled from the spec: the module [renderers] and the constructor of
    [Page] are not among the sources.  A renderer has a list of
    extensions; [all_renderers] is [renderers.all], [Plain] and
    [BaseRenderer] are [renderers.Plain] and [renderers.Renderer];
    [new_page path options renderer] is [page.Page(path, options,
    renderer)] and [published] reads [p.meta['published']]. *)
Context {Renderer : Type}.
Context (extensions : Renderer → list string).
Context (all_renderers : list Renderer).
Context (Plain BaseRenderer : Renderer).
Context (path_join : string → string → string).
Context (new_page : string → gmap string ConfVal → Renderer → Page).
Context (published : Page → bool).

(** The loop [for r in renderers.all] with its [break]: the renderer the
    variable holds when the loop is left, and whether it was left by the
    [break]. *)
Fixpoint scan_renderers (ext : string) (rs : list Renderer)
    (renderer : Renderer) : Renderer * bool :=
  match rs with
  | [] => (renderer, false)
  | r :: rs' =>
      if decide (ext ∈ extensions r) then (r, true)
      else scan_renderers ext rs' renderer
  end.

Definition no_parser_message (f : string) : string :=
  ("No parser found for " +:+ f +:+ ". Using default renderer.")%string.

(** Lines 180-190: the renderer of a file, and what is logged. *)
Definition select_renderer (f : string) : Renderer * list LogRecord :=
  let ext := file_ext f in
  let renderer := Plain in
  let '(renderer, broke) := scan_renderers ext all_renderers renderer in
  if broke then (renderer, [])
  else (BaseRenderer, [(WARNING, no_parser_message f)]).

(** The body of the loop over the files of a directory. *)
Definition load_file (root : string) (e : Engine) (f : string) : Engine :=
  if hidden f then e
  else
    let '(renderer, warnings) := select_renderer f in
    let p := new_page (path_join root f) (options e) renderer in
    mkEngine (options e)
      (if published p then all_pages e ++ [p] else all_pages e)
      (categories e) (subpages e) (log e ++ warnings).

(** [load_pages], over what [os.walk] yields for the content directory:
    for every directory its path, its subdirectories and its files. *)
Definition load_pages
    (walk : list (string * list string * list string)) (e : Engine)
  : Engine :=
  foldl (λ e '(root, dirs, files), foldl (load_file root) e files) e walk.

(** The page made of a file, when the file is not a hidden one. *)
Definition file_page (opts : gmap string ConfVal) (root f : string) : Page :=
  new_page (path_join root f) opts (select_renderer f).1.

(** The files of a walk with their directories, in the order of the
    walk. *)
Definition walk_files (walk : list (string * list string * list string))
  : list (string * string) :=
  walk ≫= λ '(root, dirs, files), (λ f, (root, f)) <$> files.
End load_pages.

(** ** [prepare_output] and [sanity_check] *)

(** The exceptions of the file system calls: [OSError], which
    [prepare_output] catches around the copy of the media, and the others
    ([IOError], [shutil.Error], ...). *)
Inductive Exn := OSError | OtherError.

(** A call returns a value or raises, and leaves a world either way. *)
Inductive Res (W A : Type) :=
| Ok (a : A) (w : W)
| Raise (e : Exn) (w : W).
Arguments Ok {W A} a w.
Arguments Raise {W A} e w.

Section prepare_output.
(** The calls of [os], [os.path] and [shutil] are parameters. *)
Context {World : Type}.
Context (isdir : World → string → bool).
Context (rmtree : World → string → Res World unit).
Context (mkdir : World → string → Res World unit).
Context (listdir : World → string → Res World (list string)).
Context (copytree : World → string → string → Res World unit).
Context (copy : World → string → string → Res World unit).
Context (path_join : string → string → string).

(** [sanity_check]: [true] when the run goes on, [false] when it logs at
    the critical level and exits with status 1. *)
Definition sanity_check (w : World) : bool :=
  isdir w "templates" || isdir w "content".

(** The body of the loop of lines 155-164. *)
Definition copy_entry (media_dir output_dir : string) (w : World)
    (name : string) : Res World unit :=
  let path := path_join media_dir name in
  if isdir w path then copytree w path (path_join output_dir name)
  else copy w path output_dir.

Fixpoint copy_entries (media_dir output_dir : string) (names : list string)
    (w : World) : Res World unit :=
  match names with
  | [] => Ok tt w
  | name :: names' =>
      match copy_entry media_dir output_dir w name with
      | Ok _ w' => copy_entries media_dir output_dir names' w'
      | Raise e w' => Raise e w'
      end
  end.

(** The [try] block of lines 154-169 with its handler. *)
Definition copy_media (media_dir output_dir : string) (w : World)
  : Res World unit :=
  let body :=
    match listdir w media_dir with
    | Ok names w' => copy_entries media_dir output_dir names w'
    | Raise e w' => Raise e w'
    end in
  match body with
  | Raise OSError w' => Ok tt w'
  | r => r
  end.

(** [prepare_output]. *)
Definition prepare_output (output_dir media_dir : string) (w : World)
  : Res World unit :=
  match (if isdir w output_dir then rmtree w output_dir else Ok tt w) with
  | Raise e w1 => Raise e w1
  | Ok _ w1 =>
      match mkdir w1 output_dir with
      | Raise e w2 => Raise e w2
      | Ok _ w2 => copy_media media_dir output_dir w2
      end
  end.
End prepare_output.

(** ** The action part of [__init__] *)

(** The options as the pages and the render loop get them.  Modelled
    from the spec: the author objects of [wok/page.py] are not among the
    sources; the engine hands them on and never looks into them, and
    [encode] says how one is written as a value of the configuration. *)
Definition conf_of {Author : Type} (encode : Author → string)
    (v : OptVal Author) : ConfVal :=
  match v with
  | OConf c => c
  | OAuthors l => CSeq (encode <$> l)
  end.

(** [self.options[k]] where a call of [os], [os.path] or [shutil] takes a
    path: the path when the value is a string; with any other value the
    call raises a [TypeError] before it does anything. *)
Definition dir_option (opts : gmap string ConfVal) (k : string)
  : option string :=
  match opts !! k with
  | Some (CStr s) => Some s
  | _ => None
  end.

Section exceptions.
(** The render loop with the exceptions of the pages: [render] and
    [write] return, or raise, and leave a store either way.  An exception
    is caught nowhere in [render_site]: it ends the loop. *)
Context {World : Type}.
Context (now : World → nat).
Context (render : @Store World → nat → Page → Res (@Store World) (list Page)).
Context (write : @Store World → Page → Res (@Store World) unit).

(** What a call returns and the store it leaves, as the loop without
    exceptions has them; a call that raises returns nothing. *)
Definition render_of (s : @Store World) (lv : nat) (p : Page)
  : Store * list Page :=
  match render s lv p with
  | Ok new_pages s' => (s', new_pages)
  | Raise _ s' => (s', [])
  end.

Definition write_of (s : @Store World) (p : Page) : Store :=
  match write s p with
  | Ok _ s' => s'
  | Raise _ s' => s'
  end.

(** The body of the loop, lines 241-267.  The trace holds the calls that
    returned. *)
Definition render_step_exn (opts : gmap string ConfVal) (st : RState)
    (p : Page) : Res RState unit :=
  let '(lv, s1) := make_templ_vars now opts (r_pages st) (r_store st) in
  match render s1 lv p with
  | Raise e s2 => Raise e (mkRState s2 (r_pages st) (r_calls st) (r_log st))
  | Ok new_pages s2 =>
      match write s2 p with
      | Raise e s3 =>
          Raise e
            (mkRState s3 (r_pages st)
               (r_calls st ++ [CallRender p lv s1 new_pages]) (r_log st))
      | Ok _ s3 =>
          let calls :=
            r_calls st ++ [CallRender p lv s1 new_pages; CallWrite p] in
          match new_pages with
          | [] => Ok tt (mkRState s3 (r_pages st) calls (r_log st))
          | _ :: _ =>
              Ok tt
                (mkRState s3 (r_pages st ++ new_pages) calls
                   (r_log st ++ [(DEBUG, "found new_pages"%string)]))
          end
      end
  end.

(** [for p in self.all_pages], as [render_loop]; [None] is a run that is
    not over when the fuel is. *)
Fixpoint render_loop_exn (fuel : nat) (opts : gmap string ConfVal) (i : nat)
    (st : RState) : option (Res RState unit) :=
  match r_pages st !! i with
  | None => Some (Ok tt st)
  | Some p =>
      match fuel with
      | 0 => None
      | S fuel' =>
          match render_step_exn opts st p with
          | Ok _ st' => render_loop_exn fuel' opts (S i) st'
          | Raise e st' => Some (Raise e st')
          end
      end
  end.

Definition render_site_exn (fuel : nat) (w : World) (e : Engine)
  : option (Res RState unit) :=
  render_loop_exn fuel (options e) 0 (render_init w e).
End exceptions.

Section load_pages_exn.
(** [load_pages] with the exceptions of [page.Page].  Modelled from the
    spec: [wok/page.py] is not among the sources; the constructor reads
    the file and makes a page of it, or raises, and leaves the world as it
    is. *)
Context {Renderer : Type}.
Context (extensions : Renderer → list string).
Context (all_renderers : list Renderer).
Context (Plain BaseRenderer : Renderer).
Context (path_join : string → string → string).
Context (new_page : string → gmap string ConfVal → Renderer → Exn + Page).
Context (published : Page → bool).

(** The body of the loop over the files of a directory; the warning is
    logged before the page is made. *)
Definition load_file_exn (root : string) (e : Engine) (f : string)
  : Res Engine unit :=
  if hidden f then Ok tt e
  else
    let '(renderer, warnings) :=
      select_renderer extensions all_renderers Plain BaseRenderer f in
    match new_page (path_join root f) (options e) renderer with
    | inl exn =>
        Raise exn
          (mkEngine (options e) (all_pages e) (categories e) (subpages e)
             (log e ++ warnings))
    | inr p =>
        Ok tt
          (mkEngine (options e)
             (if published p then all_pages e ++ [p] else all_pages e)
             (categories e) (subpages e) (log e ++ warnings))
    end.

Fixpoint load_files_exn (root : string) (files : list string) (e : Engine)
  : Res Engine unit :=
  match files with
  | [] => Ok tt e
  | f :: files' =>
      match load_file_exn root e f with
      | Ok _ e' => load_files_exn root files' e'
      | Raise exn e' => Raise exn e'
      end
  end.

Fixpoint load_pages_exn (walk : list (string * list string * list string))
    (e : Engine) : Res Engine unit :=
  match walk with
  | [] => Ok tt e
  | (root, dirs, files) :: walk' =>
      match load_files_exn root files e with
      | Ok _ e' => load_pages_exn walk' e'
      | Raise exn e' => Raise exn e'
      end
  end.

(** The same loop over the files of the walk with their directories. *)
Fixpoint load_flat_exn (files : list (string * string)) (e : Engine)
  : Res Engine unit :=
  match files with
  | [] => Ok tt e
  | (root, f) :: files' =>
      match load_file_exn root e f with
      | Ok _ e' => load_flat_exn files' e'
      | Raise exn e' => Raise exn e'
      end
  end.
End load_pages_exn.

Section action.
(** Lines 93-101, after the command line and the logging have been set
    up.  [load_config] is the reading of the file [config] of lines
    114-119: it gives the mapping of the file, or nothing when there is no
    such file or nothing in it, or raises when the file cannot be read,
    is no YAML or holds no mapping.  Importing the hooks module runs it:
    it is a parameter that leaves a world, and hooks or nothing, any
    exception being caught.  Modelled from the spec: [page.Author.parse]
    and the reading of [p.meta['published']] belong to [wok/page.py],
    which is not among the sources, and are taken to return.  The preview
    server of lines 103-108 comes after and is left out. *)
Context {World Renderer Hooks Author : Type}.
Context (load_config : World → Res World (option (gmap string ConfVal))).
Context (parse : string → Author).
Context (encode : Author → string).
Context (isdir : World → string → bool).
Context (rmtree : World → string → Res World unit).
Context (mkdir : World → string → Res World unit).
Context (listdir : World → string → Res World (list string)).
Context (copytree : World → string → string → Res World unit).
Context (copy : World → string → string → Res World unit).
Context (path_join : string → string → string).
Context (import_hooks : World → World * option Hooks).
Context (show_hooks : Hooks → string).
Context (walk : World → string → list (string * list string * list string)).
Context (extensions : Renderer → list string).
Context (all_renderers : list Renderer).
Context (Plain BaseRenderer : Renderer).
Context (new_page :
  World → string → gmap string ConfVal → Renderer → Exn + Page).
Context (published : Page → bool).
Context (now : World → nat).
Context (render : @Store World → nat → Page → Res (@Store World) (list Page)).
Context (write : @Store World → Page → Res (@Store World) unit).

(** How the action ends: [sys.exit], an exception nobody catches, the
    end of [render_site], or a render loop that is not over when the fuel
    is. *)
Inductive Outcome :=
| Exited (status : nat) (w : World) (lg : list LogRecord)
| Raised (e : Exn) (w : World) (lg : list LogRecord)
| Finished (st : @RState World)
| Unfinished.

(** [load_hooks]. *)
Definition load_hooks (w : World) (lg : list LogRecord)
  : World * list LogRecord :=
  match import_hooks w with
  | (w', Some hooks) =>
      (w', lg ++ [(INFO, ("Loaded hooks: " +:+ show_hooks hooks)%string)])
  | (w', None) => (w', lg ++ [(DEBUG, "No hooks found"%string)])
  end.

(** Lines 149-151 of [prepare_output]. *)
Definition reset_output (output_dir : string) (w : World) : Res World unit :=
  match (if isdir w output_dir then rmtree w output_dir else Ok tt w) with
  | Raise e w1 => Raise e w1
  | Ok _ w1 => mkdir w1 output_dir
  end.

(** [prepare_output] on the options: the output directory is looked at
    first, the media directory once the output directory is there. *)
Definition prepare_output_opts (opts : gmap string ConfVal) (w : World)
  : Res World unit :=
  match dir_option opts "output_dir" with
  | None => Raise OtherError w
  | Some output_dir =>
      match dir_option opts "media_dir" with
      | Some media_dir =>
          prepare_output isdir rmtree mkdir listdir copytree copy path_join
            output_dir media_dir w
      | None =>
          match reset_output output_dir w with
          | Ok _ w' => Raise OtherError w'
          | Raise e w' => Raise e w'
          end
      end
  end.

(** [load_pages] on the options, from an engine with no page. *)
Definition load_pages_opts (opts : gmap string ConfVal) (w : World)
    (lg : list LogRecord) : Res Engine unit :=
  match dir_option opts "content_dir" with
  | None => Raise OtherError (mkEngine opts [] ∅ ∅ lg)
  | Some content_dir =>
      load_pages_exn extensions all_renderers Plain BaseRenderer path_join
        (new_page w) published (walk w content_dir)
        (mkEngine opts [] ∅ ∅ lg)
  end.

Definition action (fuel : nat) (lg : list LogRecord) (w : World) : Outcome :=
  match load_config w with
  | Raise e w0 => Raised e w0 lg
  | Ok config w0 =>
      let opts := conf_of encode <$> read_options parse config in
      if sanity_check isdir w0 then
        let '(w1, lg1) := load_hooks w0 lg in
        match prepare_output_opts opts w1 with
        | Raise e w2 => Raised e w2 lg1
        | Ok _ w2 =>
            match load_pages_opts opts w2 lg1 with
            | Raise e e1 => Raised e w2 (log e1)
            | Ok _ e1 =>
                match render_site_exn now render write fuel w2
                        (make_tree e1) with
                | Some (Ok _ fin) => Finished fin
                | Some (Raise e st) => Raised e (world (r_store st)) (r_log st)
                | None => Unfinished
                end
            end
        end
      else
        Exited 1 w0
          (lg ++ [(CRITICAL,
                   "This doesn't look like a wok site. Aborting."%string)])
  end.
End action.

(** ** The paths of the forest *)

(** The invariant of the loop of [make_tree] on the paths: the forest
    holds mappings of [metas] only; a root has an empty path, and a
    subpage has the path of its parent followed by the slug of its
    parent, the parent being in the forest. *)
Definition paths_inv (metas : list Meta) (st : TreeState) : Prop :=
  (∀ m, in_forest st m → m ∈ metas) ∧
  (∀ m, m ∈ t_site_tree st → category m = []) ∧
  (∀ i m, m ∈ t_subpages st !!! i →
     ∃ n, in_forest st n ∧ mid n = i ∧ category m = category n ++ [slug n]).

(** ** An example site on an example file system *)

(** A file system as far as the engine looks at it: the directories with
    the names of their entries, and the copies made so far, each with its
    source and its destination. *)
Record Disk := mkDisk {
  d_dirs : list (string * list string);
  d_copied : list (string * string);
}.

Definition disk_isdir (d : Disk) (p : string) : bool :=
  bool_decide (p ∈ (d_dirs d).*1).

Definition disk_rmtree (d : Disk) (p : string) : Res Disk unit :=
  Ok tt (mkDisk (filter (λ entry, entry.1 ≠ p) (d_dirs d)) (d_copied d)).

Definition disk_mkdir (d : Disk) (p : string) : Res Disk unit :=
  if disk_isdir d p then Raise OSError d
  else Ok tt (mkDisk (d_dirs d ++ [(p, [])]) (d_copied d)).

Definition disk_listdir (d : Disk) (p : string) : Res Disk (list string) :=
  match list_find (λ entry, entry.1 = p) (d_dirs d) with
  | Some (_, (_, names)) => Ok names d
  | None => Raise OSError d
  end.

Definition disk_copy (d : Disk) (src dst : string) : Res Disk unit :=
  Ok tt (mkDisk (d_dirs d) (d_copied d ++ [(src, dst)])).

Definition disk_join (a b : string) : string := (a +:+ "/" +:+ b)%string.

Definition disk_walk (d : Disk) (top : string)
  : list (string * list string * list string) :=
  match list_find (λ entry, entry.1 = top) (d_dirs d) with
  | Some (_, (_, names)) => [(top, [], names)]
  | None => []
  end.

(** Renderers with their extensions. *)
Inductive Markup := Markdown | ReStructuredText | PlainText | BaseMarkup.

Definition markup_extensions (r : Markup) : list string :=
  match r with
  | Markdown => ["markdown"; "mdown"; "md"]
  | ReStructuredText => ["rst"]
  | PlainText => ["txt"]
  | BaseMarkup => []
  end%string.

Definition markups : list Markup := [Markdown; ReStructuredText; PlainText].

(** The file [config] is not there. *)
Definition disk_config (d : Disk) : Res Disk (option (gmap string ConfVal)) :=
  Ok None d.

(** Pages made of their file alone: a root page, with the path of the
    file for its slug; a file named [broken.md] cannot be read. *)
Definition disk_page (d : Disk) (file : string) (opts : gmap string ConfVal)
    (r : Markup) : Exn + Page :=
  if decide (file = "content/broken.md"%string) then inl OtherError
  else inr (mkPage file (mkMeta (String.length file) file [] [])).

Definition disk_published (p : Page) : bool :=
  bool_decide (path p ≠ "content/draft.md"%string).

Definition disk_clock (d : Disk) : nat := length (d_copied d).

(** The continuation the index page returns when it is rendered. *)
Definition disk_page2 : Page :=
  mkPage "content/index.md" (mkMeta 100 "index-2" [] [])%string.

Definition disk_render (s : @Store Disk) (lv : nat) (p : Page)
  : Res Store (list Page) :=
  Ok (if decide (slug (meta p) = "content/index.md"%string)
      then [disk_page2] else []) s.

(** Writing a page puts a file into the output directory. *)
Definition disk_write (s : @Store Disk) (p : Page) : Res Store unit :=
  Ok tt
    (mkStore
       (mkDisk (d_dirs (world s))
          (d_copied (world s) ++ [(path p, "output"%string)]))
       (s_tag_dict s) (s_categories s) (s_subpages s) (cells s)).

Definition no_hooks (d : Disk) : Disk * option unit := (d, None).

Definition show_unit (h : unit) : string := "hooks"%string.

(** A site with a hidden file, a file no renderer takes and a draft; and
    a directory that is no site. *)
Definition wok_disk : Disk :=
  mkDisk
    [("content", [".index.md.swp"; "index.md"; "notes"; "draft.md"]);
     ("media", ["logo.png"])]%string
    [].

Definition bare_disk : Disk := mkDisk [("output", [])]%string [].

(** The state of a run that came to its end, or [d]. *)
Definition final_state {World} (d : @RState World) (o : @Outcome World)
  : RState :=
  match o with
  | Finished st => st
  | _ => d
  end.

(** The state the action ends in on [wok_disk]. *)
Definition disk_final : RState :=
  final_state (mkRState (mkStore wok_disk ∅ ∅ ∅ []) [] [] [])
    (action disk_config (λ a : string, a) (λ a : string, a) disk_isdir
       disk_rmtree disk_mkdir disk_listdir disk_copy disk_copy disk_join
       no_hooks show_unit disk_walk markup_extensions markups PlainText
       BaseMarkup disk_page disk_published disk_clock disk_render disk_write
       3 [] wok_disk).


(** A write that cannot put the blog page into the output directory. *)
Definition disk_write_ro (s : @Store Disk) (p : Page) : Res Store unit :=
  if decide (path p = "content/blog.md"%string) then Raise OSError s
  else disk_write s p.

(** The state a run that raised was left in, or [d]. *)
Definition raised_state {World} (d : @RState World)
    (r : option (Res (@RState World) unit)) : RState :=
  match r with
  | Some (Raise _ st) => st
  | _ => d
  end.

(** The state the render loop is left in when the blog page cannot be
    written. *)
Definition disk_raised : RState :=
  raised_state (mkRState (mkStore wok_disk ∅ ∅ ∅ []) [] [] [])
    (render_site_exn disk_clock disk_render disk_write_ro 2 wok_disk
       (make_tree listing_site)).

(** Two roots with one slug, and a site in which every page has its
    parent. *)
Definition blog_twin : Page :=
  mkPage "content/blog2.md" (mkMeta 4 "blog" [] [])%string.

Definition twin_state : TreeState :=
  foldl tree_step (tree_init (mkEngine default_options [] ∅ ∅ []))
    [blog_page; blog_twin].

Definition nested_site : Engine :=
  mkEngine default_options [post_page; index_page; blog_page] ∅ ∅ [].

(** ** The stable sort *)

Section sort_facts.
Context {A : Type} (key : A → nat).

Lemma insert_by_perm (x : A) (l : list A) : insert_by key x l ≡ₚ x :: l.
Proof.
  induction l as [|y l IH]; simpl; [done|].
  case_decide; [done|]. rewrite IH. apply Permutation_swap.
Qed.

Lemma sort_by_perm (l : list A) : sort_by key l ≡ₚ l.
Proof.
  induction l as [|x l IH]; simpl; [done|].
  rewrite insert_by_perm. by f_equiv.
Qed.

Lemma insert_by_sorted (x : A) (l : list A) :
  StronglySorted (λ a b, key a ≤ key b) l →
  StronglySorted (λ a b, key a ≤ key b) (insert_by key x l).
Proof.
  induction 1 as [|y l Hl IH Hy]; simpl.
  - repeat constructor.
  - case_decide as Hxy.
    + constructor; [by constructor|].
      constructor; [done|].
      eapply Forall_impl; [exact Hy|]. intros z Hz. simpl in Hz. lia.
    + constructor; [done|].
      rewrite insert_by_perm. constructor; [lia|done].
Qed.

Lemma sort_by_sorted (l : list A) :
  StronglySorted (λ a b, key a ≤ key b) (sort_by key l).
Proof.
  induction l as [|x l IH]; simpl; [constructor|].
  by apply insert_by_sorted.
Qed.

(** Stability: the elements of one key are in the order they had. *)
Lemma insert_by_stable (k : nat) (x : A) (l : list A) :
  filter (λ a, key a = k) (insert_by key x l)
  = filter (λ a, key a = k) (x :: l).
Proof.
  induction l as [|y l IH]; simpl; [done|].
  case_decide as Hxy; [done|].
  rewrite (filter_cons _ y), IH, !filter_cons.
  repeat case_decide; try done; lia.
Qed.

Lemma sort_by_stable (k : nat) (l : list A) :
  filter (λ a, key a = k) (sort_by key l) = filter (λ a, key a = k) l.
Proof.
  induction l as [|x l IH]; simpl; [done|].
  rewrite insert_by_stable, !filter_cons, IH. done.
Qed.

(** In a sorted list a smaller key comes first. *)
Lemma sorted_lookup_lt (l : list A) (i j : nat) (x y : A) :
  StronglySorted (λ a b, key a ≤ key b) l →
  l !! i = Some x → l !! j = Some y → key x < key y → i < j.
Proof.
  intros Hs Hi Hj Hlt.
  destruct (decide (i < j)) as [|Hge]; [done|exfalso].
  assert (j ≤ i) as Hle by lia. clear Hge.
  revert i j Hi Hj Hle. induction Hs as [|z l Hl IH Hz]; intros i j Hi Hj Hle.
  - by rewrite lookup_nil in Hi.
  - destruct j as [|j]; simpl in Hj.
    + destruct i as [|i]; simpl in Hi; [simplify_eq; lia|].
      simplify_eq. rewrite Forall_forall in Hz.
      apply list_elem_of_lookup_2 in Hi. apply Hz in Hi. lia.
    + destruct i as [|i]; [lia|]. simpl in Hi. eapply IH; eauto with lia.
Qed.

(** Distinct keys: the result does not depend on the order of the input. *)
Lemma insert_by_comm (x y : A) (l : list A) :
  key x ≠ key y →
  insert_by key x (insert_by key y l) = insert_by key y (insert_by key x l).
Proof.
  intros Hne. induction l as [|z l IH]; simpl.
  - repeat case_decide; try done; lia.
  - repeat (case_decide; simpl); try done; try lia. by rewrite IH.
Qed.

Lemma sort_by_perm_eq (l l' : list A) :
  l ≡ₚ l' → NoDup (key <$> l) → sort_by key l = sort_by key l'.
Proof.
  induction 1 as [|x l l' Hp IH|x y l|l l' l'' Hp IH Hp' IH']; intros Hnd.
  - done.
  - simpl. rewrite IH; [done|]. by apply NoDup_cons in Hnd as [_ ?].
  - simpl. apply insert_by_comm.
    apply NoDup_cons in Hnd as [Hnd _]. rewrite elem_of_cons in Hnd.
    naive_solver.
  - rewrite IH by done. apply IH'. by rewrite <-Hp.
Qed.

Lemma sort_by_sorted_id (l : list A) :
  StronglySorted (λ a b, key a ≤ key b) l → sort_by key l = l.
Proof.
  induction 1 as [|x l Hl IH Hx]; simpl; [done|].
  rewrite IH. destruct Hx as [|y l Hy _]; simpl; [done|].
  by rewrite decide_True.
Qed.
End sort_facts.

(** ** The category listing and the forest *)

Lemma nonempty_opt_default {A} (l : list A) : default [] (nonempty_opt l) = l.
Proof. by destruct l. Qed.

Lemma nonempty_opt_snoc {A} (l : list A) (x : A) :
  nonempty_opt (l ++ [x]) = Some (l ++ [x]).
Proof. by destruct l. Qed.

Lemma nonempty_opt_Some {A} (l k : list A) :
  nonempty_opt l = Some k ↔ l ≠ [] ∧ k = l.
Proof. destruct l; simpl; naive_solver. Qed.

Lemma place_categories st p : t_categories (place st p) = t_categories st.
Proof. unfold place. by destruct (descend _ _ _) as [[|i]|]. Qed.

Lemma tree_step_categories st p :
  t_categories (tree_step st p) =
  match category (meta p) with
  | [] => t_categories st
  | top_cat :: _ =>
      <[top_cat := default [] (t_categories st !! top_cat) ++ [meta p]]>
        (t_categories st)
  end.
Proof.
  unfold tree_step. rewrite place_categories. unfold list_category.
  by destruct (category (meta p)).
Qed.

(** After the loop has gone over [l], the key [k] holds the pages of [l]
    whose path starts with [k], in the order of [l]. *)
Lemma categories_foldl st0 l k :
  t_categories st0 = ∅ →
  t_categories (foldl tree_step st0 l) !! k = nonempty_opt (cat_listing k l).
Proof.
  intros H0. induction l as [|p l IH] using rev_ind.
  - simpl. by rewrite H0.
  - rewrite foldl_app. simpl. rewrite tree_step_categories.
    unfold cat_listing. rewrite filter_app, fmap_app.
    fold (cat_listing k l). rewrite filter_cons, filter_nil.
    destruct (category (meta p)) as [|c cs] eqn:Hc; simpl.
    + by rewrite app_nil_r.
    + destruct (decide (c = k)) as [->|Hne].
      * rewrite lookup_insert_eq, IH, nonempty_opt_default.
        rewrite decide_True by done. simpl. by rewrite nonempty_opt_snoc.
      * rewrite lookup_insert_ne by done. rewrite IH.
        rewrite decide_False by congruence. simpl. by rewrite app_nil_r.
Qed.

Lemma descend_app st r pre post :
  descend st r (pre ++ post) = descend st r pre ≫= λ r', descend st r' post.
Proof.
  revert r. induction pre as [|c pre IH]; intros r; simpl; [done|].
  destruct (find_parent _ _); [apply IH|done].
Qed.

(** The lookup fails exactly when some slug of the path has no matching
    node among the siblings reached by the slugs before it. *)
Lemma descend_None st r cats :
  descend st r cats = None ↔
  ∃ pre cat post r',
    cats = pre ++ cat :: post ∧ descend st r pre = Some r' ∧
    find_parent (deref st r') cat = None.
Proof.
  split.
  - revert r. induction cats as [|c cs IH]; intros r H; simpl in H; [done|].
    destruct (find_parent (deref st r) c) as [parent|] eqn:Hf.
    + apply IH in H as (pre & cat & post & r' & -> & Hd & Hn).
      exists (c :: pre), cat, post, r'. simpl. by rewrite Hf.
    + by exists [], c, cs, r.
  - intros (pre & cat & post & r' & -> & Hd & Hn).
    rewrite descend_app, Hd. simpl. by rewrite Hn.
Qed.

Lemma descend_Roots st r cats :
  descend st r cats = Some Roots → cats = [] ∧ r = Roots.
Proof.
  revert r. induction cats as [|c cs IH]; simpl; intros r H.
  - by simplify_eq.
  - destruct (find_parent _ _); [|done]. by apply IH in H as [_ ?].
Qed.

Lemma tree_step_site_tree st p :
  t_site_tree (tree_step st p) =
  t_site_tree st ++ (if decide (category (meta p) = []) then [meta p] else []).
Proof.
  unfold tree_step, place, list_category.
  destruct (category (meta p)) as [|c cs] eqn:Hc; simpl; [done|].
  match goal with |- context [find_parent ?l ?c] =>
    destruct (find_parent l c) as [parent|] end; simpl.
  - match goal with |- context [descend ?s ?r ?l] =>
      destruct (descend s r l) as [[|i]|] eqn:Hd end; simpl.
    + by apply descend_Roots in Hd as [_ ?].
    + by rewrite app_nil_r.
    + by rewrite app_nil_r.
  - by rewrite app_nil_r.
Qed.

(** The roots are the pages with an empty path, in the order of [l]. *)
Lemma site_tree_foldl st0 l :
  t_site_tree (foldl tree_step st0 l) = t_site_tree st0 ++ root_listing l.
Proof.
  revert st0. induction l as [|p l IH]; intros st0; simpl.
  - unfold root_listing. simpl. by rewrite app_nil_r.
  - rewrite IH, tree_step_site_tree. unfold root_listing.
    rewrite filter_cons. case_decide; simpl; by rewrite <-?app_assoc.
Qed.

Lemma list_category_forest st p m :
  in_forest (list_category st p) m ↔ in_forest st m.
Proof. unfold list_category. by destruct (category (meta p)). Qed.

(** A step adds at most the metadata of its page to the forest, and only
    when the lookup of the path succeeds. *)
Lemma tree_step_forest st p m :
  in_forest (tree_step st p) m →
  in_forest st m ∨
  (m = meta p ∧
   is_Some (descend (list_category st p) Roots (category (meta p)))).
Proof.
  unfold tree_step, place.
  destruct (descend _ _ _) as [[|i]|] eqn:Hd.
  - intros [Hm|[j Hm]]; simpl in *.
    + apply elem_of_app in Hm as [Hm|Hm%list_elem_of_singleton].
      * left. apply (list_category_forest st p). by left.
      * right. eauto.
    + left. apply (list_category_forest st p). right. eauto.
  - intros [Hm|[j Hm]]; simpl in *.
    + left. apply (list_category_forest st p). by left.
    + destruct (decide (i = j)) as [->|Hne].
      * rewrite lookup_total_insert_eq in Hm.
        apply elem_of_app in Hm as [Hm|Hm%list_elem_of_singleton].
        -- left. apply (list_category_forest st p). right. eauto.
        -- right. eauto.
      * rewrite lookup_total_insert_ne in Hm by done.
        left. apply (list_category_forest st p). right. eauto.
  - intros Hm. left. apply (list_category_forest st p).
    destruct Hm as [Hm|[j Hm]]; [by left|right; eauto].
Qed.

Lemma forest_foldl st l m :
  in_forest (foldl tree_step st l) m → in_forest st m ∨ m ∈ meta <$> l.
Proof.
  revert st. induction l as [|p l IH]; intros st; simpl; [by left|].
  intros [Hm|Hm]%IH.
  - apply tree_step_forest in Hm as [Hm|[-> _]]; [by left|].
    right. apply elem_of_cons. by left.
  - right. apply elem_of_cons. by right.
Qed.

Lemma find_parent_singleton m cat :
  slug m = cat → find_parent [m] cat = Some m.
Proof.
  intros H. unfold find_parent. rewrite filter_cons_True by done. done.
Qed.


Lemma descend_ext st st' r cats :
  t_site_tree st = t_site_tree st' → t_subpages st = t_subpages st' →
  descend st r cats = descend st' r cats.
Proof.
  intros Hs Hp. revert r.
  induction cats as [|c cs IH]; intros r; simpl; [done|].
  assert (deref st r = deref st' r) as -> by (destruct r; simpl; congruence).
  destruct (find_parent _ _); [apply IH|done].
Qed.

Lemma descend_list_category st p r cats :
  descend (list_category st p) r cats = descend st r cats.
Proof.
  apply descend_ext; unfold list_category; by destruct (category (meta p)).
Qed.

(** What a step does to the forest and to the log, by the outcome of the
    lookup of the path. *)
Lemma tree_step_placed st p r :
  descend st Roots (category (meta p)) = Some r →
  t_site_tree (tree_step st p)
  = t_site_tree st ++ (if r is Roots then [meta p] else []) ∧
  t_subpages (tree_step st p)
  = (if r is SubpagesOf i
     then <[i := (t_subpages st !!! i) ++ [meta p]]> (t_subpages st)
     else t_subpages st) ∧
  t_log (tree_step st p) = t_log st.
Proof.
  intros Hd. unfold tree_step, place. rewrite descend_list_category, Hd.
  unfold list_category.
  destruct r, (category (meta p)); simpl; by rewrite ?app_nil_r.
Qed.

Lemma tree_step_orphan st p :
  descend st Roots (category (meta p)) = None →
  t_site_tree (tree_step st p) = t_site_tree st ∧
  t_subpages (tree_step st p) = t_subpages st ∧
  t_log (tree_step st p) = t_log st ++ [(ERROR, orphan_message (path p))].
Proof.
  intros Hd. unfold tree_step, place. rewrite descend_list_category, Hd.
  unfold list_category. by destruct (category (meta p)).
Qed.

Lemma log_foldl st l :
  ∃ more, t_log (foldl tree_step st l) = t_log st ++ more.
Proof.
  revert st. induction l as [|p l IH]; intros st; simpl.
  - exists []. by rewrite app_nil_r.
  - destruct (IH (tree_step st p)) as [more ->].
    destruct (descend st Roots (category (meta p))) as [r|] eqn:Hd.
    + destruct (tree_step_placed st p r Hd) as (_ & _ & ->). eauto.
    + destruct (tree_step_orphan st p Hd) as (_ & _ & ->).
      rewrite <-app_assoc. eauto.
Qed.

(** ** The template context *)

Lemma merge_dict_lookup opts d k :
  merge_dict opts d !! k =
  match opts !! k with
  | Some v => if decide (k ∈ reserved) then d !! k else Some (VConf v)
  | None => d !! k
  end.
Proof.
  unfold merge_dict.
  apply (map_fold_weak_ind (λ r m, r !! k =
    match m !! k with
    | Some v => if decide (k ∈ reserved) then d !! k else Some (VConf v)
    | None => d !! k
    end)).
  - by rewrite lookup_empty.
  - intros i x m r Hi IH. destruct (decide (i = k)) as [->|Hne].
    + rewrite lookup_insert_eq. case_decide.
      * by rewrite IH, Hi.
      * by rewrite lookup_insert_eq.
    + rewrite (lookup_insert_ne m) by done.
      destruct (decide (i ∈ reserved)); [done|]. by rewrite lookup_insert_ne.
Qed.

Lemma site_value_lookup opts t ix cats pages k :
  site_value opts t ix cats pages !! k =
  match opts !! k with
  | Some v =>
      if decide (k ∈ reserved) then site_base opts t ix cats pages !! k
      else Some (SConf v)
  | None => site_base opts t ix cats pages !! k
  end.
Proof.
  unfold site_value. rewrite lookup_union, lookup_fmap, map_lookup_filter.
  destruct (opts !! k) as [v|]; simpl.
  - case_decide.
    + rewrite option_guard_False by naive_solver. simpl.
      by destruct (site_base _ _ _ _ _ !! k).
    + rewrite option_guard_True by done. simpl.
      by destruct (site_base _ _ _ _ _ !! k).
  - by destruct (site_base _ _ _ _ _ !! k).
Qed.

Lemma author_not_reserved : "author"%string ∉ reserved.
Proof. unfold reserved. set_solver. Qed.

Lemma bind_author_redundant opts d :
  match opts !! "author"%string with
  | Some a => <["author"%string := VConf a]> (merge_dict opts d)
  | None => merge_dict opts d
  end = merge_dict opts d.
Proof.
  destruct (opts !! "author"%string) as [a|] eqn:Ha; [|done].
  apply insert_id. rewrite merge_dict_lookup, Ha.
  by rewrite decide_False by apply author_not_reserved.
Qed.

Section render_facts.
Context {World : Type} (now : World → nat).
Context (render : @Store World → nat → Page → @Store World * list Page).
Context (write : @Store World → Page → @Store World).

Lemma set_cells_set_cells (s : @Store World) c c' :
  set_cells (set_cells s c) c' = set_cells s c'.
Proof. done. Qed.

(** The literal, with its references followed, is [site_base]. *)
Lemma site_literal_view opts t lp ix cats pages (s : @Store World) k :
  s_tag_dict s = ix → s_categories s = cats →
  cells s !! lp = Some (OPages pages) →
  resolve s <$> (site_literal opts t lp !! k)
  = site_base opts t ix cats pages !! k.
Proof.
  intros Hix Hcats Hlp. unfold site_literal, site_base. simpl.
  rewrite !(lookup_insert _ _ k).
  repeat (destruct (decide (_ = k)) as [<-|?]; simpl;
          [by rewrite ?Hix, ?Hcats, ?Hlp|]).
  by rewrite !lookup_empty.
Qed.

Lemma merge_options_cells opts ls (s : @Store World) d :
  cells s !! ls = Some (ODict d) →
  merge_options opts ls s
  = set_cells s (<[ls := ODict (merge_dict opts d)]> (cells s)).
Proof.
  intros Hls. unfold merge_options, merge_dict. rewrite !map_fold_foldr.
  induction (map_to_list opts) as [|[k v] l IH]; simpl.
  - rewrite list_insert_id by done. by destruct s.
  - rewrite IH. case_decide; [done|].
    unfold dict_set. simpl.
    rewrite list_lookup_insert_eq by (by eapply lookup_lt_Some).
    unfold set_cells. simpl. by rewrite list_insert_insert_eq.
Qed.

Lemma bind_author_cells opts ls (s : @Store World) d :
  cells s !! ls = Some (ODict d) →
  bind_author opts ls s
  = set_cells s (<[ls :=
      ODict (match opts !! "author"%string with
             | Some a => <["author"%string := VConf a]> d
             | None => d
             end)]> (cells s)).
Proof.
  intros Hls. unfold bind_author, dict_set. rewrite Hls.
  destruct (opts !! "author"%string); [done|].
  rewrite list_insert_id by done. by destruct s.
Qed.

(** The context of a page is three new cells after the cells there
    were: the copy of the pages, the site section and the context
    mapping; no cell that was there is written. *)
Lemma make_templ_vars_cells opts pages (s : @Store World) :
  make_templ_vars now opts pages s =
  (length (cells s) + 2,
   set_cells s
     (cells s ++
      [OPages pages;
       ODict (merge_dict opts
                (site_literal opts (now (world s)) (length (cells s))));
       ODict {["site"%string := VRef (RCell (length (cells s) + 1))]}])).
Proof.
  unfold make_templ_vars, alloc. simpl.
  rewrite !length_app. simpl.
  replace (length (cells s) + 1) with (S (length (cells s))) by lia.
  replace (length (cells s) + 2) with (S (S (length (cells s)))) by lia.
  replace (S (length (cells s)) + 1) with (S (S (length (cells s)))) by lia.
  set (lp := length (cells s)).
  set (lit := site_literal opts (now (world s)) lp).
  rewrite !set_cells_set_cells, <-!app_assoc. simpl.
  assert ((cells s ++ [OPages pages; ODict lit;
             ODict {["site"%string := VRef (RCell (S lp))]}]) !! S lp
          = Some (ODict lit)) as Hls.
  { rewrite lookup_app_r by (unfold lp; lia).
    by replace (S lp - length (cells s)) with 1 by (unfold lp; lia). }
  rewrite (merge_options_cells opts (S lp) _ lit) by done.
  simpl.
  erewrite bind_author_cells; last first.
  { simpl. apply list_lookup_insert_eq. by eapply lookup_lt_Some. }
  simpl. rewrite set_cells_set_cells, list_insert_insert_eq.
  rewrite bind_author_redundant. f_equal. f_equal.
  rewrite insert_app_r_alt by (unfold lp; lia).
  by replace (S lp - length (cells s)) with 1 by (unfold lp; lia).
Qed.

(** The context of a page shows the site section [site_value], made of
    the clock, the tag index, the category listing, the configuration and
    the pages of the flat collection; the construction changes nothing
    but the cells. *)
Lemma make_templ_vars_view opts pages (s : @Store World) :
  site_view (make_templ_vars now opts pages s).2
    (make_templ_vars now opts pages s).1
  = Some (site_value opts (now (world s)) (s_tag_dict s) (s_categories s)
            pages) ∧
  ∃ c, (make_templ_vars now opts pages s).2 = set_cells s c.
Proof.
  rewrite make_templ_vars_cells. simpl. split; [|eauto].
  set (lp := length (cells s)).
  unfold site_view. simpl.
  rewrite lookup_app_r by (unfold lp; lia).
  replace (lp + 2 - length (cells s)) with 2 by (unfold lp; lia). simpl.
  rewrite lookup_singleton_eq.
  rewrite lookup_app_r by (unfold lp; lia).
  replace (lp + 1 - length (cells s)) with 1 by (unfold lp; lia). simpl.
  f_equal. apply map_eq. intros k.
  rewrite lookup_fmap, site_value_lookup, merge_dict_lookup.
  destruct (opts !! k) as [v|]; [case_decide; [|done]|];
    apply site_literal_view; try done; simpl;
    by rewrite list_lookup_middle.
Qed.

(** ** The render loop *)

Lemma render_step_eq opts (st : @RState World) p :
  let ms := make_templ_vars now opts (r_pages st) (r_store st) in
  let rr := render ms.2 ms.1 p in
  r_store (render_step now render write opts st p) = write rr.1 p ∧
  r_pages (render_step now render write opts st p) = r_pages st ++ rr.2 ∧
  r_calls (render_step now render write opts st p)
  = r_calls st ++ [CallRender p ms.1 ms.2 rr.2; CallWrite p].
Proof.
  unfold render_step.
  destruct (make_templ_vars _ _ _ _) as [lv s1]. simpl.
  destruct (render s1 lv p) as [s2 [|q new]]; simpl; by rewrite ?app_nil_r.
Qed.

(** A property of the iterator position and the state that every
    iteration keeps holds when the loop is over. *)
Lemma render_loop_ind opts (P : nat → @RState World → Prop) :
  (∀ i st p, P i st → r_pages st !! i = Some p →
     P (S i) (render_step now render write opts st p)) →
  ∀ fuel i st fin,
    P i st → render_loop now render write fuel opts i st = Some fin →
    ∃ j, P j fin ∧ r_pages fin !! j = None.
Proof.
  intros Hstep fuel.
  induction fuel as [|fuel IH]; intros i st fin HP Hrun; simpl in Hrun.
  - destruct (r_pages st !! i) eqn:Hi; [done|]. simplify_eq. eauto.
  - destruct (r_pages st !! i) as [p|] eqn:Hi.
    + eapply IH; [|done]. by apply Hstep.
    + simplify_eq. eauto.
Qed.

Lemma run_inv_step opts init i (st : @RState World) p :
  run_inv now render opts init i st → r_pages st !! i = Some p →
  run_inv now render opts init (S i) (render_step now render write opts st p).
Proof.
  intros (Hlen & Hi & Hpages & Hitems) Hp.
  destruct (render_step_eq opts st p) as (Hs' & Hp' & Hc').
  destruct (make_templ_vars_view opts (r_pages st) (r_store st))
    as (Hview & c & Hms).
  set (ms := make_templ_vars now opts (r_pages st) (r_store st)) in *.
  set (rr := render ms.2 ms.1 p) in *.
  apply lookup_lt_Some in Hp as Hlt.
  split_and!.
  - rewrite Hc', length_app. simpl. lia.
  - rewrite Hp', length_app. lia.
  - rewrite Hp', Hc', bind_app, Hpages, <-app_assoc. simpl.
    by rewrite app_nil_r.
  - intros j Hj. destruct (decide (j = i)) as [->|Hne].
    + exists p, ms.1, ms.2. split_and!.
      * rewrite Hp'. by rewrite lookup_app_l.
      * rewrite Hc'. by rewrite lookup_app_r, Hlen, Nat.sub_diag by lia.
      * rewrite Hc'. rewrite lookup_app_r by lia.
        by replace (2 * i + 1 - length (r_calls st)) with 1 by lia.
      * rewrite Hview, Hms, Hc'. simpl.
        by rewrite take_app_length', <-Hpages by done.
    + destruct (Hitems j) as (q & lv & s & Hq & Hr & Hw & Hv); [lia|].
      exists q, lv, s. split_and!.
      * rewrite Hp'. rewrite lookup_app_l; [done|by eapply lookup_lt_Some].
      * rewrite Hc'. by rewrite lookup_app_l by lia.
      * rewrite Hc'. by rewrite lookup_app_l by lia.
      * rewrite Hc'. by rewrite take_app_le by lia.
Qed.

Lemma run_inv_init opts init (s : @Store World) lg :
  run_inv now render opts init 0 (mkRState s init [] lg).
Proof.
  split_and!; simpl; [done|lia|by rewrite app_nil_r|intros; lia].
Qed.

(** When the loop is over every entry of the worklist has been through
    it. *)
Lemma render_loop_inv opts fuel (s : @Store World) init lg fin :
  render_loop now render write fuel opts 0 (mkRState s init [] lg) = Some fin →
  run_inv now render opts init (length (r_pages fin)) fin.
Proof.
  intros Hrun.
  destruct (render_loop_ind opts (run_inv now render opts init)
    (run_inv_step opts init) fuel 0 _ fin (run_inv_init opts init s lg) Hrun)
    as (j & Hinv & Hj).
  apply lookup_ge_None in Hj.
  destruct Hinv as (? & ? & ? & ?).
  by replace (length (r_pages fin)) with j by lia.
Qed.

(** A property of the store that the render and write steps keep holds
    of the store every render step is given. *)
Lemma render_loop_store opts (Q : @Store World → Prop) fuel i st fin :
  (∀ s c, Q s → Q (set_cells s c)) →
  (∀ s lv p, Q s → Q (render s lv p).1) →
  (∀ s p, Q s → Q (write s p)) →
  Q (r_store st) →
  (∀ n p lv s new, r_calls st !! n = Some (CallRender p lv s new) → Q s) →
  render_loop now render write fuel opts i st = Some fin →
  Q (r_store fin) ∧
  ∀ n p lv s new, r_calls fin !! n = Some (CallRender p lv s new) → Q s.
Proof.
  intros Hcells Hrender Hwrite HQ Hcalls Hrun.
  destruct (render_loop_ind opts (λ _ st, Q (r_store st) ∧
    ∀ n p lv s new, r_calls st !! n = Some (CallRender p lv s new) → Q s))
    with (fuel := fuel) (i := i) (st := st) (fin := fin)
    as (j & Hfin & _); [|done|done|done].
  clear HQ Hcalls Hrun i st. intros i st p [HQ Hcalls] _.
  destruct (render_step_eq opts st p) as (-> & _ & ->).
  destruct (make_templ_vars_view opts (r_pages st) (r_store st))
    as (_ & c & Hms).
  assert (Q (make_templ_vars now opts (r_pages st) (r_store st)).2) as HQ'.
  { rewrite Hms. by apply Hcells. }
  split; [by apply Hwrite, Hrender|].
  intros n q lv s new [Hn|[_ Hn]]%lookup_app_Some; [by eapply Hcalls|].
  destruct (n - length (r_calls st)) as [|[|?]]; simpl in Hn; by simplify_eq.
Qed.
End render_facts.

(** ** Worklists that come to an end *)

Section expands_facts.
Context {A : Type} (R : A → A → Prop).

Lemma Acc_expands_perm (l1 l2 : list A) :
  l1 ≡ₚ l2 → Acc (expands R) l1 → Acc (expands R) l2.
Proof.
  intros Hp [H]. constructor. intros l' (x & r & cs & Hl & Hl' & Hcs).
  apply H. exists x, r, cs. by rewrite Hp.
Qed.

(** Expanding [a :: l] replaces [a], or an entry of [l]. *)
Lemma expands_cons_inv (l' l : list A) (a : A) :
  expands R l' (a :: l) →
  (∃ cs, l' ≡ₚ l ++ cs ∧ Forall (λ c, R c a) cs) ∨
  (∃ l0, l' ≡ₚ a :: l0 ∧ expands R l0 l).
Proof.
  intros (x & r & cs & Hl & Hl' & Hcs).
  apply Permutation_cons_inv_l in Hl as (k1 & k2 & Heq & Hperm).
  destruct k1 as [|y k1]; simpl in Heq; simplify_eq.
  - left. exists cs. by rewrite Hl', Hperm.
  - right. exists (k1 ++ k2 ++ cs). split.
    + rewrite Hl', <-app_assoc. simpl. by rewrite <-Permutation_middle.
    + exists y, (k1 ++ k2), cs. by rewrite app_assoc.
Qed.

Lemma Acc_expands_nil : Acc (expands R) [].
Proof.
  constructor. intros l' (x & r & cs & Hp & _).
  by apply Permutation_nil_cons in Hp.
Qed.

Lemma Acc_expands_cons (a : A) (l : list A) :
  Acc R a → Acc (expands R) l → Acc (expands R) (a :: l).
Proof.
  intros Ha. revert l. induction Ha as [a _ IHa].
  intros l Hl. induction Hl as [l Hl IHl].
  constructor. intros l' [(cs & Hp & Hcs)|(l0 & Hp & Hex)]%expands_cons_inv.
  - apply (Acc_expands_perm (l ++ cs)); [done|].
    clear Hp. induction Hcs as [|c cs Hc Hcs IH].
    + rewrite app_nil_r. by constructor.
    + apply (Acc_expands_perm (c :: l ++ cs)); [apply Permutation_middle|].
      by apply IHa.
  - apply (Acc_expands_perm (a :: l0)); [done|]. by apply IHl.
Qed.

(** A worklist of entries with finite spawn chains has only finitely many
    expansions in a row. *)
Lemma Forall_Acc_expands (l : list A) : Forall (Acc R) l → Acc (expands R) l.
Proof.
  induction 1; [apply Acc_expands_nil|by apply Acc_expands_cons].
Qed.
End expands_facts.

Section termination.
Context {World : Type} (now : World → nat).
Context (render : @Store World → nat → Page → @Store World * list Page).
Context (write : @Store World → Page → @Store World).

Lemma render_loop_terminates opts i (st : @RState World) :
  Forall (Acc (flip (spawns render))) (drop i (r_pages st)) →
  ∃ fuel fin, render_loop now render write fuel opts i st = Some fin.
Proof.
  intros H%Forall_Acc_expands.
  remember (drop i (r_pages st)) as q eqn:Hq.
  revert i st Hq. induction H as [q _ IH]. intros i st ->.
  destruct (r_pages st !! i) as [p|] eqn:Hp.
  - destruct (render_step_eq now render write opts st p) as (_ & Hp' & _).
    destruct (IH (drop (S i) (r_pages (render_step now render write opts st p))))
      with (i := S i) (st := render_step now render write opts st p)
      as (fuel & fin & Hrun); [|done|].
    + eexists p, (drop (S i) (r_pages st)), _. split_and!.
      * by rewrite <-drop_S.
      * rewrite Hp'. rewrite drop_app_le; [done|].
        apply lookup_lt_Some in Hp. lia.
      * apply Forall_forall. intros c Hc. by eexists _, _.
    + exists (S fuel), fin. simpl. by rewrite Hp.
  - exists 0, st. destruct st. simpl in *. by rewrite Hp.
Qed.
End termination.

(** ** The tag index *)

Lemma gather_tag_set_spec pages t :
  t ∈ gather_tag_set pages ↔ ∃ p, p ∈ pages ∧ t ∈ tags (meta p).
Proof.
  unfold gather_tag_set.
  cut (∀ acc : gset string,
    t ∈ foldl (λ tag_set p, tag_set ∪ list_to_set (tags (meta p))) acc pages
    ↔ t ∈ acc ∨ ∃ p, p ∈ pages ∧ t ∈ tags (meta p)).
  { intros H. rewrite H. set_solver. }
  induction pages as [|p pages IH]; intros acc; simpl.
  - set_solver.
  - rewrite IH, elem_of_union, elem_of_list_to_set. set_solver.
Qed.

Lemma gather_tags_lookup pages t :
  gather_tags pages !! t =
  if decide (t ∈ gather_tag_set pages) then Some (tag_listing t pages)
  else None.
Proof.
  unfold gather_tags. generalize (gather_tag_set pages). intros X. revert t.
  pose (P := λ (r : gmap string (list Meta)) (X : gset string), ∀ t,
    r !! t = if decide (t ∈ X) then Some (tag_listing t pages) else None).
  apply (set_fold_ind_L P); unfold P; clear P X.
  - intros t. rewrite lookup_empty. by rewrite decide_False by set_solver.
  - intros x X r Hx IH t. destruct (decide (x = t)) as [->|Hne].
    + rewrite lookup_insert_eq. by rewrite decide_True by set_solver.
    + rewrite lookup_insert_ne, IH by done.
      destruct (decide (t ∈ X)).
      * by rewrite decide_True by set_solver.
      * by rewrite decide_False by set_solver.
Qed.

(** ** Entries of the site section *)

Lemma site_base_pages opts t ix cats pages :
  site_base opts t ix cats pages !! "pages"%string = Some (SPages pages).
Proof. reflexivity. Qed.

Lemma site_base_tags opts t ix cats pages :
  site_base opts t ix cats pages !! "tags"%string = Some (SIndex ix).
Proof. reflexivity. Qed.

Lemma site_base_categories opts t ix cats pages :
  site_base opts t ix cats pages !! "categories"%string = Some (SIndex cats).
Proof. reflexivity. Qed.

(** How the pages entry of a site section reads. *)
Lemma site_value_pages opts t ix cats pages :
  (∀ l, site_value opts t ix cats pages !! "pages"%string = Some (SPages l) →
     l = pages) ∧
  (opts !! "pages"%string = None →
   site_value opts t ix cats pages !! "pages"%string = Some (SPages pages)).
Proof.
  rewrite site_value_lookup, site_base_pages.
  destruct (opts !! "pages"%string) as [v|]; [|by split; intros; simplify_eq].
  split; [|done]. case_decide as Hr; [|done].
  unfold reserved in Hr. set_solver.
Qed.

Lemma site_value_tags opts t ix cats pages :
  (∀ ix', site_value opts t ix cats pages !! "tags"%string = Some (SIndex ix') →
     ix' = ix) ∧
  (opts !! "tags"%string = None →
   site_value opts t ix cats pages !! "tags"%string = Some (SIndex ix)).
Proof.
  rewrite site_value_lookup, site_base_tags.
  destruct (opts !! "tags"%string) as [v|]; [|by split; intros; simplify_eq].
  split; [|done]. case_decide as Hr; [|done].
  unfold reserved in Hr. set_solver.
Qed.

(** ** The run *)

Section calls_facts.
Context {World : Type} (now : World → nat).
Context (render : @Store World → nat → Page → @Store World * list Page).
Context (write : @Store World → Page → @Store World).

(** The render calls and the write calls are those of the entries the
    iterator has passed, in worklist order. *)
Lemma render_loop_calls opts fuel (s : @Store World) init lg fin :
  render_loop now render write fuel opts 0 (mkRState s init [] lg) = Some fin →
  r_calls fin ≫= rendered = r_pages fin ∧
  r_calls fin ≫= written = r_pages fin.
Proof.
  intros Hrun.
  destruct (render_loop_ind now render write opts (λ i st,
    i ≤ length (r_pages st) ∧
    r_calls st ≫= rendered = take i (r_pages st) ∧
    r_calls st ≫= written = take i (r_pages st)))
    with (fuel := fuel) (i := 0) (st := mkRState s init [] lg) (fin := fin)
    as (j & (Hj & Hr & Hw) & Hnone); [| |done|].
  - intros i st p (Hi & Hr & Hw) Hp.
    destruct (render_step_eq now render write opts st p) as (_ & -> & ->).
    apply lookup_lt_Some in Hp as Hlt.
    rewrite !bind_app, Hr, Hw, take_app_le by lia. simpl.
    rewrite length_app. split; [lia|]. by rewrite (take_S_r _ _ p).
  - simpl. split; [lia|]. by rewrite take_0.
  - apply lookup_ge_None in Hnone. by rewrite Hr, Hw, take_ge by lia.
Qed.

Lemma run_calls_app (s0 : @Store World) calls calls' :
  run_calls render write s0 (calls ++ calls')
  = run_calls render write (run_calls render write s0 calls) calls'.
Proof. unfold run_calls. by rewrite foldl_app. Qed.

(** The store of the run is the store the calls have left: every
    context is built in the store the write call before it left, over
    the worklist as it stands, and the render call is made in the store
    the construction of the context leaves. *)
Lemma render_loop_effects opts fuel (s0 : @Store World) init lg fin :
  render_loop now render write fuel opts 0 (mkRState s0 init [] lg) = Some fin →
  r_store fin = run_calls render write s0 (r_calls fin) ∧
  ∀ j p lv s new,
    r_calls fin !! (2 * j) = Some (CallRender p lv s new) →
    make_templ_vars now opts
      (init ++ (take (2 * j) (r_calls fin) ≫= spawned))
      (run_calls render write s0 (take (2 * j) (r_calls fin)))
    = (lv, s).
Proof.
  intros Hrun.
  destruct (render_loop_ind now render write opts (λ i st,
    length (r_calls st) = 2 * i ∧
    r_pages st = init ++ (r_calls st ≫= spawned) ∧
    r_store st = run_calls render write s0 (r_calls st) ∧
    ∀ j p lv s new,
      r_calls st !! (2 * j) = Some (CallRender p lv s new) →
      make_templ_vars now opts
        (init ++ (take (2 * j) (r_calls st) ≫= spawned))
        (run_calls render write s0 (take (2 * j) (r_calls st)))
      = (lv, s)))
    with (fuel := fuel) (i := 0) (st := mkRState s0 init [] lg) (fin := fin)
    as (n & (_ & _ & Hstore & Hcalls) & _); [| |done|done].
  - intros i st p (Hlen & Hpages & Hstore & Hcalls) Hp.
    destruct (render_step_eq now render write opts st p) as (Hs & Hps & Hcs).
    rewrite Hs, Hps, Hcs. clear Hs Hps Hcs.
    remember (make_templ_vars now opts (r_pages st) (r_store st)) as ms
      eqn:Hms.
    remember (render ms.2 ms.1 p) as rr eqn:Hrr.
    assert ([CallRender p ms.1 ms.2 rr.2; CallWrite p] ≫= spawned = rr.2)
      as Hnew by apply app_nil_r.
    rewrite length_app, bind_app, Hnew.
    change (length [CallRender p ms.1 ms.2 rr.2; CallWrite p]) with 2.
    split_and!.
    + lia.
    + by rewrite Hpages, <-app_assoc.
    + rewrite run_calls_app, <-Hstore. by rewrite Hrr.
    + intros j q lv s new Hj.
      destruct (decide (j < i)) as [Hlt|Hge].
      * rewrite lookup_app_l in Hj by lia.
        rewrite take_app_le by lia. by apply (Hcalls j q lv s new).
      * rewrite lookup_app_r in Hj by lia.
        remember (2 * j - length (r_calls st)) as k eqn:Hk.
        destruct k as [|[|k]]; cbv [lookup list_lookup] in Hj;
          [|exfalso; lia|discriminate Hj].
        injection Hj as <- <- <- <-.
        replace (2 * j) with (length (r_calls st)) by lia.
        rewrite take_app_length, <-Hstore, <-Hpages, <-Hms.
        by destruct ms.
  - simpl. split_and!; try done. by rewrite app_nil_r.
Qed.

(** C1: when spawn chains are finite the run comes to an end; and when
    a run is over, every entry of the worklist has exactly one render call
    and one write call, in worklist order, and the worklist is the initial
    collection followed by every page a render call returned, each of which
    has therefore been through the loop as well.  The calls are those that
    made the store of the run: the store the run ends in is the store
    these render and write calls leave, made one after the other from the
    store the loop started in, and every render call was made in the
    store the construction of its context left, started in the store the
    write call before it left. *)
Theorem worklist_exhaustive (w : World) (e : Engine) :
  (Forall (Acc (flip (spawns render))) (all_pages e) →
   ∃ fuel fin, render_site now render write fuel w e = Some fin) ∧
  (∀ fuel fin,
     render_site now render write fuel w e = Some fin →
     length (r_calls fin) = 2 * length (r_pages fin) ∧
     (∀ j p, r_pages fin !! j = Some p →
        ∃ lv s,
          r_calls fin !! (2 * j)
          = Some (CallRender p lv s (render s lv p).2) ∧
          r_calls fin !! (2 * j + 1) = Some (CallWrite p)) ∧
     r_calls fin ≫= rendered = r_pages fin ∧
     r_calls fin ≫= written = r_pages fin ∧
     r_pages fin = all_pages e ++ (r_calls fin ≫= spawned) ∧
     (∀ n p lv s new q,
        r_calls fin !! n = Some (CallRender p lv s new) → q ∈ new →
        q ∈ r_pages fin) ∧
     r_store fin
     = run_calls render write (r_store (render_init w e)) (r_calls fin) ∧
     (∀ j p lv s new,
        r_calls fin !! (2 * j) = Some (CallRender p lv s new) →
        make_templ_vars now (options e)
          (all_pages e ++ (take (2 * j) (r_calls fin) ≫= spawned))
          (run_calls render write (r_store (render_init w e))
             (take (2 * j) (r_calls fin)))
        = (lv, s))).
Proof.
  split.
  { intros Hfin.
    by apply (render_loop_terminates now render write (options e) 0
                (render_init w e)). }
  intros fuel fin Hrun.
  destruct (render_loop_inv now render write _ _ _ _ _ _ Hrun)
    as (Hlen & _ & Hpages & Hitems).
  destruct (render_loop_calls _ _ _ _ _ _ Hrun) as [Hr Hw].
  destruct (render_loop_effects _ _ _ _ _ _ Hrun) as [Hstore Hctx].
  split_and!; [done| |done|done|done| |exact Hstore|exact Hctx].
  - intros j p Hp.
    destruct (Hitems j) as (p' & lv & s & Hp' & ? & ? & _).
    { by eapply lookup_lt_Some. }
    simplify_eq. eauto.
  - intros n p lv s new q Hn Hq. rewrite Hpages.
    apply elem_of_app. right. apply list_elem_of_bind.
    exists (CallRender p lv s new). split; [done|].
    by eapply list_elem_of_lookup_2.
Qed.

(** C4: the pages sequence of the context of the entry at position [i]
    is the collection as it stands when the entry is reached: the pages
    loaded and the pages returned by the render calls before it; the
    pages returned from call [2 * i] on come after them in the
    worklist. *)
Theorem context_pages_snapshot fuel (w : World) (e : Engine) fin i p lv s new :
  render_site now render write fuel w e = Some fin →
  r_calls fin !! (2 * i) = Some (CallRender p lv s new) →
  r_pages fin !! i = Some p ∧
  (∃ view,
     site_view s lv = Some view ∧
     (∀ l, view !! "pages"%string = Some (SPages l) →
        l = all_pages e ++ (take (2 * i) (r_calls fin) ≫= spawned)) ∧
     (options e !! "pages"%string = None →
      view !! "pages"%string
      = Some (SPages (all_pages e ++ (take (2 * i) (r_calls fin) ≫= spawned))))) ∧
  r_pages fin =
  (all_pages e ++ (take (2 * i) (r_calls fin) ≫= spawned))
  ++ (drop (2 * i) (r_calls fin) ≫= spawned).
Proof.
  intros Hrun Hcall.
  destruct (render_loop_inv now render write _ _ _ _ _ _ Hrun)
    as (Hlen & _ & Hpages & Hitems).
  apply lookup_lt_Some in Hcall as Hlt.
  destruct (Hitems i) as (p' & lv' & s' & Hp' & Hc' & _ & Hview); [lia|].
  rewrite Hcall in Hc'. simplify_eq. split_and!; [done| |].
  - eexists. split; [exact Hview|]. apply site_value_pages.
  - by rewrite <-app_assoc, <-bind_app, take_drop.
Qed.

(** C8: the tag index is built once, before the loop; as long as the
    render and write steps of the pages do not write to it themselves, the
    index a context shows is the one built from the collection the loop
    started with, and every entry of it is the metadata of one of those
    pages. *)
Theorem tag_index_fixed fuel (w : World) (e : Engine) fin i p lv s new :
  (∀ s lv p, s_tag_dict (render s lv p).1 = s_tag_dict s) →
  (∀ s p, s_tag_dict (write s p) = s_tag_dict s) →
  render_site now render write fuel w e = Some fin →
  r_calls fin !! (2 * i) = Some (CallRender p lv s new) →
  s_tag_dict s = gather_tags (all_pages e) ∧
  s_tag_dict (r_store fin) = gather_tags (all_pages e) ∧
  (∃ view,
     site_view s lv = Some view ∧
     (∀ ix, view !! "tags"%string = Some (SIndex ix) →
        ix = gather_tags (all_pages e)) ∧
     (options e !! "tags"%string = None →
      view !! "tags"%string = Some (SIndex (gather_tags (all_pages e))))) ∧
  (∀ t ms m,
     gather_tags (all_pages e) !! t = Some ms → m ∈ ms →
     ∃ q, q ∈ all_pages e ∧ m = meta q ∧ t ∈ tags m).
Proof.
  intros Hrender Hwrite Hrun Hcall.
  destruct (render_loop_store now render write (options e)
    (λ s, s_tag_dict s = gather_tags (all_pages e)) fuel 0
    (render_init w e) fin) as [Hfin Hcalls].
  { by intros ?? <-. }
  { intros ??? <-. apply Hrender. }
  { intros ?? <-. apply Hwrite. }
  { done. }
  { intros n ???? Hn. simpl in Hn. by rewrite lookup_nil in Hn. }
  { done. }
  destruct (render_loop_inv now render write _ _ _ _ _ _ Hrun)
    as (Hlen & _ & Hpages & Hitems).
  apply lookup_lt_Some in Hcall as Hlt.
  destruct (Hitems i) as (p' & lv' & s' & Hp' & Hc' & _ & Hview); [lia|].
  rewrite Hcall in Hc'. simplify_eq.
  assert (s_tag_dict s' = gather_tags (all_pages e)) as Hs by eauto.
  split_and!; try done.
  - eexists. split; [exact Hview|]. rewrite Hs. apply site_value_tags.
  - intros t ms m Ht Hm. rewrite gather_tags_lookup in Ht.
    case_decide; [|done]. simplify_eq. unfold tag_listing in Hm.
    apply list_elem_of_fmap in Hm as (q & -> & [? ?]%list_elem_of_filter).
    eauto.
Qed.
End calls_facts.

(** ** The configuration in the context *)

(** C2, at the default configuration: the key [template_dir] of the
    configuration is not in the tuple of skipped keys, which has
    [templates_dir] in its place, and the template directory is merged
    into the site section of every context. *)
Theorem template_dir_merged {World} (now : World → nat) (pages : list Page)
    (s : @Store World) :
  default_options !! "template_dir"%string = Some (CStr "templates") ∧
  ("template_dir"%string ∉ reserved) ∧
  ∃ view,
    site_view (make_templ_vars now default_options pages s).2
      (make_templ_vars now default_options pages s).1 = Some view ∧
    view !! "template_dir"%string = Some (SConf (CStr "templates")).
Proof.
  split; [reflexivity|]. split; [unfold reserved; set_solver|].
  destruct (make_templ_vars_view now default_options pages s) as [-> _].
  eexists. split; [done|]. rewrite site_value_lookup.
  reflexivity.
Qed.

(** The merge of the configuration, for the tuple the code has: a key
    that is not in it is in the site section with its value, a key that
    is in it comes from the literal alone. *)
Lemma site_merges_config {World} (now : World → nat) opts pages
    (s : @Store World) :
  ∃ view,
    site_view (make_templ_vars now opts pages s).2
      (make_templ_vars now opts pages s).1 = Some view ∧
    (∀ k v, opts !! k = Some v → k ∉ reserved → view !! k = Some (SConf v)) ∧
    (∀ k, k ∈ reserved → view !! k = None).
Proof.
  destruct (make_templ_vars_view now opts pages s) as [-> _].
  eexists. split; [done|]. split.
  - intros k v Hk Hr. by rewrite site_value_lookup, Hk, decide_False.
  - intros k Hk. rewrite site_value_lookup.
    assert (site_base opts (now (world s)) (s_tag_dict s) (s_categories s)
              pages !! k = None) as ->.
    { unfold reserved in Hk.
      repeat (apply elem_of_cons in Hk as [->|Hk]; [reflexivity|]).
      by apply elem_of_nil in Hk. }
    destruct (opts !! k); [by rewrite decide_True|done].
Qed.

(** C3, as stated, fails: the render step of the first page adds a key to
    the tag index it reaches through its context, and the context of the
    second page shows the key. *)
Lemma context_isolation_fails :
  (view_at run_poke 2 ≫= (.!! "tags"%string))
  = Some (SIndex (<["injected"%string := []]>
                    (gather_tags (all_pages (make_tree listing_site))))) ∧
  (view_at run_quiet 2 ≫= (.!! "tags"%string))
  = Some (SIndex (gather_tags (all_pages (make_tree listing_site)))) ∧
  view_at run_poke 2 ≠ view_at run_quiet 2.
Proof.
  assert ((view_at run_poke 2 ≫= (.!! "tags"%string))
    = Some (SIndex (<["injected"%string := []]>
                      (gather_tags (all_pages (make_tree listing_site)))))) as Hpoke.
  { vm_compute. reflexivity. }
  assert ((view_at run_quiet 2 ≫= (.!! "tags"%string))
    = Some (SIndex (gather_tags (all_pages (make_tree listing_site))))) as Hquiet.
  { vm_compute. reflexivity. }
  split; [exact Hpoke|split; [exact Hquiet|]].
  intros H.
  rewrite H in Hpoke. rewrite Hquiet in Hpoke.
  apply (f_equal (λ o,
    match o with
    | Some (SIndex ix) => ix !! "injected"%string
    | _ => None
    end)) in Hpoke.
  vm_compute in Hpoke. discriminate Hpoke.
Qed.

(** C3, amended: the context of a page is made of three new objects, the
    context mapping, the site section and the copy of the pages; the
    objects that were there, those of the context of the page before among
    them, are not written and are not referred to.  The context shows the
    clock, the configuration, the pages, and the two shared objects, the
    tag index and the category listing: whatever has been done to the
    numbered cells, where the context mapping, the site section and the
    pages sequence of every earlier page are, the context built next shows
    the same. *)
Theorem context_objects_fresh {World} (now : World → nat) opts pages
    (s : @Store World) (c : list Obj) :
  site_view (make_templ_vars now opts pages (set_cells s c)).2
    (make_templ_vars now opts pages (set_cells s c)).1
  = site_view (make_templ_vars now opts pages s).2
      (make_templ_vars now opts pages s).1 ∧
  site_view (make_templ_vars now opts pages s).2
    (make_templ_vars now opts pages s).1
  = Some (site_value opts (now (world s)) (s_tag_dict s) (s_categories s)
            pages) ∧
  (make_templ_vars now opts pages s).1 = length (cells s) + 2 ∧
  length (cells (make_templ_vars now opts pages s).2) = length (cells s) + 3 ∧
  take (length (cells s)) (cells (make_templ_vars now opts pages s).2)
  = cells s.
Proof.
  destruct (make_templ_vars_view now opts pages s) as [Hv _].
  destruct (make_templ_vars_view now opts pages (set_cells s c)) as [Hv' _].
  rewrite Hv, Hv'. rewrite make_templ_vars_cells. simpl.
  split_and!; [done|done|done| |].
  - rewrite length_app. simpl. lia.
  - by rewrite take_app_length.
Qed.

(** C7: a tag is a key of the index exactly when some page carries it,
    and its entry is the metadata of the pages that carry it, in the order
    of the flat collection. *)
Theorem tag_index_complete {World} (w : World) (e : Engine) (t : string) :
  (∀ l,
     s_tag_dict (r_store (render_init w e)) !! t = Some l ↔
     (∃ p, p ∈ all_pages e ∧ t ∈ tags (meta p)) ∧
     l = meta <$> filter (λ p, t ∈ tags (meta p)) (all_pages e)) ∧
  (∀ l m,
     s_tag_dict (r_store (render_init w e)) !! t = Some l →
     m ∈ l → t ∈ tags m).
Proof.
  simpl. split.
  - intros l. rewrite gather_tags_lookup. case_decide as Ht.
    + apply gather_tag_set_spec in Ht. unfold tag_listing. naive_solver.
    + rewrite gather_tag_set_spec in Ht. naive_solver.
  - intros l m. rewrite gather_tags_lookup. case_decide; [|done].
    intros ? Hm. simplify_eq. unfold tag_listing in Hm.
    by apply list_elem_of_fmap in Hm as (q & -> & [? ?]%list_elem_of_filter).
Qed.

(** ** The listing, the roots and what a context refers to *)

(** The index-valued and page-valued entries of a site section are the
    tag index, the category listing and the pages. *)
Lemma site_value_objects opts t ix cats pages k :
  (∀ ix', site_value opts t ix cats pages !! k = Some (SIndex ix') →
     k = "tags"%string ∧ ix' = ix ∨ k = "categories"%string ∧ ix' = cats) ∧
  (∀ l, site_value opts t ix cats pages !! k = Some (SPages l) →
     k = "pages"%string ∧ l = pages).
Proof.
  rewrite site_value_lookup.
  assert (∀ v : SVal,
    site_base opts t ix cats pages !! k = Some v →
    k = "title"%string ∧
      v = SConf (default (CStr "Untitled") (opts !! "site_title"%string)) ∨
    k = "datetime"%string ∧ v = STime t ∨
    k = "tags"%string ∧ v = SIndex ix ∨
    k = "pages"%string ∧ v = SPages pages ∨
    k = "categories"%string ∧ v = SIndex cats) as Hbase.
  { intros v. unfold site_base. simpl. rewrite !(lookup_insert _ _ k).
    repeat (destruct (decide (_ = k)) as [<-|?]; [naive_solver|]).
    by rewrite lookup_empty. }
  destruct (opts !! k) as [v|]; [case_decide|]; split; intros ? Hk;
    try done; apply Hbase in Hk; naive_solver.
Qed.

(** C9: the keys of the category listing are the first segments of the
    paths that are not empty, each with the metadata of the pages whose
    path starts with it; a page with an empty path is in no entry, it is a
    root of the forest; and the mappings of metadata a context refers to
    are the tag index and the category listing: the roots are not among
    what a context shows. *)
Theorem categories_listing (e : Engine) :
  (∀ k l,
     categories (make_tree e) !! k = Some l ↔
     (∃ p, p ∈ all_pages e ∧ head (category (meta p)) = Some k) ∧
     l = meta <$> filter (λ p, head (category (meta p)) = Some k)
                    (sort_pages (all_pages e))) ∧
  (∀ k l p,
     categories (make_tree e) !! k = Some l →
     category (meta p) = [] → meta p ∉ l) ∧
  t_site_tree (tree_loop e)
  = meta <$> filter (λ p, category (meta p) = []) (sort_pages (all_pages e)) ∧
  (∀ World (now : World → nat) (w : World) pages c,
     let s := set_cells (r_store (render_init w (make_tree e))) c in
     ∃ view,
       site_view (make_templ_vars now (options e) pages s).2
         (make_templ_vars now (options e) pages s).1 = Some view ∧
       (options e !! "categories"%string = None →
        view !! "categories"%string = Some (SIndex (categories (make_tree e)))) ∧
       (∀ k ix, view !! k = Some (SIndex ix) →
          k = "tags"%string ∧ ix = gather_tags (sort_pages (all_pages e)) ∨
          k = "categories"%string ∧ ix = categories (make_tree e)) ∧
       (∀ k l, view !! k = Some (SPages l) → k = "pages"%string ∧ l = pages)).
Proof.
  assert (∀ k, categories (make_tree e) !! k
    = nonempty_opt (cat_listing k (sort_pages (all_pages e)))) as Hcat.
  { intros k. simpl. unfold tree_loop. by rewrite categories_foldl. }
  split_and!.
  - intros k l. rewrite Hcat, nonempty_opt_Some. unfold cat_listing. split.
    + intros [Hne ->]. split; [|done].
      destruct (filter _ _) as [|p ps] eqn:Hf; [done|].
      assert (p ∈ filter (λ p, head (category (meta p)) = Some k)
                      (sort_pages (all_pages e))) as Hp.
      { rewrite Hf. by left. }
      apply list_elem_of_filter in Hp as [Hk Hp].
      exists p. split; [|done]. unfold sort_pages in Hp.
      by rewrite sort_by_perm in Hp.
    + intros [(p & Hp & Hk) ->]. split; [|done].
      assert (p ∈ filter (λ p, head (category (meta p)) = Some k)
                      (sort_pages (all_pages e))) as Hin.
      { apply list_elem_of_filter. split; [done|].
        unfold sort_pages. by rewrite sort_by_perm. }
      intros Hnil. apply fmap_nil_inv in Hnil. rewrite Hnil in Hin.
      by apply elem_of_nil in Hin.
  - intros k l p. rewrite Hcat, nonempty_opt_Some. intros [_ ->] Hc Hin.
    unfold cat_listing in Hin.
    apply list_elem_of_fmap in Hin as (q & Hq & [Hk _]%list_elem_of_filter).
    rewrite <-Hq, Hc in Hk. done.
  - unfold tree_loop. by rewrite site_tree_foldl.
  - intros World now w pages c s.
    destruct (make_templ_vars_view now (options e) pages s) as [Hv _].
    eexists. split; [exact Hv|]. simpl. split_and!.
    + intros Hopt. by rewrite site_value_lookup, Hopt.
    + intros k ix Hk. by apply site_value_objects in Hk.
    + intros k l Hk. by apply site_value_objects in Hk.
Qed.

(** ** Nesting *)

(** The four pages of a chain, in whatever order they were loaded. *)
Lemma chain_nested (a b c d : string) (n0 n1 n2 n3 : nat)
    (t0 t1 t2 t3 : list string) (f0 f1 f2 f3 : string) opts cats lg l :
  NoDup [n0; n1; n2; n3] →
  l ≡ₚ scenario_pages a b c d n0 n1 n2 n3 t0 t1 t2 t3 f0 f1 f2 f3 →
  sort_pages l = scenario_pages a b c d n0 n1 n2 n3 t0 t1 t2 t3 f0 f1 f2 f3 ∧
  t_site_tree (tree_loop (mkEngine opts l cats ∅ lg)) = [mkMeta n0 a [] t0] ∧
  t_subpages (tree_loop (mkEngine opts l cats ∅ lg)) !!! n0
  = [mkMeta n1 b [a] t1] ∧
  t_subpages (tree_loop (mkEngine opts l cats ∅ lg)) !!! n1
  = [mkMeta n2 c [a; b] t2] ∧
  t_subpages (tree_loop (mkEngine opts l cats ∅ lg)) !!! n2
  = [mkMeta n3 d [a; b; c] t3] ∧
  t_subpages (tree_loop (mkEngine opts l cats ∅ lg)) !!! n3 = [] ∧
  t_log (tree_loop (mkEngine opts l cats ∅ lg)) = lg.
Proof.
  intros Hn Hl. unfold scenario_pages in *.
  set (pa := mkPage f0 (mkMeta n0 a [] t0)) in *.
  set (pb := mkPage f1 (mkMeta n1 b [a] t1)) in *.
  set (pc := mkPage f2 (mkMeta n2 c [a; b] t2)) in *.
  set (pd := mkPage f3 (mkMeta n3 d [a; b; c] t3)) in *.
  assert (sort_pages l = [pa; pb; pc; pd]) as Hs.
  { unfold sort_pages. rewrite (sort_by_perm_eq depth _ _ Hl).
    - apply sort_by_sorted_id. repeat constructor; simpl; lia.
    - rewrite Hl. simpl. unfold depth; simpl. repeat constructor; set_solver. }
  split; [done|].
  assert (n0 ≠ n1 ∧ n0 ≠ n2 ∧ n0 ≠ n3 ∧ n1 ≠ n2 ∧ n1 ≠ n3 ∧ n2 ≠ n3)
    as (Hn01 & Hn02 & Hn03 & Hn12 & Hn13 & Hn23).
  { rewrite !NoDup_cons in Hn. set_solver. }
  unfold tree_loop. simpl all_pages. rewrite Hs. simpl foldl.
  remember (tree_init _) as s0 eqn:E0.
  assert (t_site_tree s0 = [] ∧ t_subpages s0 = ∅ ∧ t_log s0 = lg)
    as (Hr0 & Hp0 & Hl0) by (by subst s0).
  clear E0.
  destruct (tree_step_placed s0 pa Roots) as (Hr1 & Hp1 & Hl1); [done|].
  remember (tree_step s0 pa) as s1 eqn:E1. clear E1.
  rewrite Hr0 in Hr1. rewrite Hp0 in Hp1. rewrite Hl0 in Hl1. simpl in Hr1.
  destruct (tree_step_placed s1 pb (SubpagesOf n0)) as (Hr2 & Hp2 & Hl2).
  { simpl. by rewrite Hr1, find_parent_singleton. }
  remember (tree_step s1 pb) as s2 eqn:E2. clear E2.
  rewrite Hr1 in Hr2. rewrite Hp1 in Hp2. rewrite Hl1 in Hl2.
  rewrite lookup_total_empty in Hp2. simpl in Hr2, Hp2.
  destruct (tree_step_placed s2 pc (SubpagesOf n1)) as (Hr3 & Hp3 & Hl3).
  { simpl. rewrite Hr2, find_parent_singleton by done. simpl.
    by rewrite Hp2, lookup_total_insert_eq, find_parent_singleton. }
  remember (tree_step s2 pc) as s3 eqn:E3. clear E3.
  rewrite Hr2 in Hr3. rewrite Hp2 in Hp3. rewrite Hl2 in Hl3.
  rewrite lookup_total_insert_ne, lookup_total_empty in Hp3 by done.
  simpl in Hr3, Hp3.
  destruct (tree_step_placed s3 pd (SubpagesOf n2)) as (Hr4 & Hp4 & Hl4).
  { simpl. rewrite Hr3, find_parent_singleton by done. simpl.
    rewrite Hp3, lookup_total_insert_ne, lookup_total_insert_eq,
      find_parent_singleton by done. simpl.
    by rewrite lookup_total_insert_eq, find_parent_singleton. }
  rewrite Hr4, Hp4, Hl4, Hr3, Hp3, Hl3. simpl.
  repeat (rewrite lookup_total_insert_eq
          || rewrite lookup_total_insert_ne by done
          || rewrite lookup_total_empty).
  done.
Qed.

(** C5: the sort is by ascending length of the category path and keeps
    the order of the pages of one length, so a page comes after every page
    with a shorter path; and the pages of a chain, whose paths are [[]],
    [[a]], [[a; b]] and [[a; b; c]] and whose slugs are [a], [b], [c] and
    one more, end up nested in the forest whatever the order they were
    loaded in, with nothing reported. *)
Theorem make_tree_ancestors_first :
  (∀ l : list Page,
     sort_pages l ≡ₚ l ∧
     StronglySorted (λ p q, depth p ≤ depth q) (sort_pages l) ∧
     (∀ k, filter (λ p, depth p = k) (sort_pages l)
           = filter (λ p, depth p = k) l) ∧
     (∀ i j p q,
        sort_pages l !! i = Some p → sort_pages l !! j = Some q →
        depth p < depth q → i < j)) ∧
  (∀ (a b c d : string) (n0 n1 n2 n3 : nat) (t0 t1 t2 t3 : list string)
     (f0 f1 f2 f3 : string) opts cats lg l,
     NoDup [n0; n1; n2; n3] →
     l ≡ₚ scenario_pages a b c d n0 n1 n2 n3 t0 t1 t2 t3 f0 f1 f2 f3 →
     t_site_tree (tree_loop (mkEngine opts l cats ∅ lg))
     = [mkMeta n0 a [] t0] ∧
     t_subpages (tree_loop (mkEngine opts l cats ∅ lg)) !!! n0
     = [mkMeta n1 b [a] t1] ∧
     t_subpages (tree_loop (mkEngine opts l cats ∅ lg)) !!! n1
     = [mkMeta n2 c [a; b] t2] ∧
     t_subpages (tree_loop (mkEngine opts l cats ∅ lg)) !!! n2
     = [mkMeta n3 d [a; b; c] t3] ∧
     t_subpages (tree_loop (mkEngine opts l cats ∅ lg)) !!! n3 = [] ∧
     t_log (tree_loop (mkEngine opts l cats ∅ lg)) = lg).
Proof.
  split.
  - intros l. unfold sort_pages. split_and!.
    + apply sort_by_perm.
    + apply sort_by_sorted.
    + intros k. apply sort_by_stable.
    + intros i j p q. apply sorted_lookup_lt, sort_by_sorted.
  - intros a b c d n0 n1 n2 n3 t0 t1 t2 t3 f0 f1 f2 f3 opts cats lg l Hn Hl.
    by destruct (chain_nested a b c d n0 n1 n2 n3 t0 t1 t2 t3 f0 f1 f2 f3
      opts cats lg l Hn Hl) as (_ & ?).
Qed.

Lemma make_tree_ancestors_first_witness :
  t_site_tree (tree_loop (mkEngine ∅
    [mkPage "d.md" (mkMeta 3 "d" ["a"; "b"; "c"] []);
     mkPage "b.md" (mkMeta 1 "b" ["a"] []);
     mkPage "a.md" (mkMeta 0 "a" [] []);
     mkPage "c.md" (mkMeta 2 "c" ["a"; "b"] [])]%string ∅ ∅ []))
  = [mkMeta 0 "a" [] []].
Proof.
  apply (proj2 make_tree_ancestors_first "a" "b" "c" "d" 0 1 2 3 [] [] [] []
           "a.md" "b.md" "c.md" "d.md" ∅ ∅ [])%string.
  - apply (bool_decide_unpack _). vm_compute. exact I.
  - symmetry. apply permutations_Permutation, (bool_decide_unpack _).
    vm_compute. exact I.
Defined.

(** C10: [make_tree] leaves the flat collection sorted by depth, the
    pages of one depth in the order they were loaded in; the tag index
    lists the pages in that order and the worklist starts with the pages
    in that order, which need not be the order they were loaded in. *)
Theorem make_tree_sorts_in_place :
  (∀ e : Engine,
     all_pages (make_tree e) = sort_pages (all_pages e) ∧
     all_pages (make_tree e) ≡ₚ all_pages e ∧
     StronglySorted (λ p q, depth p ≤ depth q) (all_pages (make_tree e)) ∧
     (∀ k, filter (λ p, depth p = k) (all_pages (make_tree e))
           = filter (λ p, depth p = k) (all_pages e))) ∧
  (∀ World (w : World) (e : Engine) t l,
     s_tag_dict (r_store (render_init w (make_tree e))) !! t = Some l →
     l = meta <$> filter (λ p, t ∈ tags (meta p)) (sort_pages (all_pages e))) ∧
  (∀ World (now : World → nat) render write fuel (w : World) (e : Engine) fin,
     generate now render write fuel w e = Some fin →
     r_calls fin ≫= rendered = r_pages fin ∧
     take (length (all_pages e)) (r_pages fin) = sort_pages (all_pages e)) ∧
  all_pages (make_tree orphan_site) ≠ all_pages orphan_site.
Proof.
  split_and!.
  - intros e. simpl. unfold sort_pages. split_and!.
    + done.
    + apply sort_by_perm.
    + apply sort_by_sorted.
    + intros k. apply sort_by_stable.
  - intros World w e t l. simpl. rewrite gather_tags_lookup.
    case_decide; [|done]. by intros [= <-].
  - intros World now render write fuel w e fin Hrun. unfold generate in Hrun.
    destruct (render_loop_calls now render write _ _ _ _ _ _ Hrun) as [Hr _].
    destruct (render_loop_inv now render write _ _ _ _ _ _ Hrun)
      as (_ & _ & Hpages & _).
    split; [done|]. rewrite Hpages. simpl. apply take_app_length'.
    unfold sort_pages. by rewrite sort_by_perm.
  - vm_compute. intros H. discriminate H.
Qed.

(** ** Example runs *)

Lemma run_final {World} (d : @RState World) (run : option RState) :
  is_Some run → run = Some (default d run).
Proof. by intros [fin ->]. Qed.

Lemma call_store_render {World} (d : @Store World) (c : option Call)
    (p : Page) (lv : nat) (new : list Page) :
  match c with
  | Some (CallRender p' lv' _ new') => p' = p ∧ lv' = lv ∧ new' = new
  | _ => False
  end →
  c = Some (CallRender p lv (call_store d c) new).
Proof.
  destruct c as [[p' lv' s new'|]|]; simpl; [|done..].
  by intros (-> & -> & ->).
Qed.

Lemma run_paginate_site :
  render_site clock render_paginate write_quiet 3 tt (make_tree listing_site)
  = Some fin_paginate.
Proof.
  refine (run_final (render_init tt (make_tree listing_site)) _ _).
  apply (bool_decide_unpack _). vm_compute. exact I.
Qed.

Lemma run_paginate_final :
  generate clock render_paginate write_quiet 3 tt listing_site
  = Some fin_paginate.
Proof. unfold generate. exact run_paginate_site. Qed.

Lemma run_paginate_call :
  r_calls fin_paginate !! (2 * 2)
  = Some (CallRender page2 8
            (call_store (r_store fin_paginate) (r_calls fin_paginate !! 4)) []).
Proof.
  apply (call_store_render _ (r_calls fin_paginate !! 4)).
  vm_compute. repeat split.
Qed.

(** The continuation spawns nothing, and a page spawns at most the
    continuation. *)
Lemma paginate_finite (p : Page) : Acc (flip (spawns render_paginate)) p.
Proof.
  assert (Acc (flip (spawns render_paginate)) page2) as H2.
  { constructor. intros q (s & lv & Hq). simpl in Hq.
    by apply elem_of_nil in Hq. }
  constructor. intros q (s & lv & Hq). unfold render_paginate in Hq.
  simpl in Hq. case_decide; [|by apply elem_of_nil in Hq].
  by apply list_elem_of_singleton in Hq as ->.
Qed.

Lemma worklist_exhaustive_witness :
  (∃ fuel fin,
     render_site clock render_paginate write_quiet fuel tt
       (make_tree listing_site) = Some fin) ∧
  r_calls fin_paginate ≫= rendered = r_pages fin_paginate ∧
  r_calls fin_paginate ≫= written = r_pages fin_paginate ∧
  r_store fin_paginate
  = run_calls render_paginate write_quiet
      (r_store (render_init tt (make_tree listing_site)))
      (r_calls fin_paginate).
Proof.
  split.
  - apply (proj1 (worklist_exhaustive clock render_paginate write_quiet tt
                    (make_tree listing_site))).
    apply Forall_forall. intros p _. apply paginate_finite.
  - destruct (proj2 (worklist_exhaustive clock render_paginate write_quiet tt
                       (make_tree listing_site)) 3 fin_paginate
                run_paginate_site) as (_ & _ & Hr & Hw & _ & _ & Hs & _).
    split; [exact Hr|]. split; [exact Hw|exact Hs].
Defined.

Lemma context_pages_snapshot_witness :
  r_pages fin_paginate !! 2 = Some page2.
Proof.
  exact (proj1 (context_pages_snapshot clock render_paginate write_quiet 3
    tt (make_tree listing_site) fin_paginate 2 page2 8
    (call_store (r_store fin_paginate) (r_calls fin_paginate !! 4)) []
    run_paginate_site run_paginate_call)).
Defined.

Lemma tag_index_fixed_witness :
  s_tag_dict (call_store (r_store fin_paginate) (r_calls fin_paginate !! 4))
  = gather_tags (all_pages (make_tree listing_site)).
Proof.
  exact (proj1 (tag_index_fixed clock render_paginate write_quiet 3 tt
    (make_tree listing_site) fin_paginate 2 page2 8
    (call_store (r_store fin_paginate) (r_calls fin_paginate !! 4)) []
    (λ s lv p, eq_refl) (λ s p, eq_refl)
    run_paginate_site run_paginate_call)).
Defined.

Lemma make_tree_sorts_in_place_witness :
  r_calls fin_paginate ≫= rendered = r_pages fin_paginate ∧
  take (length (all_pages listing_site)) (r_pages fin_paginate)
  = sort_pages (all_pages listing_site).
Proof.
  exact (proj1 (proj2 (proj2 make_tree_sorts_in_place)) unit clock
           render_paginate write_quiet 3 tt listing_site fin_paginate
           run_paginate_final).
Defined.

Lemma categories_listing_witness :
  categories (make_tree orphan_site) !! "blog"%string
  = Some [meta post_page; meta lost_page].
Proof.
  refine (proj2 (proj1 (categories_listing orphan_site) _ _) _). split.
  - exists post_page. split; [|reflexivity].
    apply (bool_decide_unpack _). vm_compute. exact I.
  - vm_compute. reflexivity.
Defined.

(** ** Orphans *)

(** C6: a page whose path has a slug with no matching node among the
    siblings reached by the slugs before it is reported, at the error
    level and with its source path; the forest is left as it was and does
    not hold the page when the loop is over; the page stays in the flat
    collection and in the listing of its top-level category; the loop goes
    on with the pages that follow.  A page with an empty path becomes a
    root, and nothing is reported. *)
Theorem orphan_page_reported :
  (∀ (e : Engine) (l1 l2 : list Page) (p : Page) (pre post : list string)
     (cat : string) (r : SibRef),
     sort_pages (all_pages e) = l1 ++ p :: l2 →
     category (meta p) = pre ++ cat :: post →
     descend (foldl tree_step (tree_init e) l1) Roots pre = Some r →
     find_parent (deref (foldl tree_step (tree_init e) l1) r) cat = None →
     let st := foldl tree_step (tree_init e) l1 in
     let st' := tree_step st p in
     t_log st' = t_log st ++ [(ERROR, orphan_message (path p))] ∧
     (∃ before after,
        orphan_message (path p) = (before +:+ path p +:+ after)%string) ∧
     t_site_tree st' = t_site_tree st ∧
     t_subpages st' = t_subpages st ∧
     tree_loop e = foldl tree_step st' l2 ∧
     (ERROR, orphan_message (path p)) ∈ log (make_tree e) ∧
     (NoDup (meta <$> all_pages e) → subpages e = ∅ →
      ¬ in_forest (tree_loop e) (meta p)) ∧
     p ∈ all_pages (make_tree e) ∧
     ∃ top ms, head (category (meta p)) = Some top ∧
       categories (make_tree e) !! top = Some ms ∧ meta p ∈ ms) ∧
  (∀ (st : TreeState) (p : Page),
     category (meta p) = [] →
     tree_step st p =
     mkTreeState (t_categories st) (t_site_tree st ++ [meta p])
       (t_subpages st) (t_log st)).
Proof.
  split.
  - intros e l1 l2 p pre post cat r Hsort Hcat Hpre Hfind st st'.
    assert (descend st Roots (category (meta p)) = None) as Hd.
    { apply descend_None. by exists pre, cat, post, r. }
    destruct (tree_step_orphan st p Hd) as (Hr & Hp & Hl).
    assert (tree_loop e = foldl tree_step st' l2) as Hloop.
    { unfold tree_loop. by rewrite Hsort, foldl_app. }
    split_and!; try done.
    + by exists ("It looks like the page " +:+ quote)%string,
        (quote +:+ " is an orphan! This will probably cause problems.")%string.
    + simpl. rewrite Hloop. destruct (log_foldl st' l2) as [more ->].
      subst st'. rewrite Hl. set_solver.
    + intros Hnd Hsub.
      assert (NoDup (meta <$> (l1 ++ p :: l2))) as Hnd'.
      { rewrite <-Hsort. unfold sort_pages. by rewrite sort_by_perm. }
      rewrite fmap_app, fmap_cons in Hnd'.
      apply NoDup_app in Hnd' as (_ & Hl1 & Hl2%NoDup_cons).
      rewrite Hloop. intros [Hf|Hf]%forest_foldl; [|naive_solver].
      apply tree_step_forest in Hf as [Hf|[_ [r' Hr']]].
      * apply forest_foldl in Hf as [Hf|Hf].
        -- destruct Hf as [Hf|[i Hf]]; simpl in Hf.
           ++ by apply elem_of_nil in Hf.
           ++ rewrite Hsub, lookup_total_empty in Hf.
              by apply elem_of_nil in Hf.
        -- eapply Hl1; [exact Hf|]. apply elem_of_cons. by left.
      * rewrite descend_list_category in Hr'. congruence.
    + simpl. rewrite Hsort. set_solver.
    + destruct (category (meta p)) as [|top cs] eqn:Hc.
      { by destruct pre. }
      exists top, (cat_listing top (sort_pages (all_pages e))).
      split; [done|]. simpl. unfold tree_loop.
      rewrite categories_foldl by done.
      assert (meta p ∈ cat_listing top (sort_pages (all_pages e))) as Hin.
      { unfold cat_listing. apply list_elem_of_fmap_2, list_elem_of_filter.
        rewrite Hc, Hsort. set_solver. }
      split; [|done].
      apply nonempty_opt_Some. split; [|done]. intros Hnil.
      rewrite Hnil in Hin. by apply elem_of_nil in Hin.
  - intros st p Hc. unfold tree_step, place, list_category. by rewrite Hc.
Qed.

Lemma orphan_page_witness :
  (ERROR, orphan_message "content/blog/missing/lost.md")
    ∈ log (make_tree orphan_site) ∧
  ¬ in_forest (tree_loop orphan_site) (meta lost_page).
Proof.
  pose proof (proj1 orphan_page_reported orphan_site
    [index_page; blog_page; post_page] [] lost_page
    ["blog"%string] [] "missing"%string (SubpagesOf 1)) as H.
  simpl in H.
  destruct H as (_ & _ & _ & _ & _ & Hlog & Hforest & _).
  - reflexivity.
  - reflexivity.
  - vm_compute. reflexivity.
  - vm_compute. reflexivity.
  - split; [exact Hlog|]. apply Hforest.
    + apply (bool_decide_unpack _). vm_compute. exact I.
    + reflexivity.
Defined.

(** ** Splitting *)

Lemma split_on_cons (sep : Ascii.ascii) (s : string) :
  ∃ piece pieces, split_on sep s = piece :: pieces.
Proof.
  induction s as [|c s (piece & pieces & IH)]; simpl; [by eauto|].
  case_decide; [by eauto|]. rewrite IH. eauto.
Qed.

Lemma join_with_cons (sep : Ascii.ascii) (c : Ascii.ascii) piece pieces :
  join_with sep (String c piece :: pieces)
  = String c (join_with sep (piece :: pieces)).
Proof. by destruct pieces. Qed.

Lemma join_split (sep : Ascii.ascii) (s : string) :
  join_with sep (split_on sep s) = s.
Proof.
  induction s as [|c s IH]; simpl; [done|].
  destruct (split_on_cons sep s) as (piece & pieces & Hs).
  rewrite Hs in *. case_decide as Hc.
  - subst c. simpl in *. by rewrite IH.
  - by rewrite join_with_cons, IH.
Qed.

Lemma split_on_length (sep : Ascii.ascii) (s : string) :
  length (split_on sep s) = S (count_char sep s).
Proof.
  induction s as [|c s IH]; simpl; [done|].
  destruct (split_on_cons sep s) as (piece & pieces & Hs).
  rewrite Hs in *. case_decide; simpl in *; lia.
Qed.

Lemma split_on_pieces (sep : Ascii.ascii) (s piece : string) :
  piece ∈ split_on sep s → count_char sep piece = 0.
Proof.
  revert piece. induction s as [|c s IH]; simpl; intros piece Hp.
  - by apply list_elem_of_singleton in Hp as ->.
  - destruct (split_on_cons sep s) as (p0 & pieces & Hs).
    rewrite Hs in *. case_decide as Hc.
    + apply elem_of_cons in Hp as [->|Hp]; [done|by apply IH].
    + apply elem_of_cons in Hp as [->|Hp].
      * simpl. rewrite decide_False by done. apply IH. by left.
      * apply IH. by right.
Qed.

Lemma split_on_plain (sep : Ascii.ascii) (s : string) :
  count_char sep s = 0 → split_on sep s = [s].
Proof.
  induction s as [|c s IH]; simpl; [done|].
  case_decide; [done|]. intros Hs. by rewrite IH.
Qed.

Lemma count_char_sep (sep : Ascii.ascii) (a b : string) :
  count_char sep (a +:+ String sep b) ≠ 0.
Proof.
  induction a as [|c a IH]; simpl; [rewrite decide_True by done|]; lia.
Qed.

Lemma last_cons_cons {A} (x y : A) (l : list A) : last (x :: y :: l) = last (y :: l).
Proof. done. Qed.

(** X9: the extension the renderer is chosen by is what follows the last
    dot of the name, and the whole name when the name has no dot. *)
Theorem file_ext_spec :
  (∀ f, count_char dot f = 0 → file_ext f = f) ∧
  (∀ stem e, count_char dot e = 0 → file_ext (stem +:+ String dot e) = e) ∧
  (∀ f, count_char dot (file_ext f) = 0).
Proof.
  assert (∀ stem s, file_ext (stem +:+ String dot s) = file_ext s) as Hstem.
  { intros stem s. unfold file_ext. f_equal.
    induction stem as [|c stem IH]; simpl.
    - by destruct (split_on_cons dot s) as (p & ps & ->).
    - destruct (split_on dot (stem +:+ String dot s)) as [|p [|p' ps]] eqn:Hs.
      + destruct (split_on_cons dot (stem +:+ String dot s)) as (? & ? & ?).
        congruence.
      + pose proof (split_on_length dot (stem +:+ String dot s)) as Hl.
        rewrite Hs in Hl. simpl in Hl.
        pose proof (count_char_sep dot stem s). lia.
      + case_decide; by rewrite <-IH. }
  split_and!.
  - intros f Hf. unfold file_ext. by rewrite split_on_plain.
  - intros stem e He. rewrite Hstem. unfold file_ext. by rewrite split_on_plain.
  - intros f. unfold file_ext.
    destruct (split_on_cons dot f) as (p & ps & Hs).
    destruct (last (split_on dot f)) as [e|] eqn:Hl; [|done].
    simpl. apply (split_on_pieces dot f). by apply last_Some_elem_of.
Qed.

(** ** Reading the options *)

Section read_options_facts.
Context {Author : Type} (parse : string → Author).

(** The options before the authors are parsed. *)
Lemma merged_lookup (config : option (gmap string ConfVal)) k :
  match config with
  | Some yaml_config =>
      (OConf <$> yaml_config) ∪ ((OConf <$> default_options)
                                  : gmap string (OptVal Author))
  | None => OConf <$> default_options
  end !! k
  = OConf <$> match config ≫= (.!! k) with
              | Some v => Some v
              | None => default_options !! k
              end.
Proof.
  destruct config as [cfg|]; simpl.
  - rewrite lookup_union, !lookup_fmap.
    by destruct (cfg !! k), (default_options !! k).
  - by rewrite lookup_fmap.
Qed.

(** X1: every key but [authors] has the value the configuration file
    gives it, or else its default; the six defaults are always there. *)
Theorem read_options_keys (config : option (gmap string ConfVal)) :
  (∀ k, k ≠ "authors"%string →
     read_options parse config !! k
     = OConf <$> match config ≫= (.!! k) with
                 | Some v => Some v
                 | None => default_options !! k
                 end) ∧
  (∀ k d, default_options !! k = Some d →
     ∃ v, read_options parse config !! k = Some (OConf v)).
Proof.
  assert (∀ k, k ≠ "authors"%string →
     read_options parse config !! k
     = OConf <$> match config ≫= (.!! k) with
                 | Some v => Some v
                 | None => default_options !! k
                 end) as Hk.
  { intros k Hk. unfold read_options. rewrite <-(merged_lookup config k).
    destruct (authors_option _) as [[[s|l]|]|];
      by rewrite ?lookup_insert_ne. }
  split; [done|]. intros k d Hd.
  rewrite Hk.
  - destruct (config ≫= _) as [v|]; [by eauto|]. rewrite Hd. by eauto.
  - intros ->. by vm_compute in Hd.
Qed.

(** The entry [authors], by the keys of the configuration file. *)
Lemma authors_entry (config : option (gmap string ConfVal)) :
  read_options parse config !! "authors"%string
  = match match config ≫= (.!! "authors"%string) with
          | Some a => Some a
          | None => config ≫= (.!! "author"%string)
          end with
    | Some (CSeq l) => Some (OAuthors (parse <$> l))
    | Some (CStr s) => Some (OAuthors (parse <$> split_on comma s))
    | None => None
    end.
Proof.
  unfold read_options, authors_option.
  rewrite !merged_lookup.
  replace (default_options !! "authors"%string) with (@None ConfVal)
    by (by vm_compute).
  replace (default_options !! "author"%string) with (@None ConfVal)
    by (by vm_compute).
  destruct (config ≫= (.!! "authors"%string)) as [[s|l]|] eqn:Ha; simpl.
  - by rewrite lookup_insert_eq.
  - by rewrite lookup_insert_eq.
  - destruct (config ≫= (.!! "author"%string)) as [[s|l]|] eqn:Ha'; simpl.
    + by rewrite lookup_insert_eq.
    + by rewrite lookup_insert_eq.
    + by rewrite merged_lookup, Ha.
Qed.
(** X2: the entry [authors] is made of the key [authors] of the
    configuration file when there is one, of the key [author] otherwise:
    the elements of a sequence, or the pieces between the commas of a
    string, each parsed; with neither key there is no entry. *)
Theorem read_options_authors (config : option (gmap string ConfVal)) :
  read_options parse config !! "authors"%string
  = match match config ≫= (.!! "authors"%string) with
          | Some a => Some a
          | None => config ≫= (.!! "author"%string)
          end with
    | Some (CSeq l) => Some (OAuthors (parse <$> l))
    | Some (CStr s) => Some (OAuthors (parse <$> split_on comma s))
    | None => None
    end.
Proof. apply authors_entry. Qed.

(** X3: a string of authors gives an author for every piece between its
    commas: one more than there are commas, the empty pieces among them,
    and nothing is stripped, the pieces joined with commas being the
    string. *)
Theorem authors_string_pieces (config : option (gmap string ConfVal))
    (s : string) :
  match config ≫= (.!! "authors"%string) with
  | Some a => Some a
  | None => config ≫= (.!! "author"%string)
  end = Some (CStr s) →
  ∃ pieces,
    read_options parse config !! "authors"%string
    = Some (OAuthors (parse <$> pieces)) ∧
    join_with comma pieces = s ∧
    length pieces = S (count_char comma s) ∧
    ∀ piece, piece ∈ pieces → count_char comma piece = 0.
Proof.
  intros Hs. exists (split_on comma s). split_and!.
  - by rewrite authors_entry, Hs.
  - apply join_split.
  - apply split_on_length.
  - intros piece. apply split_on_pieces.
Qed.
End read_options_facts.

(** ** Loading the pages *)

Section load_pages_facts.
Context {Renderer : Type}.
Context (extensions : Renderer → list string).
Context (all_renderers : list Renderer).
Context (Plain BaseRenderer : Renderer).
Context (path_join : string → string → string).
Context (new_page : string → gmap string ConfVal → Renderer → Page).
Context (published : Page → bool).

Lemma scan_renderers_found ext pre r post d :
  ext ∈ extensions r → (∀ x, x ∈ pre → ext ∉ extensions x) →
  scan_renderers extensions ext (pre ++ r :: post) d = (r, true).
Proof.
  intros Hr. induction pre as [|x pre IH]; simpl; intros Hpre.
  - by rewrite decide_True.
  - rewrite decide_False by (apply Hpre; by left).
    apply IH. intros y Hy. apply Hpre. by right.
Qed.

Lemma scan_renderers_none ext rs d :
  (∀ x, x ∈ rs → ext ∉ extensions x) →
  scan_renderers extensions ext rs d = (d, false).
Proof.
  induction rs as [|x rs IH]; simpl; intros Hrs; [done|].
  rewrite decide_False by (apply Hrs; by left).
  apply IH. intros y Hy. apply Hrs. by right.
Qed.

(** The renderer found does not depend on what the variable held. *)
Lemma scan_renderers_broke ext rs d d' :
  (scan_renderers extensions ext rs d).2 = (scan_renderers extensions ext rs d').2 ∧
  ((scan_renderers extensions ext rs d).2 = true →
   (scan_renderers extensions ext rs d).1 = (scan_renderers extensions ext rs d').1).
Proof.
  induction rs as [|x rs IH]; simpl; [done|]. by case_decide.
Qed.

Lemma load_file_options root e f :
  options (load_file extensions all_renderers Plain BaseRenderer path_join
             new_page published root e f) = options e.
Proof.
  unfold load_file. destruct (hidden f); [done|].
  by destruct (select_renderer _ _ _ _ f).
Qed.

Lemma load_files_spec root files e :
  foldl (load_file extensions all_renderers Plain BaseRenderer path_join
           new_page published root) e files
  = mkEngine (options e)
      (all_pages e ++
       filter (λ p, published p = true)
         (file_page extensions all_renderers Plain BaseRenderer path_join
            new_page (options e) root
          <$> filter (λ f, hidden f = false) files))
      (categories e) (subpages e)
      (log e ++
       (filter (λ f, hidden f = false) files
        ≫= λ f, (select_renderer extensions all_renderers Plain BaseRenderer
                   f).2)).
Proof.
  revert e. induction files as [|f files IH]; intros e; simpl.
  - rewrite ?filter_nil. simpl. rewrite ?filter_nil, !app_nil_r. by destruct e.
  - rewrite IH, load_file_options. rewrite (filter_cons _ f).
    unfold load_file at 1 2 3 4. unfold file_page.
    destruct (hidden f) eqn:Hf; simpl.
    + done.
    + destruct (select_renderer _ _ _ _ f) as [r warnings] eqn:Hsel. simpl.
      rewrite filter_cons.
      destruct (published _) eqn:Hp; simpl; f_equal; by rewrite <-?app_assoc.
Qed.

Lemma filter_pair_fmap (root : string) (files : list string) :
  filter (λ rf : string * string, hidden rf.2 = false)
    ((λ f, (root, f)) <$> files)
  = (λ f, (root, f)) <$> filter (λ f, hidden f = false) files.
Proof.
  induction files as [|f files IH]; [done|].
  rewrite fmap_cons, !filter_cons. simpl.
  destruct (decide (hidden f = false)); by rewrite IH.
Qed.

Lemma load_pages_cons root dirs files walk e :
  load_pages extensions all_renderers Plain BaseRenderer path_join new_page
    published ((root, dirs, files) :: walk) e
  = load_pages extensions all_renderers Plain BaseRenderer path_join new_page
      published walk
      (foldl (load_file extensions all_renderers Plain BaseRenderer path_join
                new_page published root) e files).
Proof. done. Qed.

(** What [load_pages] leaves in the engine. *)
Lemma load_pages_eq walk e :
  options (load_pages extensions all_renderers Plain BaseRenderer path_join
             new_page published walk e) = options e ∧
  categories (load_pages extensions all_renderers Plain BaseRenderer
                path_join new_page published walk e) = categories e ∧
  subpages (load_pages extensions all_renderers Plain BaseRenderer path_join
              new_page published walk e) = subpages e ∧
  all_pages (load_pages extensions all_renderers Plain BaseRenderer path_join
               new_page published walk e)
  = all_pages e ++
    filter (λ p, published p = true)
      ((λ rf, file_page extensions all_renderers Plain BaseRenderer path_join
                new_page (options e) rf.1 rf.2)
       <$> filter (λ rf, hidden rf.2 = false) (walk_files walk)) ∧
  log (load_pages extensions all_renderers Plain BaseRenderer path_join
         new_page published walk e)
  = log e ++
    (filter (λ rf, hidden rf.2 = false) (walk_files walk)
     ≫= λ rf, (select_renderer extensions all_renderers Plain BaseRenderer
                 rf.2).2).
Proof.
  revert e. induction walk as [|[[root dirs] files] walk IH]; intros e.
  - simpl. rewrite ?filter_nil. simpl. by rewrite ?filter_nil, !app_nil_r.
  - rewrite load_pages_cons, load_files_spec.
    match goal with |- context [load_pages _ _ _ _ _ _ _ walk ?e1] =>
      destruct (IH e1) as (-> & -> & -> & -> & ->) end.
    simpl.
    rewrite filter_app, filter_pair_fmap, fmap_app, filter_app, bind_app.
    rewrite <-!list_fmap_compose, <-!app_assoc.
    split_and!; try done. f_equal. f_equal.
    generalize (filter (λ f, hidden f = false) files). intros fs.
    induction fs as [|f fs IHfs]; [done|]. simpl. by f_equal.
Qed.

(** X7: [load_pages] appends to the flat collection the pages of the files
    whose name does not start with a dot, hidden directories or not, in
    the order of the walk, those that are not published left out; it logs
    a warning for every such file that no renderer of the registry takes,
    published or not, and changes nothing else of the engine. *)
Theorem load_pages_spec walk e :
  options (load_pages extensions all_renderers Plain BaseRenderer path_join
             new_page published walk e) = options e ∧
  categories (load_pages extensions all_renderers Plain BaseRenderer
                path_join new_page published walk e) = categories e ∧
  subpages (load_pages extensions all_renderers Plain BaseRenderer path_join
              new_page published walk e) = subpages e ∧
  all_pages (load_pages extensions all_renderers Plain BaseRenderer path_join
               new_page published walk e)
  = all_pages e ++
    filter (λ p, published p = true)
      ((λ rf, file_page extensions all_renderers Plain BaseRenderer path_join
                new_page (options e) rf.1 rf.2)
       <$> filter (λ rf, hidden rf.2 = false) (walk_files walk)) ∧
  log (load_pages extensions all_renderers Plain BaseRenderer path_join
         new_page published walk e)
  = log e ++
    (filter (λ rf, hidden rf.2 = false) (walk_files walk)
     ≫= λ rf, (select_renderer extensions all_renderers Plain BaseRenderer
                 rf.2).2).
Proof. apply load_pages_eq. Qed.
End load_pages_facts.

(** X8: the renderer of a file is the first renderer of the registry
    whose extensions hold the extension of the file; when there is none it
    is the base renderer, and a warning names the file.  The renderer the
    variable starts with, [renderers.Plain], plays no part. *)
Theorem select_renderer_spec {Renderer : Type}
    (extensions : Renderer → list string) (all_renderers : list Renderer)
    (Plain BaseRenderer : Renderer) (f : string) :
  (∀ pre r post,
     all_renderers = pre ++ r :: post →
     file_ext f ∈ extensions r →
     (∀ x, x ∈ pre → file_ext f ∉ extensions x) →
     select_renderer extensions all_renderers Plain BaseRenderer f = (r, [])) ∧
  ((∀ x, x ∈ all_renderers → file_ext f ∉ extensions x) →
   select_renderer extensions all_renderers Plain BaseRenderer f
   = (BaseRenderer, [(WARNING, no_parser_message f)])) ∧
  (∀ Plain',
     select_renderer extensions all_renderers Plain' BaseRenderer f
     = select_renderer extensions all_renderers Plain BaseRenderer f).
Proof.
  unfold select_renderer. split_and!.
  - intros pre r post -> Hr Hpre. by rewrite scan_renderers_found.
  - intros Hnone. by rewrite scan_renderers_none.
  - intros Plain'.
    destruct (scan_renderers_broke extensions (file_ext f) all_renderers
                Plain' Plain) as [Hb Hr].
    destruct (scan_renderers extensions (file_ext f) all_renderers Plain')
      as [r b], (scan_renderers extensions (file_ext f) all_renderers Plain)
      as [r' b']. simpl in *. subst b'.
    destruct b; [|done]. by rewrite Hr.
Qed.

(** ** Preparing the output directory *)

Section prepare_output_facts.
Context {World : Type}.
Context (isdir : World → string → bool).
Context (rmtree : World → string → Res World unit).
Context (mkdir : World → string → Res World unit).
Context (listdir : World → string → Res World (list string)).
Context (copytree : World → string → string → Res World unit).
Context (copy : World → string → string → Res World unit).
Context (path_join : string → string → string).

Lemma copy_entries_app media out pre rest w :
  copy_entries isdir copytree copy path_join media out (pre ++ rest) w
  = match copy_entries isdir copytree copy path_join media out pre w with
    | Ok _ w' => copy_entries isdir copytree copy path_join media out rest w'
    | Raise e w' => Raise e w'
    end.
Proof.
  revert w. induction pre as [|n pre IH]; intros w; simpl; [done|].
  destruct (copy_entry _ _ _ _ _ _ w n); [apply IH|done].
Qed.

(** The loop raises when an entry does, the entries before it having
    been copied. *)
Lemma copy_entries_raise media out names w e w' :
  copy_entries isdir copytree copy path_join media out names w = Raise e w' ↔
  ∃ pre n post wk,
    names = pre ++ n :: post ∧
    copy_entries isdir copytree copy path_join media out pre w = Ok tt wk ∧
    copy_entry isdir copytree copy path_join media out wk n = Raise e w'.
Proof.
  split.
  - revert w. induction names as [|n names IH]; intros w; simpl; [done|].
    destruct (copy_entry _ _ _ _ _ _ w n) as [[] w1|e1 w1] eqn:Hn.
    + intros (pre & m & post & wk & -> & Hpre & Hm)%IH.
      exists (n :: pre), m, post, wk. simpl. by rewrite Hn.
    + intros [= -> ->]. by exists [], n, names, w.
  - intros (pre & n & post & wk & -> & Hpre & Hn).
    rewrite copy_entries_app, Hpre. simpl. by rewrite Hn.
Qed.

(** X6: an [OSError] in the copy of the media, a media directory that
    cannot be listed or an entry that cannot be copied, is swallowed: the
    entries before are copied, the entries after are not tried, and the
    copy ends as if it had been done. *)
Theorem copy_media_swallows media out w w' :
  listdir w media = Raise OSError w' ∨
  (∃ names w0 pre n post wk,
     listdir w media = Ok names w0 ∧
     names = pre ++ n :: post ∧
     copy_entries isdir copytree copy path_join media out pre w0 = Ok tt wk ∧
     copy_entry isdir copytree copy path_join media out wk n
     = Raise OSError w') →
  copy_media isdir listdir copytree copy path_join media out w = Ok tt w'.
Proof.
  unfold copy_media.
  intros [->|(names & w0 & pre & n & post & wk & -> & -> & Hpre & Hn)];
    [done|].
  rewrite copy_entries_app, Hpre. simpl. by rewrite Hn.
Qed.

(** X5: [prepare_output] raises in three cases only: the removal of the
    old output directory raises, the creation of the new one raises, or
    the copy of the media raises something that is not an [OSError]. *)
Theorem prepare_output_raises out media w e w' :
  prepare_output isdir rmtree mkdir listdir copytree copy path_join
    out media w = Raise e w' ↔
  (isdir w out = true ∧ rmtree w out = Raise e w') ∨
  (∃ w1,
     (if isdir w out then rmtree w out else Ok tt w) = Ok tt w1 ∧
     mkdir w1 out = Raise e w') ∨
  (∃ w1 w2,
     (if isdir w out then rmtree w out else Ok tt w) = Ok tt w1 ∧
     mkdir w1 out = Ok tt w2 ∧ e = OtherError ∧
     (listdir w2 media = Raise OtherError w' ∨
      ∃ names w3 pre n post wk,
        listdir w2 media = Ok names w3 ∧
        names = pre ++ n :: post ∧
        copy_entries isdir copytree copy path_join media out pre w3
        = Ok tt wk ∧
        copy_entry isdir copytree copy path_join media out wk n
        = Raise OtherError w')).
Proof.
  unfold prepare_output, copy_media. split.
  - destruct (isdir w out) eqn:Hout.
    + destruct (rmtree w out) as [[] w1|e1 w1] eqn:Hrm;
        [|intros [= -> ->]; by left].
      destruct (mkdir w1 out) as [[] w2|e2 w2] eqn:Hmk;
        [|intros [= -> ->]; right; left; by exists w1].
      intros Hcopy. right. right. exists w1, w2.
      destruct (listdir w2 media) as [names w3|[] w3] eqn:Hls; try done.
      * destruct (copy_entries _ _ _ _ _ _ names w3) as [[] w4|[] w4] eqn:Hce;
          try done.
        simplify_eq. apply copy_entries_raise in Hce.
        destruct Hce as (pre & n & post & wk & ? & ? & ?).
        split_and!; try done. right. by exists names, w3, pre, n, post, wk.
      * simplify_eq. split_and!; try done. by left.
    + destruct (mkdir w out) as [[] w2|e2 w2] eqn:Hmk;
        [|intros [= -> ->]; right; left; by exists w].
      intros Hcopy. right. right. exists w, w2.
      destruct (listdir w2 media) as [names w3|[] w3] eqn:Hls; try done.
      * destruct (copy_entries _ _ _ _ _ _ names w3) as [[] w4|[] w4] eqn:Hce;
          try done.
        simplify_eq. apply copy_entries_raise in Hce.
        destruct Hce as (pre & n & post & wk & ? & ? & ?).
        split_and!; try done. right. by exists names, w3, pre, n, post, wk.
      * simplify_eq. split_and!; try done. by left.
  - intros [[Hout Hrm]|[(w1 & Hw1 & Hmk)|(w1 & w2 & Hw1 & Hmk & -> & Hcopy)]].
    + by rewrite Hout, Hrm.
    + by rewrite Hw1, Hmk.
    + rewrite Hw1, Hmk.
      destruct Hcopy as [->|(names & w3 & pre & n & post & wk & -> & -> & Hpre & Hn)];
        [done|].
      rewrite copy_entries_app, Hpre. simpl. by rewrite Hn.
Qed.
End prepare_output_facts.

(** ** The forest grows *)

Lemma find_parent_Some siblings cat m :
  find_parent siblings cat = Some m → m ∈ siblings ∧ slug m = cat.
Proof.
  unfold find_parent. intros H.
  assert (m ∈ filter (λ subpage, slug subpage = cat) siblings) as Hm.
  { destruct (filter _ siblings); simplify_eq/=. by left. }
  by apply list_elem_of_filter in Hm as [? ?].
Qed.

Lemma find_parent_elem siblings cat m :
  m ∈ siblings → slug m = cat → is_Some (find_parent siblings cat).
Proof.
  intros Hm Hs. unfold find_parent.
  assert (m ∈ filter (λ subpage, slug subpage = cat) siblings) as Hf.
  { by apply list_elem_of_filter. }
  destruct (filter _ siblings); [by apply elem_of_nil in Hf|by eexists].
Qed.

Lemma find_parent_app siblings more cat m :
  find_parent siblings cat = Some m →
  find_parent (siblings ++ more) cat = Some m.
Proof.
  unfold find_parent. rewrite filter_app.
  by destruct (filter _ siblings).
Qed.

Lemma find_parent_first pre m post cat :
  slug m = cat → (∀ x, x ∈ pre → slug x ≠ cat) →
  find_parent (pre ++ m :: post) cat = Some m.
Proof.
  intros Hm Hpre. unfold find_parent. rewrite filter_app.
  assert (filter (λ subpage, slug subpage = cat) pre = []) as ->.
  { induction pre as [|x pre IH]; [done|].
    rewrite filter_cons_False by (apply Hpre; by left).
    apply IH. intros y Hy. apply Hpre. by right. }
  simpl. by rewrite filter_cons_True.
Qed.

Lemma in_forest_deref st m : in_forest st m ↔ ∃ r, m ∈ deref st r.
Proof.
  unfold in_forest. split.
  - intros [H|[i H]]; [by exists Roots|by exists (SubpagesOf i)].
  - intros [[|i] H]; [by left|right; by exists i].
Qed.

(** A step appends to the sibling lists, or leaves them as they are. *)
Lemma tree_step_extends st p r :
  ∃ more, deref (tree_step st p) r = deref st r ++ more.
Proof.
  destruct (descend st Roots (category (meta p))) as [r'|] eqn:Hd.
  - destruct (tree_step_placed st p r' Hd) as (Ht & Hs & _).
    destruct r as [|i]; simpl.
    + rewrite Ht. eauto.
    + rewrite Hs. destruct r' as [|j]; [exists []; by rewrite app_nil_r|].
      destruct (decide (j = i)) as [->|Hne].
      * rewrite lookup_total_insert_eq. eauto.
      * rewrite lookup_total_insert_ne by done. exists []. by rewrite app_nil_r.
  - destruct (tree_step_orphan st p Hd) as (Ht & Hs & _).
    exists []. rewrite app_nil_r. destruct r; simpl; congruence.
Qed.

Lemma foldl_extends st l r :
  ∃ more, deref (foldl tree_step st l) r = deref st r ++ more.
Proof.
  revert st. induction l as [|p l IH]; intros st; simpl.
  - exists []. by rewrite app_nil_r.
  - destruct (IH (tree_step st p)) as [more ->].
    destruct (tree_step_extends st p r) as [more' ->].
    rewrite <-app_assoc. eauto.
Qed.

(** A lookup that succeeds goes on succeeding, and reaches the same
    list, when the lists grow at their end. *)
Lemma descend_extends st st' r cats r' :
  (∀ x, ∃ more, deref st' x = deref st x ++ more) →
  descend st r cats = Some r' → descend st' r cats = Some r'.
Proof.
  intros Hext. revert r. induction cats as [|c cs IH]; intros r; simpl;
    [done|].
  destruct (find_parent (deref st r) c) as [parent|] eqn:Hf; [|done].
  destruct (Hext r) as [more ->].
  rewrite (find_parent_app _ more _ _ Hf). apply IH.
Qed.

Lemma forest_extends st st' m :
  (∀ x, ∃ more, deref st' x = deref st x ++ more) →
  in_forest st m → in_forest st' m.
Proof.
  intros Hext [r Hm]%in_forest_deref. apply in_forest_deref. exists r.
  destruct (Hext r) as [more ->]. apply elem_of_app. by left.
Qed.

Lemma log_extends st l x : x ∈ t_log st → x ∈ t_log (foldl tree_step st l).
Proof.
  intros Hx. destruct (log_foldl st l) as [more ->].
  apply elem_of_app. by left.
Qed.

(** A step puts its page at the end of the list its path leads to. *)
Lemma tree_step_deref st p r :
  descend st Roots (category (meta p)) = Some r →
  ∃ l, deref (tree_step st p) r = l ++ [meta p].
Proof.
  intros Hd. destruct (tree_step_placed st p r Hd) as (Ht & Hs & _).
  destruct r as [|i]; simpl.
  - rewrite Ht. eauto.
  - rewrite Hs, lookup_total_insert_eq. eauto.
Qed.

Lemma no_page_lost st l p :
  p ∈ l →
  in_forest (foldl tree_step st l) (meta p) ∨
  (ERROR, orphan_message (path p)) ∈ t_log (foldl tree_step st l).
Proof.
  revert st. induction l as [|q l IH]; intros st Hp; [by apply elem_of_nil in Hp|].
  apply elem_of_cons in Hp as [<-|Hp]; [|by apply IH].
  simpl. destruct (descend st Roots (category (meta p))) as [r|] eqn:Hd.
  - left. apply (forest_extends (tree_step st p)).
    { intros x. apply foldl_extends. }
    apply in_forest_deref. exists r.
    destruct (tree_step_deref st p r Hd) as [k ->].
    apply elem_of_app. right. by apply list_elem_of_singleton.
  - right. apply log_extends.
    destruct (tree_step_orphan st p Hd) as (_ & _ & ->).
    apply elem_of_app. right. by apply list_elem_of_singleton.
Qed.

Lemma log_records st l x :
  x ∈ t_log (foldl tree_step st l) →
  x ∈ t_log st ∨ ∃ p, p ∈ l ∧ x = (ERROR, orphan_message (path p)).
Proof.
  revert st. induction l as [|q l IH]; intros st; simpl; [by left|].
  intros [Hx|(p & Hp & ->)]%IH.
  - destruct (descend st Roots (category (meta q))) as [r|] eqn:Hd.
    + destruct (tree_step_placed st q r Hd) as (_ & _ & Hl).
      rewrite Hl in Hx. by left.
    + destruct (tree_step_orphan st q Hd) as (_ & _ & Hl).
      rewrite Hl in Hx. apply elem_of_app in Hx as [Hx|Hx]; [by left|].
      apply list_elem_of_singleton in Hx as ->.
      right. exists q. split; [by left|done].
  - right. exists p. split; [by right|done].
Qed.

(** X10: [make_tree] loses no page silently: a page of the collection is
    in the forest when the loop is over, or the log has the error record
    of its source path; and the records [make_tree] adds to the log are
    error records of pages of the collection. *)
Theorem make_tree_no_page_lost (e : Engine) :
  (∀ p, p ∈ all_pages e →
     in_forest (tree_loop e) (meta p) ∨
     (ERROR, orphan_message (path p)) ∈ log (make_tree e)) ∧
  (∀ x, x ∈ log (make_tree e) →
     x ∈ log e ∨
     ∃ p, p ∈ all_pages e ∧ x = (ERROR, orphan_message (path p))).
Proof.
  split.
  - intros p Hp. apply no_page_lost. unfold sort_pages.
    by rewrite sort_by_perm.
  - intros x [Hx|(p & Hp & ->)]%log_records; [by left|].
    right. exists p. split; [|done]. unfold sort_pages in Hp.
    by rewrite sort_by_perm in Hp.
Qed.

(** X11: when several siblings have the slug a path asks for, the page
    goes under the first of them: a page whose path is one slug is
    appended to the subpages of the first root with this slug, and to no
    other list. *)
Theorem first_sibling_wins (st : TreeState) (p : Page) (pre post : list Meta)
    (m : Meta) (cat : string) :
  category (meta p) = [cat] →
  t_site_tree st = pre ++ m :: post →
  slug m = cat →
  (∀ x, x ∈ pre → slug x ≠ cat) →
  t_subpages (tree_step st p)
  = <[mid m := (t_subpages st !!! mid m) ++ [meta p]]> (t_subpages st) ∧
  t_site_tree (tree_step st p) = t_site_tree st ∧
  t_log (tree_step st p) = t_log st.
Proof.
  intros Hc Ht Hm Hpre.
  assert (descend st Roots (category (meta p)) = Some (SubpagesOf (mid m)))
    as Hd.
  { rewrite Hc. simpl. rewrite Ht. by rewrite find_parent_first. }
  destruct (tree_step_placed st p _ Hd) as (-> & -> & ->).
  by rewrite app_nil_r.
Qed.

(** ** Sites with every parent *)

(** The invariant of the loop over a sorted collection in which every
    page has its parent: nothing has been reported, and every page passed
    is in the list its path leads to. *)
Lemma parents_first_inv (st0 : TreeState) (l : list Page) :
  StronglySorted (λ p q, depth p ≤ depth q) l →
  (∀ p cs c, p ∈ l → category (meta p) = cs ++ [c] →
     ∃ q, q ∈ l ∧ category (meta q) = cs ∧ slug (meta q) = c) →
  ∀ l1 l2, l = l1 ++ l2 →
    t_log (foldl tree_step st0 l1) = t_log st0 ∧
    ∀ q, q ∈ l1 →
      ∃ r, descend (foldl tree_step st0 l1) Roots (category (meta q)) = Some r ∧
           meta q ∈ deref (foldl tree_step st0 l1) r.
Proof.
  intros Hsorted Hparents l1.
  induction l1 as [|p l1 IH] using rev_ind; intros l2 Hl.
  { split; [done|]. intros q Hq. by apply elem_of_nil in Hq. }
  rewrite <-app_assoc in Hl. simpl in Hl.
  destruct (IH (p :: l2) Hl) as [Hlog Hplaced].
  rewrite foldl_app. simpl.
  set (st := foldl tree_step st0 l1) in *.
  assert (∃ r, descend st Roots (category (meta p)) = Some r) as [r Hd].
  { destruct (category (meta p)) as [|c0 cs0] eqn:Hcat using rev_ind.
    { by exists Roots. }
    clear IHcs0.
    destruct (Hparents p cs0 c0) as (q & Hq & Hqc & Hqs).
    { rewrite Hl. apply elem_of_app. right. by left. }
    { done. }
    assert (depth q < depth p) as Hlt.
    { unfold depth. rewrite Hqc, Hcat, length_app. simpl. lia. }
    assert (q ∈ l1) as Hq1.
    { rewrite Hl in Hq. apply elem_of_app in Hq as [Hq|Hq]; [done|].
      exfalso. rewrite Hl in Hsorted.
      apply StronglySorted_app_1_r in Hsorted.
      apply StronglySorted_inv in Hsorted as [_ Hall].
      apply elem_of_cons in Hq as [->|Hq]; [lia|].
      rewrite Forall_forall in Hall. apply Hall in Hq. lia. }
    destruct (Hplaced q Hq1) as (r & Hr & Hin).
    rewrite Hqc in Hr.
    destruct (find_parent_elem (deref st r) c0 (meta q) Hin Hqs) as [m Hm].
    exists (SubpagesOf (mid m)).
    rewrite descend_app, Hr. simpl. by rewrite Hm. }
  destruct (tree_step_placed st p r Hd) as (_ & _ & Hlog').
  split; [by rewrite Hlog'|].
  intros q [Hq|Hq%list_elem_of_singleton]%elem_of_app.
  - destruct (Hplaced q Hq) as (rq & Hrq & Hin). exists rq. split.
    + apply (descend_extends st); [|done]. intros x. apply tree_step_extends.
    + destruct (tree_step_extends st p rq) as [more ->].
      apply elem_of_app. by left.
  - subst q. exists r. split.
    + apply (descend_extends st); [|done]. intros x. apply tree_step_extends.
    + destruct (tree_step_deref st p r Hd) as [k ->].
      apply elem_of_app. right. by apply list_elem_of_singleton.
Qed.

(** X12: the sort makes the outcome independent of the order in which the
    pages were loaded: when every page with a path has a page for its
    parent, a page whose path is the path without its last slug and whose
    slug is this last slug, [make_tree] reports no orphan, and every page
    is in the forest, in the list its path leads to. *)
Theorem complete_site_no_orphans (e : Engine) :
  (∀ p cs c, p ∈ all_pages e → category (meta p) = cs ++ [c] →
     ∃ q, q ∈ all_pages e ∧ category (meta q) = cs ∧ slug (meta q) = c) →
  log (make_tree e) = log e ∧
  ∀ p, p ∈ all_pages e →
    in_forest (tree_loop e) (meta p) ∧
    ∃ r, descend (tree_loop e) Roots (category (meta p)) = Some r ∧
         meta p ∈ deref (tree_loop e) r.
Proof.
  intros Hparents.
  destruct (parents_first_inv (tree_init e) (sort_pages (all_pages e)))
    with (l1 := sort_pages (all_pages e)) (l2 := @nil Page)
    as [Hlog Hplaced].
  - apply sort_by_sorted.
  - intros p cs c Hp Hc. unfold sort_pages in Hp.
    rewrite sort_by_perm in Hp.
    destruct (Hparents p cs c Hp Hc) as (q & Hq & ?). exists q.
    split; [|done]. unfold sort_pages. by rewrite sort_by_perm.
  - by rewrite app_nil_r.
  - split; [done|]. intros p Hp.
    destruct (Hplaced p) as (r & Hr & Hin).
    { unfold sort_pages. by rewrite sort_by_perm. }
    split; [|by exists r]. apply in_forest_deref. by exists r.
Qed.

(** ** Paths in the forest *)

Section forest_paths.
(** The identifier of a mapping tells it from the other mappings. *)
Context (metas : list Meta).
Context (ids : ∀ m n, m ∈ metas → n ∈ metas → mid m = mid n → m = n).

(** The path that leads to a list is the path of the pages in it. *)
Lemma descend_path st cats r :
  paths_inv metas st →
  descend st Roots cats = Some r →
  match r with
  | Roots => cats = []
  | SubpagesOf i =>
      ∃ n, in_forest st n ∧ mid n = i ∧ cats = category n ++ [slug n]
  end.
Proof.
  intros (Hmetas & Hroots & Hsubs). revert r.
  induction cats as [|c cs IH] using rev_ind; intros r.
  { simpl. by intros [= <-]. }
  rewrite descend_app.
  destruct (descend st Roots cs) as [r'|] eqn:Hd; [|done]. simpl.
  destruct (find_parent (deref st r') c) as [n|] eqn:Hf; [|done].
  intros [= <-]. apply find_parent_Some in Hf as [Hn Hs].
  exists n. split; [apply in_forest_deref; by exists r'|]. split; [done|].
  rewrite Hs. f_equal.
  specialize (IH r' eq_refl). destruct r' as [|j]; simpl in *.
  - rewrite IH. symmetry. by apply Hroots.
  - destruct IH as (n1 & Hn1 & Hj1 & ->).
    destruct (Hsubs j n Hn) as (n2 & Hn2 & Hj2 & ->).
    replace n2 with n1; [done|].
    apply ids; [by apply Hmetas|by apply Hmetas|congruence].
Qed.

Lemma paths_inv_step st p :
  meta p ∈ metas → paths_inv metas st → paths_inv metas (tree_step st p).
Proof.
  intros Hp Hinv. pose proof Hinv as (Hmetas & Hroots & Hsubs).
  assert (∀ m, in_forest st m → in_forest (tree_step st p) m) as Hgrow.
  { intros m. apply forest_extends. intros x. apply tree_step_extends. }
  split_and!.
  - intros m [Hm|[-> _]]%tree_step_forest; [by apply Hmetas|done].
  - intros m. rewrite tree_step_site_tree.
    intros [Hm|Hm]%elem_of_app; [by apply Hroots|].
    case_decide; [|by apply elem_of_nil in Hm].
    by apply list_elem_of_singleton in Hm as ->.
  - intros i m Hm.
    assert (m ∈ t_subpages st !!! i →
            ∃ n, in_forest (tree_step st p) n ∧ mid n = i ∧
                 category m = category n ++ [slug n]) as Hold.
    { intros (n & ? & ? & ?)%Hsubs. exists n. split_and!; try done.
      by apply Hgrow. }
    destruct (descend st Roots (category (meta p))) as [r|] eqn:Hd.
    + destruct (tree_step_placed st p r Hd) as (_ & Hs & _).
      rewrite Hs in Hm. destruct r as [|j]; [by apply Hold|].
      destruct (decide (j = i)) as [->|Hne].
      * rewrite lookup_total_insert_eq in Hm.
        apply elem_of_app in Hm as [Hm|Hm]; [by apply Hold|].
        apply list_elem_of_singleton in Hm as ->.
        destruct (descend_path st _ _ Hinv Hd) as (n & ? & ? & ?).
        exists n. split_and!; try done. by apply Hgrow.
      * rewrite lookup_total_insert_ne in Hm by done. by apply Hold.
    + destruct (tree_step_orphan st p Hd) as (_ & Hs & _).
      rewrite Hs in Hm. by apply Hold.
Qed.

Lemma paths_inv_foldl st l :
  (∀ p, p ∈ l → meta p ∈ metas) →
  paths_inv metas st → paths_inv metas (foldl tree_step st l).
Proof.
  revert st. induction l as [|p l IH]; intros st Hl Hinv; [done|].
  simpl. apply IH.
  - intros q Hq. apply Hl. by right.
  - apply paths_inv_step; [|done]. apply Hl. by left.
Qed.
End forest_paths.

Lemma paths_inv_loop (e : Engine) :
  (∀ p q, p ∈ all_pages e → q ∈ all_pages e →
     mid (meta p) = mid (meta q) → meta p = meta q) →
  subpages e = ∅ →
  paths_inv (meta <$> all_pages e) (tree_loop e).
Proof.
  intros Hids Hsub. unfold tree_loop. apply paths_inv_foldl.
  - intros m n (p & -> & Hp)%list_elem_of_fmap (q & -> & Hq)%list_elem_of_fmap.
    by apply Hids.
  - intros p Hp. apply list_elem_of_fmap_2. unfold sort_pages in Hp.
    by rewrite sort_by_perm in Hp.
  - split_and!.
    + intros m [Hm|[i Hm]]; simpl in Hm.
      * by apply elem_of_nil in Hm.
      * rewrite Hsub, lookup_total_empty in Hm. by apply elem_of_nil in Hm.
    + intros m Hm. by apply elem_of_nil in Hm.
    + intros i m Hm. simpl in Hm.
      rewrite Hsub, lookup_total_empty in Hm. by apply elem_of_nil in Hm.
Qed.

(** X13: the forest follows the paths.  When the mappings of the pages
    have identifiers of their own and no subpages before [make_tree], the
    subpages of a page have the path of the page followed by its slug; a
    list of subpages that is not empty is the list of a page of the
    collection that is in the forest itself, so that nothing hangs under
    an orphan; and a path leads to the subpages of a page with this path
    for its own path and slug. *)
Theorem forest_follows_paths (e : Engine) :
  (∀ p q, p ∈ all_pages e → q ∈ all_pages e →
     mid (meta p) = mid (meta q) → meta p = meta q) →
  subpages e = ∅ →
  (∀ p m, p ∈ all_pages e →
     m ∈ subpages (make_tree e) !!! mid (meta p) →
     category m = category (meta p) ++ [slug (meta p)]) ∧
  (∀ i m, m ∈ subpages (make_tree e) !!! i →
     ∃ p, p ∈ all_pages e ∧ mid (meta p) = i ∧
          in_forest (tree_loop e) (meta p)) ∧
  (∀ cats i, descend (tree_loop e) Roots cats = Some (SubpagesOf i) →
     ∃ p, p ∈ all_pages e ∧ mid (meta p) = i ∧
          cats = category (meta p) ++ [slug (meta p)]).
Proof.
  intros Hids Hsub.
  pose proof (paths_inv_loop e Hids Hsub) as Hinv.
  pose proof Hinv as (Hmetas & _ & Hsubs).
  assert (∀ m n, m ∈ meta <$> all_pages e → n ∈ meta <$> all_pages e →
                 mid m = mid n → m = n) as Hids'.
  { intros m n (p & -> & Hp)%list_elem_of_fmap (q & -> & Hq)%list_elem_of_fmap.
    by apply Hids. }
  split_and!.
  - intros p m Hp Hm. simpl in Hm.
    destruct (Hsubs _ _ Hm) as (n & Hn & Hi & ->).
    replace n with (meta p); [done|].
    apply Hids'; [by apply list_elem_of_fmap_2|by apply Hmetas|done].
  - intros i m Hm. simpl in Hm.
    destruct (Hsubs _ _ Hm) as (n & Hn & Hi & _).
    destruct (proj1 (list_elem_of_fmap _ _ _) (Hmetas n Hn)) as (p & -> & Hp).
    by exists p.
  - intros cats i Hd.
    destruct (descend_path _ Hids' _ _ _ Hinv Hd) as (n & Hn & Hi & ->).
    destruct (proj1 (list_elem_of_fmap _ _ _) (Hmetas n Hn)) as (p & -> & Hp).
    by exists p.
Qed.

(** ** The log of a run, and the configuration once more *)

Section log_facts.
Context {World : Type} (now : World → nat).
Context (render : @Store World → nat → Page → @Store World * list Page).
Context (write : @Store World → Page → @Store World).

Lemma render_step_log opts (st : @RState World) p :
  let ms := make_templ_vars now opts (r_pages st) (r_store st) in
  r_log (render_step now render write opts st p)
  = r_log st ++
    (if (render ms.2 ms.1 p).2 is [] then []
     else [(DEBUG, "found new_pages"%string)]).
Proof.
  unfold render_step.
  destruct (make_templ_vars _ _ _ _) as [lv s1]. simpl.
  destruct (render s1 lv p) as [s2 [|q new]]; simpl; by rewrite ?app_nil_r.
Qed.

Lemma render_loop_log opts fuel (s : @Store World) init lg fin :
  render_loop now render write fuel opts 0 (mkRState s init [] lg) = Some fin →
  r_log fin
  = lg ++ (r_calls fin ≫= λ c,
             if spawned c is [] then []
             else [(DEBUG, "found new_pages"%string)]).
Proof.
  intros Hrun.
  destruct (render_loop_ind now render write opts (λ i st,
    r_log st
    = lg ++ (r_calls st ≫= λ c,
               if spawned c is [] then []
               else [(DEBUG, "found new_pages"%string)])))
    with (fuel := fuel) (i := 0) (st := mkRState s init [] lg) (fin := fin)
    as (j & Hlog & _); [| |done|done].
  - intros i st p Hlog Hp.
    destruct (render_step_eq now render write opts st p) as (_ & _ & ->).
    rewrite render_step_log, Hlog, bind_app, <-app_assoc. simpl.
    by rewrite app_nil_r.
  - simpl. by rewrite app_nil_r.
Qed.

(** X16: [render_site] logs one record at the debug level for every render
    call that returned pages, in the order of the calls, and nothing
    else: the records of [make_tree] are still there, and no record at
    another level is added. *)
Theorem render_site_log fuel (w : World) (e : Engine) fin :
  render_site now render write fuel w e = Some fin →
  r_log fin
  = log e ++ (r_calls fin ≫= λ c,
                if spawned c is [] then []
                else [(DEBUG, "found new_pages"%string)]) ∧
  ∀ x, x ∈ r_log fin → x ∈ log e ∨ x = (DEBUG, "found new_pages"%string).
Proof.
  intros Hrun. pose proof (render_loop_log _ _ _ _ _ _ Hrun) as Hlog.
  split; [done|]. rewrite Hlog.
  intros x [Hx|Hx]%elem_of_app; [by left|]. right.
  apply list_elem_of_bind in Hx as (c & Hx & _).
  destruct (spawned c); [by apply elem_of_nil in Hx|].
  by apply list_elem_of_singleton in Hx.
Qed.

(** X15: the binding of [author] of lines 259-260 changes nothing: the
    merge of the configuration has bound the key already, to the same
    value, [author] not being among the keys it skips. *)
Theorem author_binding_redundant opts ls (s : @Store World) d :
  cells s !! ls = Some (ODict d) →
  bind_author opts ls (merge_options opts ls s) = merge_options opts ls s.
Proof.
  intros Hls. rewrite (merge_options_cells opts ls s d Hls).
  erewrite bind_author_cells; last first.
  { simpl. apply list_lookup_insert_eq. by eapply lookup_lt_Some. }
  simpl. rewrite set_cells_set_cells, list_insert_insert_eq.
  by rewrite bind_author_redundant.
Qed.

(** X14: the configuration wins over the engine: a key of the
    configuration that the merge does not skip is in the site section
    with the value of the configuration, also when it is one of [title],
    [datetime], [tags], [pages] and [categories], whose entry of the
    literal is lost then; the keys the merge skips are not in the site
    section; and the title is the value of [site_title] when the
    configuration has no key [title]. *)
Theorem config_shadows_site opts pages (s : @Store World) :
  ∃ view,
    site_view (make_templ_vars now opts pages s).2
      (make_templ_vars now opts pages s).1 = Some view ∧
    (∀ k v, opts !! k = Some v → k ∉ reserved → view !! k = Some (SConf v)) ∧
    (∀ k v, opts !! k = Some v →
       k ∈ ["title"; "datetime"; "tags"; "pages"; "categories"]%string →
       view !! k = Some (SConf v)) ∧
    (∀ k, k ∈ reserved → view !! k = None) ∧
    (opts !! "title"%string = None →
     view !! "title"%string
     = Some (SConf (default (CStr "Untitled") (opts !! "site_title"%string)))).
Proof.
  destruct (site_merges_config now opts pages s) as (view & Hview & Hin & Hout).
  exists view. split_and!; try done.
  - intros k v Hk Hk'. apply Hin; [done|]. unfold reserved.
    intros Hr. set_solver.
  - intros Ht. destruct (make_templ_vars_view now opts pages s) as [Hv _].
    rewrite Hv in Hview. simplify_eq.
    by rewrite site_value_lookup, Ht.
Qed.
End log_facts.

(** ** Exceptions in the render loop *)

Section exceptions_facts.
Context {World : Type} (now : World → nat).
Context (render : @Store World → nat → Page → Res (@Store World) (list Page)).
Context (write : @Store World → Page → Res (@Store World) unit).

(** A step that returns is the step of the loop without exceptions, and
    its two calls returned. *)
Lemma render_step_exn_ok opts (st st' : @RState World) p :
  render_step_exn now render write opts st p = Ok tt st' →
  st' = render_step now (render_of render) (write_of write) opts st p ∧
  ∃ new s2 s3,
    render (make_templ_vars now opts (r_pages st) (r_store st)).2
      (make_templ_vars now opts (r_pages st) (r_store st)).1 p
    = Ok new s2 ∧
    write s2 p = Ok tt s3.
Proof.
  unfold render_step_exn, render_step, render_of, write_of.
  destruct (make_templ_vars _ _ _ _) as [lv s1]. simpl.
  destruct (render s1 lv p) as [new s2|e s2]; [|intros H; discriminate H].
  destruct (write s2 p) as [[] s3|e s3] eqn:Hw; [|intros H; discriminate H].
  destruct new as [|q new]; intros [= <-]; (split; [done|]);
    eexists _, s2, s3; by rewrite Hw.
Qed.

(** What a step that raises leaves: the worklist and the log as they
    were, the store the call that raised left, and in the trace the
    render call when it is the write call that raised. *)
Lemma render_step_exn_raise opts (st st' : @RState World) p e :
  render_step_exn now render write opts st p = Raise e st' →
  r_pages st' = r_pages st ∧ r_log st' = r_log st ∧
  ∃ lv s,
    make_templ_vars now opts (r_pages st) (r_store st) = (lv, s) ∧
    ((r_calls st' = r_calls st ∧ render s lv p = Raise e (r_store st')) ∨
     (∃ new s2,
        r_calls st' = r_calls st ++ [CallRender p lv s new] ∧
        render s lv p = Ok new s2 ∧
        write s2 p = Raise e (r_store st'))).
Proof.
  unfold render_step_exn.
  destruct (make_templ_vars _ _ _ _) as [lv s1].
  destruct (render s1 lv p) as [new s2|e' s2] eqn:Hr.
  - destruct (write s2 p) as [[] s3|e' s3] eqn:Hw.
    + destruct new; intros H; discriminate H.
    + intros [= <- <-]. simpl. split_and!; try done.
      exists lv, s1. split; [done|]. right. by exists new, s2.
  - intros [= <- <-]. simpl. split_and!; try done.
    exists lv, s1. split; [done|]. by left.
Qed.

(** A run that comes to its end without an exception is a run of the loop
    without exceptions. *)
Lemma render_loop_exn_ok opts fuel i (st fin : @RState World) :
  render_loop_exn now render write fuel opts i st = Some (Ok tt fin) →
  render_loop now (render_of render) (write_of write) fuel opts i st
  = Some fin.
Proof.
  revert i st. induction fuel as [|fuel IH]; intros i st; simpl.
  - destruct (r_pages st !! i); [intros H; discriminate H|].
    by intros [= <-].
  - destruct (r_pages st !! i) as [p|]; [|by intros [= <-]].
    destruct (render_step_exn now render write opts st p) as [[] st'|e st']
      eqn:Hstep; [|intros H; discriminate H].
    apply render_step_exn_ok in Hstep as [-> _]. apply IH.
Qed.

(** Every call of the trace of such a run returned, and the write call
    that follows a render call was made in the store it left. *)
Lemma render_loop_exn_returned opts fuel i (st fin : @RState World) :
  (∀ n p lv s new, r_calls st !! n = Some (CallRender p lv s new) →
     ∃ s2 s3, render s lv p = Ok new s2 ∧ write s2 p = Ok tt s3) →
  render_loop_exn now render write fuel opts i st = Some (Ok tt fin) →
  ∀ n p lv s new, r_calls fin !! n = Some (CallRender p lv s new) →
    ∃ s2 s3, render s lv p = Ok new s2 ∧ write s2 p = Ok tt s3.
Proof.
  revert i st. induction fuel as [|fuel IH]; intros i st Hst; simpl.
  - destruct (r_pages st !! i); [intros H; discriminate H|].
    by intros [= <-].
  - destruct (r_pages st !! i) as [p|]; [|by intros [= <-]].
    destruct (render_step_exn now render write opts st p) as [[] st'|e st']
      eqn:Hstep; [|intros H; discriminate H].
    apply IH. clear IH.
    apply render_step_exn_ok in Hstep as (-> & new & s2 & s3 & Hr & Hw).
    destruct (render_step_eq now (render_of render) (write_of write) opts
                st p) as (_ & _ & Hc).
    cbv zeta in Hc. rewrite Hc. clear Hc.
    remember (make_templ_vars now opts (r_pages st) (r_store st)) as ms
      eqn:Hms.
    assert (render_of render ms.2 ms.1 p = (s2, new)) as Hrr.
    { unfold render_of. by rewrite Hr. }
    rewrite Hrr. simpl.
    intros n q lv s new' [Hn|[_ Hn]]%lookup_app_Some; [by eapply Hst|].
    remember (n - length (r_calls st)) as k eqn:Hk.
    destruct k as [|[|k]]; cbv [lookup list_lookup] in Hn;
      [|discriminate Hn|discriminate Hn].
    injection Hn as <- <- <- <-. by exists s2, s3.
Qed.

(** When a call raises, the entries before its page have been through
    the loop, and nothing has been done for the entries after it; the
    store is the one the call that raised left. *)
Lemma render_loop_exn_raise opts fuel (s0 : @Store World) i
    (st fin : @RState World) e :
  length (r_calls st) = 2 * i →
  r_store st
  = run_calls (render_of render) (write_of write) s0 (r_calls st) →
  r_calls st ≫= rendered = take i (r_pages st) →
  r_calls st ≫= written = take i (r_pages st) →
  render_loop_exn now render write fuel opts i st = Some (Raise e fin) →
  ∃ j p lv s,
    r_pages fin !! j = Some p ∧
    r_calls fin ≫= written = take j (r_pages fin) ∧
    make_templ_vars now opts (r_pages fin)
      (run_calls (render_of render) (write_of write) s0
         (take (2 * j) (r_calls fin)))
    = (lv, s) ∧
    ((length (r_calls fin) = 2 * j ∧
      r_calls fin ≫= rendered = take j (r_pages fin) ∧
      render s lv p = Raise e (r_store fin)) ∨
     (∃ new s2,
        length (r_calls fin) = 2 * j + 1 ∧
        r_calls fin !! (2 * j) = Some (CallRender p lv s new) ∧
        r_calls fin ≫= rendered = take (S j) (r_pages fin) ∧
        render s lv p = Ok new s2 ∧
        write s2 p = Raise e (r_store fin))).
Proof.
  revert i st. induction fuel as [|fuel IH]; intros i st Hlen Hs Hr Hw;
    cbn [render_loop_exn].
  - destruct (r_pages st !! i); intros H; discriminate H.
  - destruct (r_pages st !! i) as [p|] eqn:Hp; [|intros H; discriminate H].
    destruct (render_step_exn now render write opts st p) as [[] st'|e' st']
      eqn:Hstep.
    + apply render_step_exn_ok in Hstep as [-> _].
      destruct (render_step_eq now (render_of render) (write_of write)
                  opts st p) as (Hs' & Hp' & Hc').
      cbv zeta in Hs', Hp', Hc'.
      remember (make_templ_vars now opts (r_pages st) (r_store st)) as ms
        eqn:Hms.
      remember (render_of render ms.2 ms.1 p) as rr eqn:Hrr.
      apply lookup_lt_Some in Hp as Hlt.
      apply IH.
      * rewrite Hc', length_app.
        change (length [CallRender p ms.1 ms.2 rr.2; CallWrite p]) with 2.
        lia.
      * rewrite Hs', Hc', run_calls_app, <-Hs. by rewrite Hrr.
      * rewrite Hp', Hc', bind_app, Hr, take_app_le by lia.
        by rewrite (take_S_r _ _ p).
      * rewrite Hp', Hc', bind_app, Hw, take_app_le by lia.
        by rewrite (take_S_r _ _ p).
    + intros [= <- <-].
      apply render_step_exn_raise in Hstep
        as (Hpages & _ & lv & s & Hms & Hcase).
      exists i, p, lv, s. rewrite Hpages.
      destruct Hcase as [[Hcalls Hraise]|(new & s2 & Hcalls & Hok & Hraise)].
      * rewrite Hcalls, <-Hlen, firstn_all, <-Hs, Hlen.
        split_and!; try done. by left.
      * rewrite Hcalls, !bind_app, <-Hlen, take_app_length, <-Hs, Hlen.
        split_and!; try done.
        { rewrite Hw. apply app_nil_r. }
        right. exists new, s2. split_and!; try done.
        -- rewrite length_app. simpl. lia.
        -- rewrite <-Hlen. by rewrite list_lookup_middle.
        -- rewrite Hr. by rewrite (take_S_r _ _ p).
Qed.

(** The loop comes to an end, by an exception or not, when the spawn
    chains of the entries still to come are finite in the stores of the
    run: those with a property that the store of the loop has and that the
    construction of a context and the calls that return keep. *)
Lemma render_loop_exn_terminates (Q : @Store World → Prop) opts i
    (st : @RState World) :
  (∀ s c, Q s → Q (set_cells s c)) →
  (∀ s lv p new s', Q s → render s lv p = Ok new s' → Q s') →
  (∀ s p s', Q s → write s p = Ok tt s' → Q s') →
  Q (r_store st) →
  Forall (Acc (flip (spawns_in (render_of render) Q))) (drop i (r_pages st)) →
  ∃ fuel, is_Some (render_loop_exn now render write fuel opts i st).
Proof.
  intros Hcells Hrender Hwrite HQ H%Forall_Acc_expands.
  remember (drop i (r_pages st)) as q eqn:Hq.
  revert i st Hq HQ. induction H as [q _ IH]. intros i st -> HQ.
  destruct (r_pages st !! i) as [p|] eqn:Hp.
  2: { exists 0. simpl. rewrite Hp. by eexists. }
  destruct (render_step_exn now render write opts st p) as [[] st'|e st']
    eqn:Hstep.
  2: { exists 1. simpl. rewrite Hp, Hstep. by eexists. }
  apply render_step_exn_ok in Hstep as (-> & new & s2 & s3 & Hr & Hw).
  destruct (render_step_eq now (render_of render) (write_of write) opts st p)
    as (Hs' & Hp' & _).
  cbv zeta in Hs', Hp'.
  destruct (make_templ_vars_view now opts (r_pages st) (r_store st))
    as (_ & c & Hms).
  remember (make_templ_vars now opts (r_pages st) (r_store st)) as ms
    eqn:Hmsdef.
  assert (Q ms.2) as HQ' by (rewrite Hms; by apply Hcells).
  assert (render_of render ms.2 ms.1 p = (s2, new)) as Hrr.
  { unfold render_of. by rewrite Hr. }
  rewrite Hrr in Hs', Hp'. simpl in Hs', Hp'.
  assert (write_of write s2 p = s3) as Hww.
  { unfold write_of. by rewrite Hw. }
  rewrite Hww in Hs'.
  destruct (IH (drop (S i)
                  (r_pages (render_step now (render_of render)
                              (write_of write) opts st p))))
    with (i := S i)
         (st := render_step now (render_of render) (write_of write) opts st p)
    as (fuel & Hrun); [|done| |].
  - eexists p, (drop (S i) (r_pages st)), new. split_and!.
    + by rewrite <-drop_S.
    + rewrite Hp'. rewrite drop_app_le; [done|].
      apply lookup_lt_Some in Hp. lia.
    + apply Forall_forall. intros q Hq. exists ms.2, ms.1.
      split; [done|]. by rewrite Hrr.
  - rewrite Hs'. eapply Hwrite; [|done]. by eapply Hrender.
  - exists (S fuel). simpl. rewrite Hp.
    assert (render_step_exn now render write opts st p
            = Ok tt (render_step now (render_of render) (write_of write)
                       opts st p)) as ->; [|done].
    destruct (render_step_exn now render write opts st p) as [[] st'|e st']
      eqn:Hstep.
    + by apply render_step_exn_ok in Hstep as [-> _].
    + exfalso. apply render_step_exn_raise in Hstep
        as (_ & _ & lv & s & Hms' & Hcase).
      rewrite <-Hmsdef in Hms'.
      assert (ms.1 = lv ∧ ms.2 = s) as [<- <-] by (by rewrite Hms').
      destruct Hcase as [[_ Hx]|(? & ? & _ & Hx & Hy)]; [congruence|].
      rewrite Hr in Hx. injection Hx as <- <-. congruence.
Qed.

(** X20: an exception of a render or write call ends the loop at once.
    The entries before the page have been rendered and written once each,
    in order; the page itself has not been written, and has been rendered
    when it is its write call that raised; no entry after it has been
    rendered or written, and the worklist holds them still.  The store
    the run is left in is the store the call that raised left, the
    context of the page having been built in the store the calls before
    it left. *)
Theorem render_raise_abandons fuel (w : World) (e : Engine) exn fin :
  render_site_exn now render write fuel w e = Some (Raise exn fin) →
  ∃ j p lv s,
    r_pages fin !! j = Some p ∧
    r_calls fin ≫= written = take j (r_pages fin) ∧
    make_templ_vars now (options e) (r_pages fin)
      (run_calls (render_of render) (write_of write)
         (r_store (render_init w e)) (take (2 * j) (r_calls fin)))
    = (lv, s) ∧
    ((length (r_calls fin) = 2 * j ∧
      r_calls fin ≫= rendered = take j (r_pages fin) ∧
      render s lv p = Raise exn (r_store fin)) ∨
     (∃ new s2,
        length (r_calls fin) = 2 * j + 1 ∧
        r_calls fin !! (2 * j) = Some (CallRender p lv s new) ∧
        r_calls fin ≫= rendered = take (S j) (r_pages fin) ∧
        render s lv p = Ok new s2 ∧
        write s2 p = Raise exn (r_store fin))).
Proof.
  unfold render_site_exn.
  apply (render_loop_exn_raise (options e) fuel (r_store (render_init w e)) 0
           (render_init w e) fin exn); try done; by rewrite take_0.
Qed.
End exceptions_facts.

(** ** Exceptions while the pages are loaded *)

Section load_pages_exn_facts.
Context {Renderer : Type}.
Context (extensions : Renderer → list string).
Context (all_renderers : list Renderer).
Context (Plain BaseRenderer : Renderer).
Context (path_join : string → string → string).
Context (new_page : string → gmap string ConfVal → Renderer → Exn + Page).
Context (published : Page → bool).

Lemma load_flat_exn_app files files' e :
  load_flat_exn extensions all_renderers Plain BaseRenderer path_join
    new_page published (files ++ files') e
  = match load_flat_exn extensions all_renderers Plain BaseRenderer
            path_join new_page published files e with
    | Ok _ e' =>
        load_flat_exn extensions all_renderers Plain BaseRenderer path_join
          new_page published files' e'
    | Raise exn e' => Raise exn e'
    end.
Proof.
  revert e. induction files as [|[root f] files IH]; intros e; simpl; [done|].
  destruct (load_file_exn _ _ _ _ _ _ _ root e f); [apply IH|done].
Qed.

Lemma load_files_exn_flat root files e :
  load_files_exn extensions all_renderers Plain BaseRenderer path_join
    new_page published root files e
  = load_flat_exn extensions all_renderers Plain BaseRenderer path_join
      new_page published ((λ f, (root, f)) <$> files) e.
Proof.
  revert e. induction files as [|f files IH]; intros e; simpl; [done|].
  destruct (load_file_exn _ _ _ _ _ _ _ root e f); [apply IH|done].
Qed.

(** The two loops are one loop over the files of the walk. *)
Lemma load_pages_exn_flat walk e :
  load_pages_exn extensions all_renderers Plain BaseRenderer path_join
    new_page published walk e
  = load_flat_exn extensions all_renderers Plain BaseRenderer path_join
      new_page published (walk_files walk) e.
Proof.
  revert e. induction walk as [|[[root dirs] files] walk IH]; intros e;
    [done|].
  unfold walk_files. rewrite bind_cons. fold (walk_files walk).
  rewrite load_flat_exn_app, <-load_files_exn_flat. simpl.
  destruct (load_files_exn _ _ _ _ _ _ _ root files e); [apply IH|done].
Qed.

(** What the loop leaves: when it comes to its end, every file that is
    not hidden has given a page; when it raises, the files before the one
    whose page could not be made have given theirs. *)
Lemma load_flat_exn_spec files e :
  match load_flat_exn extensions all_renderers Plain BaseRenderer path_join
          new_page published files e with
  | Ok _ e' =>
      ∃ pages,
        Forall2 (λ rf p,
                   new_page (path_join rf.1 rf.2) (options e)
                     (select_renderer extensions all_renderers Plain
                        BaseRenderer rf.2).1 = inr p)
          (filter (λ rf, hidden rf.2 = false) files) pages ∧
        e' = mkEngine (options e)
               (all_pages e ++ filter (λ p, published p = true) pages)
               (categories e) (subpages e)
               (log e ++
                (filter (λ rf, hidden rf.2 = false) files
                 ≫= λ rf, (select_renderer extensions all_renderers Plain
                             BaseRenderer rf.2).2))
  | Raise exn e' =>
      ∃ pre rf post pages,
        filter (λ rf, hidden rf.2 = false) files = pre ++ rf :: post ∧
        Forall2 (λ rf p,
                   new_page (path_join rf.1 rf.2) (options e)
                     (select_renderer extensions all_renderers Plain
                        BaseRenderer rf.2).1 = inr p)
          pre pages ∧
        new_page (path_join rf.1 rf.2) (options e)
          (select_renderer extensions all_renderers Plain BaseRenderer
             rf.2).1 = inl exn ∧
        e' = mkEngine (options e)
               (all_pages e ++ filter (λ p, published p = true) pages)
               (categories e) (subpages e)
               (log e ++
                ((pre ++ [rf])
                 ≫= λ rf, (select_renderer extensions all_renderers Plain
                             BaseRenderer rf.2).2))
  end.
Proof.
  revert e. induction files as [|[root f] files IH]; intros e.
  { simpl. exists []. rewrite filter_nil. split; [constructor|].
    simpl. rewrite filter_nil, !app_nil_r. by destruct e. }
  cbn [load_flat_exn]. unfold load_file_exn. rewrite filter_cons. simpl.
  destruct (hidden f) eqn:Hf.
  { rewrite decide_False by done. apply IH. }
  rewrite decide_True by done.
  destruct (select_renderer extensions all_renderers Plain BaseRenderer f)
    as [r warnings] eqn:Hsel.
  destruct (new_page (path_join root f) (options e) r) as [exn|p] eqn:Hp.
  - exists [], (root, f), (filter (λ rf, hidden rf.2 = false) files), [].
    simpl. rewrite Hsel. simpl. rewrite filter_nil, !app_nil_r.
    split_and!; done.
  - match goal with |- context [load_flat_exn _ _ _ _ _ _ _ files ?e1] =>
      specialize (IH e1);
      destruct (load_flat_exn extensions all_renderers Plain BaseRenderer
                  path_join new_page published files e1) as [[] e'|exn e']
    end; simpl in IH.
    + destruct IH as (pages & Hpages & ->). exists (p :: pages).
      split; [constructor; [simpl; by rewrite Hsel|done]|].
      rewrite filter_cons. simpl. rewrite Hsel. simpl.
      destruct (published p); simpl; by rewrite <-?app_assoc.
    + destruct IH as (pre & rf & post & pages & -> & Hpages & Hrf & ->).
      exists ((root, f) :: pre), rf, post, (p :: pages).
      split_and!; try done.
      * constructor; [simpl; by rewrite Hsel|done].
      * rewrite filter_cons. simpl. rewrite Hsel. simpl.
        destruct (published p); simpl; by rewrite <-?app_assoc.
Qed.

Lemma load_pages_exn_outcome walk e :
  match load_pages_exn extensions all_renderers Plain BaseRenderer path_join
          new_page published walk e with
  | Ok _ e' =>
      ∃ pages,
        Forall2 (λ rf p,
                   new_page (path_join rf.1 rf.2) (options e)
                     (select_renderer extensions all_renderers Plain
                        BaseRenderer rf.2).1 = inr p)
          (filter (λ rf, hidden rf.2 = false) (walk_files walk)) pages ∧
        e' = mkEngine (options e)
               (all_pages e ++ filter (λ p, published p = true) pages)
               (categories e) (subpages e)
               (log e ++
                (filter (λ rf, hidden rf.2 = false) (walk_files walk)
                 ≫= λ rf, (select_renderer extensions all_renderers Plain
                             BaseRenderer rf.2).2))
  | Raise exn e' =>
      ∃ pre rf post pages,
        filter (λ rf, hidden rf.2 = false) (walk_files walk)
        = pre ++ rf :: post ∧
        Forall2 (λ rf p,
                   new_page (path_join rf.1 rf.2) (options e)
                     (select_renderer extensions all_renderers Plain
                        BaseRenderer rf.2).1 = inr p)
          pre pages ∧
        new_page (path_join rf.1 rf.2) (options e)
          (select_renderer extensions all_renderers Plain BaseRenderer
             rf.2).1 = inl exn ∧
        e' = mkEngine (options e)
               (all_pages e ++ filter (λ p, published p = true) pages)
               (categories e) (subpages e)
               (log e ++
                ((pre ++ [rf])
                 ≫= λ rf, (select_renderer extensions all_renderers Plain
                             BaseRenderer rf.2).2))
  end.
Proof. rewrite load_pages_exn_flat. apply load_flat_exn_spec. Qed.

(** X21: an exception of the page constructor is caught nowhere in
    [load_pages] and ends it at the first file, in the order of the walk
    and the hidden files apart, whose page cannot be made: the pages of
    the files before it are in the collection, the published ones, the
    warnings of these files and of the file itself are in the log, and
    no file after it is looked at.  Without an exception every file that
    is not hidden has given its page. *)
Theorem load_pages_raises walk e :
  (∀ exn e',
     load_pages_exn extensions all_renderers Plain BaseRenderer path_join
       new_page published walk e = Raise exn e' →
     ∃ pre rf post pages,
       filter (λ rf, hidden rf.2 = false) (walk_files walk)
       = pre ++ rf :: post ∧
       Forall2 (λ rf p,
                  new_page (path_join rf.1 rf.2) (options e)
                    (select_renderer extensions all_renderers Plain
                       BaseRenderer rf.2).1 = inr p)
         pre pages ∧
       new_page (path_join rf.1 rf.2) (options e)
         (select_renderer extensions all_renderers Plain BaseRenderer
            rf.2).1 = inl exn ∧
       e' = mkEngine (options e)
              (all_pages e ++ filter (λ p, published p = true) pages)
              (categories e) (subpages e)
              (log e ++
               ((pre ++ [rf])
                ≫= λ rf, (select_renderer extensions all_renderers Plain
                            BaseRenderer rf.2).2))) ∧
  (∀ e',
     load_pages_exn extensions all_renderers Plain BaseRenderer path_join
       new_page published walk e = Ok tt e' →
     ∃ pages,
       Forall2 (λ rf p,
                  new_page (path_join rf.1 rf.2) (options e)
                    (select_renderer extensions all_renderers Plain
                       BaseRenderer rf.2).1 = inr p)
         (filter (λ rf, hidden rf.2 = false) (walk_files walk)) pages ∧
       e' = mkEngine (options e)
              (all_pages e ++ filter (λ p, published p = true) pages)
              (categories e) (subpages e)
              (log e ++
               (filter (λ rf, hidden rf.2 = false) (walk_files walk)
                ≫= λ rf, (select_renderer extensions all_renderers Plain
                            BaseRenderer rf.2).2))) ∧
  ((∀ rf, rf ∈ walk_files walk → hidden rf.2 = false →
      is_Some (match new_page (path_join rf.1 rf.2) (options e)
                       (select_renderer extensions all_renderers Plain
                          BaseRenderer rf.2).1 with
               | inr p => Some p
               | inl _ => None
               end)) →
   ∃ e',
     load_pages_exn extensions all_renderers Plain BaseRenderer path_join
       new_page published walk e = Ok tt e').
Proof.
  pose proof (load_pages_exn_outcome walk e) as H.
  destruct (load_pages_exn _ _ _ _ _ _ _ walk e) as [[] e1|exn1 e1].
  - split_and!.
    + intros exn e' Heq. discriminate Heq.
    + by intros e' [= <-].
    + by eexists.
  - split_and!.
    + by intros exn e' [= <- <-].
    + intros e' Heq. discriminate Heq.
    + intros Hall. destruct H as (pre & rf & post & pages & Hf & _ & Hrf & _).
      destruct (Hall rf) as [p Hp].
      * assert (rf ∈ filter (λ rf, hidden rf.2 = false) (walk_files walk))
          as Hin by (rewrite Hf; set_solver).
        by apply list_elem_of_filter in Hin as [_ ?].
      * assert (rf ∈ filter (λ rf, hidden rf.2 = false) (walk_files walk))
          as Hin by (rewrite Hf; set_solver).
        by apply list_elem_of_filter in Hin as [? _].
      * rewrite Hrf in Hp. discriminate Hp.
Qed.
End load_pages_exn_facts.

(** ** The action *)

Section action_facts.
Context {World Renderer Hooks Author : Type}.
Context (load_config : World → Res World (option (gmap string ConfVal))).
Context (parse : string → Author).
Context (encode : Author → string).
Context (isdir : World → string → bool).
Context (rmtree : World → string → Res World unit).
Context (mkdir : World → string → Res World unit).
Context (listdir : World → string → Res World (list string)).
Context (copytree : World → string → string → Res World unit).
Context (copy : World → string → string → Res World unit).
Context (path_join : string → string → string).
Context (import_hooks : World → World * option Hooks).
Context (show_hooks : Hooks → string).
Context (walk : World → string → list (string * list string * list string)).
Context (extensions : Renderer → list string).
Context (all_renderers : list Renderer).
Context (Plain BaseRenderer : Renderer).
Context (new_page :
  World → string → gmap string ConfVal → Renderer → Exn + Page).
Context (published : Page → bool).
Context (now : World → nat).
Context (render : @Store World → nat → Page → Res (@Store World) (list Page)).
Context (write : @Store World → Page → Res (@Store World) unit).

(** [prepare_output] on the options comes to its end when the two
    directories are strings and [prepare_output] does. *)
Lemma prepare_output_opts_ok opts w w' :
  prepare_output_opts isdir rmtree mkdir listdir copytree copy path_join
    opts w = Ok tt w' ↔
  ∃ output_dir media_dir,
    dir_option opts "output_dir" = Some output_dir ∧
    dir_option opts "media_dir" = Some media_dir ∧
    prepare_output isdir rmtree mkdir listdir copytree copy path_join
      output_dir media_dir w = Ok tt w'.
Proof.
  unfold prepare_output_opts. split.
  - destruct (dir_option opts "output_dir") as [out|];
      [|intros H; discriminate H].
    destruct (dir_option opts "media_dir") as [media|].
    + intros H. by exists out, media.
    + destruct (reset_output _ _ _ out w); intros H; discriminate H.
  - by intros (out & media & -> & -> & ->).
Qed.



(** X17: when the action gets to the end of [render_site], the
    configuration has been read, the hooks imported and the output
    directory prepared before any content is read; the three directories
    are strings; every file of the walk that is not hidden has given a
    page, and the collection is the published ones, sorted by
    [make_tree]; the worklist is these pages followed by the pages the
    render calls returned, and every entry has been rendered and written
    once, in order.  Every one of these calls returned, the write call in
    the store the render call left; the store the run ends in is the
    store these calls leave, made one after the other, and every render
    call was made in the store the construction of its context left. *)
Theorem action_finished fuel lg w fin :
  action load_config parse encode isdir rmtree mkdir listdir copytree copy
    path_join import_hooks show_hooks walk extensions all_renderers Plain
    BaseRenderer new_page published now render write fuel lg w
  = Finished fin →
  ∃ config w0 w1 lg1 w2 output_dir media_dir content_dir pages e1,
    load_config w = Ok config w0 ∧
    sanity_check isdir w0 = true ∧
    load_hooks import_hooks show_hooks w0 lg = (w1, lg1) ∧
    dir_option (options e1) "output_dir" = Some output_dir ∧
    dir_option (options e1) "media_dir" = Some media_dir ∧
    dir_option (options e1) "content_dir" = Some content_dir ∧
    prepare_output isdir rmtree mkdir listdir copytree copy path_join
      output_dir media_dir w1 = Ok tt w2 ∧
    Forall2 (λ rf p,
               new_page w2 (path_join rf.1 rf.2) (options e1)
                 (select_renderer extensions all_renderers Plain
                    BaseRenderer rf.2).1 = inr p)
      (filter (λ rf, hidden rf.2 = false)
         (walk_files (walk w2 content_dir))) pages ∧
    e1 = mkEngine (conf_of encode <$> read_options parse config)
           (filter (λ p, published p = true) pages) ∅ ∅
           (lg1 ++
            (filter (λ rf, hidden rf.2 = false)
               (walk_files (walk w2 content_dir))
             ≫= λ rf, (select_renderer extensions all_renderers Plain
                         BaseRenderer rf.2).2)) ∧
    r_pages fin = sort_pages (all_pages e1) ++ (r_calls fin ≫= spawned) ∧
    r_calls fin ≫= rendered = r_pages fin ∧
    r_calls fin ≫= written = r_pages fin ∧
    (∀ n p lv s new,
       r_calls fin !! n = Some (CallRender p lv s new) →
       ∃ s2 s3, render s lv p = Ok new s2 ∧ write s2 p = Ok tt s3) ∧
    r_store fin
    = run_calls (render_of render) (write_of write)
        (r_store (render_init w2 (make_tree e1))) (r_calls fin) ∧
    (∀ j p lv s new,
       r_calls fin !! (2 * j) = Some (CallRender p lv s new) →
       make_templ_vars now (options e1)
         (sort_pages (all_pages e1)
          ++ (take (2 * j) (r_calls fin) ≫= spawned))
         (run_calls (render_of render) (write_of write)
            (r_store (render_init w2 (make_tree e1)))
            (take (2 * j) (r_calls fin)))
       = (lv, s)).
Proof.
  unfold action.
  destruct (load_config w) as [config w0|e0 w0] eqn:Hconf;
    [|intros H; discriminate H].
  destruct (sanity_check isdir w0) eqn:Hs; [|intros H; discriminate H].
  destruct (load_hooks _ _ w0 lg) as [w1 lg1] eqn:Hh.
  destruct (prepare_output_opts _ _ _ _ _ _ _ _ w1) as [[] w2|e2 w2]
    eqn:Hprep; [|intros H; discriminate H].
  apply prepare_output_opts_ok in Hprep as (out & media & Hout & Hmedia & Hp).
  unfold load_pages_opts.
  destruct (dir_option _ "content_dir") as [content|] eqn:Hcontent;
    [|intros H; discriminate H].
  pose proof (load_pages_exn_outcome extensions all_renderers Plain
    BaseRenderer path_join (new_page w2) published (walk w2 content)
    (mkEngine (conf_of encode <$> read_options parse config) [] ∅ ∅ lg1))
    as Hload.
  destruct (load_pages_exn _ _ _ _ _ _ _ _ _) as [[] e1|e1x e1];
    [|intros H; discriminate H].
  destruct Hload as (pages & Hpages & He1). simpl in Hpages, He1.
  destruct (render_site_exn _ _ _ fuel w2 _) as [[[] fin'|ex st]|] eqn:Hrun;
    intros H; try discriminate H.
  injection H as ->.
  exists config, w0, w1, lg1, w2, out, media, content, pages, e1.
  unfold render_site_exn in Hrun.
  pose proof (render_loop_exn_ok _ _ _ _ _ _ _ _ Hrun) as Htotal.
  assert (∀ n p lv s new,
    r_calls fin !! n = Some (CallRender p lv s new) →
    ∃ s2 s3, render s lv p = Ok new s2 ∧ write s2 p = Ok tt s3) as Hret.
  { refine (render_loop_exn_returned now render write _ _ _ _ _ _ Hrun).
    intros n p lv s new Hn. unfold render_init in Hn. simpl in Hn.
    by rewrite lookup_nil in Hn. }
  destruct (render_loop_calls _ _ _ _ _ _ _ _ _ Htotal) as [Hr Hw].
  destruct (render_loop_inv _ _ _ _ _ _ _ _ _ Htotal)
    as (_ & _ & Hwork & _).
  destruct (render_loop_effects _ _ _ _ _ _ _ _ _ Htotal) as [Hstore Hctx].
  rewrite He1. rewrite He1 in Hwork, Hstore, Hctx.
  split_and!; try done.
Qed.

(** X18: the action comes to an end when the spawn chains of the pages
    it has loaded are finite in the stores the run goes through, those
    with a property [Q] that the store the loop starts in has and that the
    construction of a context and the render and write calls that return
    keep: with fuel enough it exits, ends in an exception or gets to the
    end of [render_site], and the render loop is not cut short. *)
Theorem action_terminates (Q : @Store World → Prop) lg w :
  (∀ s c, Q s → Q (set_cells s c)) →
  (∀ s lv p new s', Q s → render s lv p = Ok new s' → Q s') →
  (∀ s p s', Q s → write s p = Ok tt s' → Q s') →
  (∀ config w0 w1 lg1 w2 e1,
     load_config w = Ok config w0 →
     load_hooks import_hooks show_hooks w0 lg = (w1, lg1) →
     prepare_output_opts isdir rmtree mkdir listdir copytree copy path_join
       (conf_of encode <$> read_options parse config) w1 = Ok tt w2 →
     load_pages_opts path_join walk extensions all_renderers Plain
       BaseRenderer new_page published
       (conf_of encode <$> read_options parse config) w2 lg1 = Ok tt e1 →
     Q (r_store (render_init w2 (make_tree e1))) ∧
     Forall (Acc (flip (spawns_in (render_of render) Q))) (all_pages e1)) →
  ∃ fuel,
    action load_config parse encode isdir rmtree mkdir listdir copytree copy
      path_join import_hooks show_hooks walk extensions all_renderers Plain
      BaseRenderer new_page published now render write fuel lg w
    ≠ Unfinished.
Proof.
  intros Hcells Hrender Hwrite Hinit. unfold action.
  destruct (load_config w) as [config w0|e0 w0] eqn:Hconf; [|by exists 0].
  destruct (sanity_check isdir w0); [|by exists 0].
  destruct (load_hooks _ _ w0 lg) as [w1 lg1] eqn:Hh.
  destruct (prepare_output_opts _ _ _ _ _ _ _ _ w1) as [[] w2|e2 w2]
    eqn:Hprep; [|by exists 0].
  destruct (load_pages_opts _ _ _ _ _ _ _ _ _ w2 lg1) as [[] e1|e1x e1]
    eqn:Hload; [|by exists 0].
  destruct (Hinit config w0 w1 lg1 w2 e1 eq_refl Hh Hprep Hload)
    as [HQ Hacc].
  destruct (render_loop_exn_terminates now render write Q
              (options (make_tree e1)) 0 (render_init w2 (make_tree e1)))
    as (fuel & r & Hrun); try done.
  { simpl. unfold sort_pages. by rewrite drop_0, sort_by_perm. }
  exists fuel. unfold render_site_exn. rewrite Hrun.
  by destruct r as [[] ?|? ?].
Qed.
End action_facts.

(** ** Examples on the file system *)

Lemma outcome_final {World} (d : @RState World) (o : @Outcome World) :
  (if o is Finished _ then True else False) →
  o = Finished (final_state d o).
Proof. by destruct o. Qed.

Lemma disk_action_final :
  action disk_config (λ a : string, a) (λ a : string, a) disk_isdir
    disk_rmtree disk_mkdir disk_listdir disk_copy disk_copy disk_join
    no_hooks show_unit disk_walk markup_extensions markups PlainText
    BaseMarkup disk_page disk_published disk_clock disk_render disk_write
    3 [] wok_disk
  = Finished disk_final.
Proof. unfold disk_final. apply outcome_final. vm_compute. exact I. Qed.

Lemma action_finished_witness :
  r_calls disk_final ≫= rendered = r_pages disk_final ∧
  r_calls disk_final ≫= written = r_pages disk_final ∧
  ∀ n p lv s new,
    r_calls disk_final !! n = Some (CallRender p lv s new) →
    ∃ s2 s3, disk_render s lv p = Ok new s2 ∧ disk_write s2 p = Ok tt s3.
Proof.
  destruct (action_finished disk_config (λ a : string, a) (λ a : string, a)
    disk_isdir disk_rmtree disk_mkdir disk_listdir disk_copy disk_copy
    disk_join no_hooks show_unit disk_walk markup_extensions markups
    PlainText BaseMarkup disk_page disk_published disk_clock disk_render
    disk_write 3 [] wok_disk disk_final disk_action_final)
    as (config & w0 & w1 & lg1 & w2 & out & media & content & pages & e1 &
        _ & _ & _ & _ & _ & _ & _ & _ & _ & _ & Hr & Hw & Hret & _).
  split; [exact Hr|]. split; [exact Hw|exact Hret].
Defined.

(** The continuation spawns nothing, and a page spawns at most the
    continuation. *)
Lemma disk_render_finite (p : Page) :
  Acc (flip (spawns_in (render_of disk_render) (λ _, True))) p.
Proof.
  assert (Acc (flip (spawns_in (render_of disk_render) (λ _, True)))
            disk_page2) as H2.
  { constructor. intros q (s & lv & _ & Hq). simpl in Hq.
    by apply elem_of_nil in Hq. }
  constructor. intros q (s & lv & _ & Hq).
  unfold render_of, disk_render in Hq. simpl in Hq.
  case_decide; [|by apply elem_of_nil in Hq].
  by apply list_elem_of_singleton in Hq as ->.
Qed.

Lemma action_terminates_witness :
  ∃ fuel,
    action disk_config (λ a : string, a) (λ a : string, a) disk_isdir
      disk_rmtree disk_mkdir disk_listdir disk_copy disk_copy disk_join
      no_hooks show_unit disk_walk markup_extensions markups PlainText
      BaseMarkup disk_page disk_published disk_clock disk_render disk_write
      fuel [] wok_disk
    ≠ Unfinished.
Proof.
  apply (action_terminates disk_config (λ a : string, a) (λ a : string, a)
           disk_isdir disk_rmtree disk_mkdir disk_listdir disk_copy disk_copy
           disk_join no_hooks show_unit disk_walk markup_extensions markups
           PlainText BaseMarkup disk_page disk_published disk_clock
           disk_render disk_write (λ _, True) [] wok_disk).
  - intros s c _. exact I.
  - intros s lv p new s' _ _. exact I.
  - intros s p s' _ _. exact I.
  - intros config w0 w1 lg1 w2 e1 _ _ _ _. split; [exact I|].
    apply Forall_forall. intros p _. apply disk_render_finite.
Defined.

Lemma run_raised {World} (d : @RState World)
    (r : option (Res (@RState World) unit)) :
  (if r is Some (Raise OSError _) then True else False) →
  r = Some (Raise OSError (raised_state d r)).
Proof. by destruct r as [[? ?|[] ?]|]. Qed.

Lemma disk_run_raised :
  render_site_exn disk_clock disk_render disk_write_ro 2 wok_disk
    (make_tree listing_site)
  = Some (Raise OSError disk_raised).
Proof. unfold disk_raised. apply run_raised. vm_compute. exact I. Qed.

Lemma render_raise_abandons_witness :
  ∃ j p lv s,
    r_pages disk_raised !! j = Some p ∧
    r_calls disk_raised ≫= written = take j (r_pages disk_raised) ∧
    make_templ_vars disk_clock (options (make_tree listing_site))
      (r_pages disk_raised)
      (run_calls (render_of disk_render) (write_of disk_write_ro)
         (r_store (render_init wok_disk (make_tree listing_site)))
         (take (2 * j) (r_calls disk_raised)))
    = (lv, s) ∧
    ((length (r_calls disk_raised) = 2 * j ∧
      r_calls disk_raised ≫= rendered = take j (r_pages disk_raised) ∧
      disk_render s lv p = Raise OSError (r_store disk_raised)) ∨
     (∃ new s2,
        length (r_calls disk_raised) = 2 * j + 1 ∧
        r_calls disk_raised !! (2 * j) = Some (CallRender p lv s new) ∧
        r_calls disk_raised ≫= rendered = take (S j) (r_pages disk_raised) ∧
        disk_render s lv p = Ok new s2 ∧
        disk_write_ro s2 p = Raise OSError (r_store disk_raised))).
Proof.
  exact (render_raise_abandons disk_clock disk_render disk_write_ro 2
           wok_disk (make_tree listing_site) OSError disk_raised
           disk_run_raised).
Defined.

Lemma copy_media_swallows_witness :
  copy_media disk_isdir disk_listdir disk_copy disk_copy disk_join
    "media" "output" bare_disk = Ok tt bare_disk.
Proof.
  apply (copy_media_swallows disk_isdir disk_listdir disk_copy disk_copy
           disk_join "media" "output" bare_disk bare_disk).
  left. reflexivity.
Defined.

Lemma first_sibling_wins_witness :
  t_subpages (tree_step twin_state post_page)
  = <[1 := (t_subpages twin_state !!! 1) ++ [meta post_page]]>
      (t_subpages twin_state).
Proof.
  refine (proj1 (first_sibling_wins twin_state post_page [] [meta blog_twin]
                   (meta blog_page) "blog" _ _ _ _)).
  - reflexivity.
  - reflexivity.
  - reflexivity.
  - intros x Hx. by apply elem_of_nil in Hx.
Defined.

Lemma nested_site_parents p cs c :
  p ∈ all_pages nested_site → category (meta p) = cs ++ [c] →
  ∃ q, q ∈ all_pages nested_site ∧ category (meta q) = cs ∧ slug (meta q) = c.
Proof.
  unfold nested_site. simpl. intros Hp Hc.
  repeat (apply elem_of_cons in Hp as [->|Hp]); simpl in Hc.
  - exists blog_page. destruct cs as [|? [|? ?]]; simplify_eq/=.
    split; [|done]. set_solver.
  - by destruct cs.
  - by destruct cs.
  - by apply elem_of_nil in Hp.
Qed.

Lemma complete_site_no_orphans_witness :
  log (make_tree nested_site) = log nested_site.
Proof.
  exact (proj1 (complete_site_no_orphans nested_site nested_site_parents)).
Defined.

Lemma nested_site_ids p q :
  p ∈ all_pages nested_site → q ∈ all_pages nested_site →
  mid (meta p) = mid (meta q) → meta p = meta q.
Proof.
  unfold nested_site. simpl. intros Hp Hq.
  repeat (apply elem_of_cons in Hp as [->|Hp]);
    repeat (apply elem_of_cons in Hq as [->|Hq]);
    try (by apply elem_of_nil in Hp); try (by apply elem_of_nil in Hq);
    by intros [=].
Qed.

Lemma forest_follows_paths_witness :
  category (meta post_page)
  = category (meta blog_page) ++ [slug (meta blog_page)].
Proof.
  refine (proj1 (forest_follows_paths nested_site nested_site_ids eq_refl)
            blog_page (meta post_page) _ _).
  - apply (bool_decide_unpack _). vm_compute. exact I.
  - apply (bool_decide_unpack _). vm_compute. exact I.
Defined.

Lemma render_site_log_witness :
  r_log fin_paginate
  = log (make_tree listing_site)
    ++ (r_calls fin_paginate ≫= λ c,
          if spawned c is [] then []
          else [(DEBUG, "found new_pages"%string)]).
Proof.
  exact (proj1 (render_site_log clock render_paginate write_quiet 3 tt
                  (make_tree listing_site) fin_paginate run_paginate_site)).
Defined.

Lemma author_binding_redundant_witness :
  bind_author {["author"%string := CStr "Ann"]} 0
    (merge_options {["author"%string := CStr "Ann"]} 0
       (mkStore tt ∅ ∅ ∅ [ODict ∅]))
  = merge_options {["author"%string := CStr "Ann"]} 0
      (mkStore tt ∅ ∅ ∅ [ODict ∅]).
Proof.
  exact (author_binding_redundant {["author"%string := CStr "Ann"]} 0
           (mkStore tt ∅ ∅ ∅ [ODict ∅]) ∅ eq_refl).
Defined.

Lemma authors_string_pieces_witness :
  ∃ pieces,
    read_options (λ a, a) (Some {["author"%string := CStr "Ann, Bob,"]})
      !! "authors"%string
    = Some (OAuthors ((λ a, a) <$> pieces)) ∧
    join_with comma pieces = "Ann, Bob,"%string ∧
    length pieces = 3 ∧
    ∀ piece, piece ∈ pieces → count_char comma piece = 0.
Proof.
  exact (authors_string_pieces (λ a, a)
           (Some {["author"%string := CStr "Ann, Bob,"]}) "Ann, Bob," eq_refl).
Defined.

(** ** Pages that come during the run *)

Section spawned_facts.
Context {World : Type} (now : World → nat).
Context (render : @Store World → nat → Page → @Store World * list Page).
Context (write : @Store World → Page → @Store World).

(** X19: a page that a render call returns is rendered and written, but
    it is listed nowhere: as long as the render and write steps do not
    write to the tag index and to the category listing themselves, these
    are, when the run is over, what they were before the loop, and the
    metadata of a page that was not loaded is in no entry of them. *)
Theorem spawned_pages_unlisted fuel (w : World) (e : Engine) fin q :
  (∀ s lv p, s_tag_dict (render s lv p).1 = s_tag_dict s ∧
             s_categories (render s lv p).1 = s_categories s) →
  (∀ s p, s_tag_dict (write s p) = s_tag_dict s ∧
          s_categories (write s p) = s_categories s) →
  generate now render write fuel w e = Some fin →
  q ∈ r_calls fin ≫= spawned →
  meta q ∉ meta <$> all_pages e →
  q ∈ r_calls fin ≫= rendered ∧
  q ∈ r_calls fin ≫= written ∧
  s_tag_dict (r_store fin) = gather_tags (sort_pages (all_pages e)) ∧
  s_categories (r_store fin) = categories (make_tree e) ∧
  (∀ t l, s_tag_dict (r_store fin) !! t = Some l → meta q ∉ l) ∧
  (∀ k l, s_categories (r_store fin) !! k = Some l → meta q ∉ l).
Proof.
  intros Hrender Hwrite Hrun Hq Hnew. unfold generate in Hrun.
  destruct (render_loop_calls now render write _ _ _ _ _ _ Hrun) as [Hr Hw].
  destruct (render_loop_inv now render write _ _ _ _ _ _ Hrun)
    as (_ & _ & Hpages & _).
  destruct (render_loop_store now render write (options (make_tree e))
    (λ s, s_tag_dict s = gather_tags (sort_pages (all_pages e)) ∧
          s_categories s = categories (make_tree e)) fuel 0
    (render_init w (make_tree e)) fin) as [[Htags Hcats] _]; try done.
  { intros s lv p [<- <-]. apply Hrender. }
  { intros s p [<- <-]. apply Hwrite. }
  assert (∀ l : list Page, l ⊆ sort_pages (all_pages e) →
            meta q ∉ meta <$> l) as Hsub.
  { intros l Hl (p & Hm & Hp%Hl)%list_elem_of_fmap. apply Hnew.
    rewrite Hm. apply list_elem_of_fmap_2. unfold sort_pages in Hp.
    by rewrite sort_by_perm in Hp. }
  split_and!; try done.
  - rewrite Hr, Hpages. apply elem_of_app. by right.
  - rewrite Hw, Hpages. apply elem_of_app. by right.
  - intros t l. rewrite Htags, gather_tags_lookup.
    case_decide; [|done]. intros [= <-]. apply Hsub.
    intros p [_ Hp]%list_elem_of_filter. done.
  - intros k l. rewrite Hcats. simpl. unfold tree_loop.
    rewrite categories_foldl by done.
    intros [_ ->]%nonempty_opt_Some. apply Hsub.
    intros p [_ Hp]%list_elem_of_filter. done.
Qed.
End spawned_facts.

Lemma spawned_pages_unlisted_witness :
  page2 ∈ r_calls fin_paginate ≫= rendered ∧
  s_categories (r_store fin_paginate) = categories (make_tree listing_site).
Proof.
  destruct (spawned_pages_unlisted clock render_paginate write_quiet 3 tt
    listing_site fin_paginate page2 (λ s lv p, conj eq_refl eq_refl)
    (λ s p, conj eq_refl eq_refl) run_paginate_final)
    as (Hr & _ & _ & Hc & _).
  - apply (bool_decide_unpack _). vm_compute. exact I.
  - apply (bool_decide_unpack _). vm_compute. exact I.
  - split; [exact Hr|exact Hc].
Defined.
